(** * MP3 Player: the playback-and-transition engine of [mp3_player.py]

    A shallow embedding of the engine part of class [MP3Player]: the
    transport fields, the shuffle picker, the FFmpeg fallback for [.m4a]
    files, the 200 ms poll and the playlist operations that touch the
    engine fields.  Widgets (labels, icons, progress bar, row frames) are
    presentation only and are left out; the error dialog is kept because it
    is how a playback failure is reported. *)

From Stdlib Require Import ZArith QArith Qround Lqa String Ascii DecimalString DecimalNat.
From stdpp Require Import base option list gmap strings sorting.

Local Open Scope Z_scope.

(* stdpp's solvers clear hypotheses that may already be gone *)
#[local] Set Warnings "-clear-no-such-hyp".

(** ** Python values *)

(** [len(l)] as a Python int. *)
Definition len {A} (l : list A) : Z := Z.of_nat (length l).

(** [range(n)]. *)
Definition py_range (n : Z) : list Z := Z.of_nat <$> seq 0 (Z.to_nat n).

(** [l[i]]: negative indices count from the end, anything outside
    [-len(l), len(l)) raises IndexError (here [None]). *)
Definition py_getitem {A} (l : list A) (i : Z) : option A :=
  if bool_decide (0 <= i < len l) then l !! Z.to_nat i
  else if bool_decide (- len l <= i < 0) then l !! Z.to_nat (i + len l)
  else None.

(** [random.randrange(n)] and [random.choice(seq)] for a generator whose
    next draw is [draw]: CPython's [choice] is [seq[randbelow(len(seq))]].
    As [draw] ranges over the naturals, [draw mod n] ranges over all of
    [0, n). *)
Definition randrange (draw : nat) (n : Z) : Z := Z.of_nat draw mod n.

Definition choice {A} (draw : nat) (l : list A) : option A :=
  l !! (draw mod length l)%nat.

(** What a call comes back with: a value, or an exception, kept by its
    message. *)
Inductive Res (A : Type) :=
| Ok (x : A)
| Raise (msg : string).
Arguments Ok {A} x.
Arguments Raise {A} msg.

(** [[f(x) for x in l]]: the elements are taken in order, and the first
    call that raises ends the comprehension. *)
Fixpoint map_res {A B} (f : A -> Res B) (l : list A) : Res (list B) :=
  match l with
  | [] => Ok []
  | x :: l' =>
      match f x with
      | Raise msg => Raise msg
      | Ok y =>
          match map_res f l' with
          | Raise msg => Raise msg
          | Ok ys => Ok (y :: ys)
          end
      end
  end.

(** Decimal digits of a number, as [str(n)] and [f"{n}"] print them. *)
Definition dec (n : nat) : string :=
  NilEmpty.string_of_uint (Nat.to_uint n).

(** ** Text

    A Python [str] is a sequence of code points.  A character is kept
    here as an [ascii], read as the code point of the same number, U+0000
    to U+00FF: [ascii_of_nat 178] is the superscript two U+00B2, and
    [ascii_of_nat 201] is the capital E with acute U+00C9.  A [string] is
    the text made of these characters; a name with a character beyond
    U+00FF has no counterpart here.  On this range Python's case mapping
    and character tests are the following. *)

(** [c.lower()]: the letters A-Z and the capital letters U+00C0 to U+00DE,
    but for the multiplication sign U+00D7, move up by 32. *)
Definition lower_char (c : ascii) : ascii :=
  let n := nat_of_ascii c in
  if bool_decide (65 <= n <= 90 ∨ 192 <= n <= 214 ∨ 216 <= n <= 222)%nat
  then ascii_of_nat (n + 32) else c.

(** [s.lower()]. *)
Fixpoint lower (s : string) : string :=
  match s with
  | EmptyString => EmptyString
  | String c s' => String (lower_char c) (lower s')
  end.

(** The characters [\d] matches: the decimal digits 0 to 9. *)
Definition is_decimal (c : ascii) : bool :=
  let n := nat_of_ascii c in bool_decide (48 <= n <= 57)%nat.

(** The characters [str.isdigit()] takes for digits: the decimal digits
    and the superscript digits U+00B2, U+00B3 and U+00B9. *)
Definition char_isdigit (c : ascii) : bool :=
  let n := nat_of_ascii c in
  bool_decide (48 <= n <= 57 ∨ n = 178 ∨ n = 179 ∨ n = 185)%nat.

Fixpoint all_chars (f : ascii -> bool) (s : string) : bool :=
  match s with
  | EmptyString => true
  | String c s' => f c && all_chars f s'
  end.

(** [s.isdigit()]: at least one character, and digits only. *)
Definition isdigit (s : string) : bool :=
  negb (String.eqb s "") && all_chars char_isdigit s.

(** The number a run of decimal digits stands for. *)
Fixpoint digits_value (s : string) (acc : N) : N :=
  match s with
  | EmptyString => acc
  | String c s' => digits_value s' (10 * acc + N.of_nat (nat_of_ascii c - 48))%N
  end.

(** [sys.get_int_max_str_digits()], which the program leaves at its
    default. *)
Definition int_max_str_digits : N := 4300.

(** [int(t)] for a text without sign, blanks or underscores: a ValueError
    unless [t] is a run of at least one and at most 4300 decimal digits. *)
Definition py_int (t : string) : Res N :=
  if String.eqb t "" || negb (all_chars is_decimal t) then
    Raise ("invalid literal for int() with base 10: '" +:+ t +:+ "'")
  else if (int_max_str_digits <? N.of_nat (String.length t))%N then
    Raise ("Exceeds the limit (4300 digits) for integer string conversion: "
           +:+ "value has " +:+ dec (String.length t) +:+ " digits; "
           +:+ "use sys.set_int_max_str_digits() to increase the limit")
  else Ok (digits_value t 0).

(** ** Paths

    A [pathlib.Path] is kept by the components the program reads:
    the directory, the stem and the suffix of the final component. *)
Record Path := mkPath { parent : string; stem : string; suffix : string }.

Definition path_str (p : Path) : string :=
  parent p +:+ "/" +:+ stem p +:+ suffix p.

Definition SUPPORTED_EXT : list string :=
  [".mp3"; ".ogg"; ".wav"; ".flac"; ".m4a"]%string.

Definition supported (p : Path) : bool :=
  bool_decide (lower (suffix p) ∈ SUPPORTED_EXT).

(** ** Natural sort key

    [_natural_key] splits the stem on runs of decimal digits with
    [re.split(r'(\d+)', stem)] and turns every piece [t] into [int(t)] if
    [t.isdigit()] and into [t.lower()] otherwise. *)
Inductive KeyTok := KInt (n : N) | KStr (s : string).

(** The scan of [re.split(r'(\d+)', s)]: [cur] is the piece being read,
    a run of digits when [in_digits] and text otherwise.  The pieces
    alternate text, digits, text, ..., and the first and the last are
    (possibly empty) text. *)
Fixpoint re_split_from (s cur : string) (in_digits : bool) : list string :=
  match s with
  | EmptyString => if in_digits then [cur; ""%string] else [cur]
  | String c s' =>
      if is_decimal c then
        if in_digits then re_split_from s' (cur +:+ String c "") true
        else cur :: re_split_from s' (String c "") true
      else
        if in_digits then cur :: re_split_from s' (String c "") false
        else re_split_from s' (cur +:+ String c "") false
  end.

Definition re_split_digits (s : string) : list string :=
  re_split_from s "" false.

(** [int(t) if t.isdigit() else t.lower()]. *)
Definition piece_key (t : string) : Res KeyTok :=
  if isdigit t then
    match py_int t with
    | Ok n => Ok (KInt n)
    | Raise msg => Raise msg
    end
  else Ok (KStr (lower t)).

(** The key of a path, or the ValueError of [int] on a piece that
    [isdigit] accepts and [int] does not: a text piece made of superscript
    digits only, or a run of more than 4300 digits. *)
Definition _natural_key (p : Path) : Res (list KeyTok) :=
  map_res piece_key (re_split_digits (stem p)).

Definition tok_eqb (t1 t2 : KeyTok) : bool :=
  match t1, t2 with
  | KInt a, KInt b => N.eqb a b
  | KStr a, KStr b => String.eqb a b
  | _, _ => false
  end.

(** Two keys carry the same kind of piece at the same position, so the
    mixed cases (a TypeError in Python) do not arise between keys. *)
Definition tok_lt (t1 t2 : KeyTok) : bool :=
  match t1, t2 with
  | KInt a, KInt b => N.ltb a b
  | KStr a, KStr b => String.ltb a b
  | _, _ => false
  end.

(** Python's list comparison: the first differing position decides. *)
Fixpoint key_lt (k1 k2 : list KeyTok) : bool :=
  match k1, k2 with
  | [], [] => false
  | [], _ :: _ => true
  | _ :: _, [] => false
  | t1 :: k1', t2 :: k2' =>
      if tok_eqb t1 t2 then key_lt k1' k2' else tok_lt t1 t2
  end.

(** [l.sort(key=_natural_key)].  CPython first computes the key of every
    element, in order; when one of these calls raises, the exception
    leaves [sort] and the list is as it was.  Otherwise the elements are
    ordered by their keys, and the sort is stable: an element is placed
    before the first element of the sorted tail that is not smaller than
    it. *)
Definition with_key (p : Path) : Res (list KeyTok * Path) :=
  match _natural_key p with
  | Ok k => Ok (k, p)
  | Raise msg => Raise msg
  end.

Fixpoint insert_by_key (x : list KeyTok * Path) (l : list (list KeyTok * Path))
    : list (list KeyTok * Path) :=
  match l with
  | [] => [x]
  | y :: l' =>
      if key_lt (fst y) (fst x)
      then y :: insert_by_key x l'
      else x :: y :: l'
  end.

Definition sort_natural (l : list Path) : Res (list Path) :=
  match map_res with_key l with
  | Ok keyed => Ok (snd <$> foldr insert_by_key [] keyed)
  | Raise msg => Raise msg
  end.

(** ** Engine state *)

(** Calls that leave the engine: commands to [pygame.mixer.music], runs of
    the FFmpeg subprocess and the error dialog.  [NextTrack] records an
    entry into [next_track], so that the poll loop triggering it can be
    observed. *)
Inductive Call :=
| MusicLoad (p : string)
| MusicPlay
| MusicPause
| MusicUnpause
| MusicStop
| MusicSetVolume (v : Q)
| FfmpegRun (src out : string)
| ShowError (title msg : string)
| NextTrack.

Record App := mkApp {
  playlist : list Path;
  current_index : option Z;
  paused : bool;
  shuffle : bool;
  user_stopped : bool;
  track_duration_s : option Q;
  elapsed_base_ms : Z;
  _temp_files : list Path;
  calls : list Call
}.

(** The fields as [__init__] sets them. *)
Definition init : App :=
  {| playlist := []; current_index := None; paused := false;
     shuffle := false; user_stopped := false; track_duration_s := None;
     elapsed_base_ms := 0; _temp_files := []; calls := [] |}.

Definition set_playlist (l : list Path) (a : App) : App :=
  mkApp l (current_index a) (paused a) (shuffle a) (user_stopped a)
        (track_duration_s a) (elapsed_base_ms a) (_temp_files a) (calls a).
Definition set_current_index (c : option Z) (a : App) : App :=
  mkApp (playlist a) c (paused a) (shuffle a) (user_stopped a)
        (track_duration_s a) (elapsed_base_ms a) (_temp_files a) (calls a).
Definition set_paused (b : bool) (a : App) : App :=
  mkApp (playlist a) (current_index a) b (shuffle a) (user_stopped a)
        (track_duration_s a) (elapsed_base_ms a) (_temp_files a) (calls a).
Definition set_shuffle (b : bool) (a : App) : App :=
  mkApp (playlist a) (current_index a) (paused a) b (user_stopped a)
        (track_duration_s a) (elapsed_base_ms a) (_temp_files a) (calls a).
Definition set_user_stopped (b : bool) (a : App) : App :=
  mkApp (playlist a) (current_index a) (paused a) (shuffle a) b
        (track_duration_s a) (elapsed_base_ms a) (_temp_files a) (calls a).
Definition set_track_duration_s (d : option Q) (a : App) : App :=
  mkApp (playlist a) (current_index a) (paused a) (shuffle a) (user_stopped a)
        d (elapsed_base_ms a) (_temp_files a) (calls a).
Definition set_elapsed_base_ms (e : Z) (a : App) : App :=
  mkApp (playlist a) (current_index a) (paused a) (shuffle a) (user_stopped a)
        (track_duration_s a) e (_temp_files a) (calls a).
Definition add_temp_file (p : Path) (a : App) : App :=
  mkApp (playlist a) (current_index a) (paused a) (shuffle a) (user_stopped a)
        (track_duration_s a) (elapsed_base_ms a) (_temp_files a ++ [p]) (calls a).
Definition emit (c : Call) (a : App) : App :=
  mkApp (playlist a) (current_index a) (paused a) (shuffle a) (user_stopped a)
        (track_duration_s a) (elapsed_base_ms a) (_temp_files a) (calls a ++ [c]).

(** ** The outside world

    What the collaborators answer during one callback.  An [option string]
    answer of a command is [Some msg] when the call raises with message
    [msg] and [None] when it returns; [Path.exists()] answers with a
    truth value or raises the OSError of the underlying [stat]. *)
Inductive Mutagen :=
| MfRaises (msg : string)
| MfNone
| MfNoInfo
| MfNoLength
| MfLength (seconds : Q).

Record Env := mkEnv {
  get_busy : bool;                       (* pygame.mixer.music.get_busy() *)
  get_pos : option Z;                    (* get_pos(), None when it raises *)
  music_load : string -> option string;  (* load(path) *)
  music_play : option string;            (* play() *)
  music_stop : option string;            (* stop() *)
  music_set_volume : option string;      (* set_volume(v) *)
  which_ffmpeg : option string;          (* shutil.which("ffmpeg") *)
  gettempdir : string;                   (* tempfile.gettempdir() *)
  mkdir : option string;                 (* tmp_dir.mkdir(...) *)
  ffmpeg_run : string -> string -> option string; (* subprocess.run(..., check=True) *)
  path_exists : string -> Res bool;      (* Path.exists() *)
  mutagen_file : string -> Mutagen;      (* MutagenFile(path) *)
  draw : nat                             (* the random generator's next draw *)
}.

(** ** Callbacks: state, log and exceptions *)
Definition M (A : Type) : Type := App -> Res A * App.

Definition ret {A} (x : A) : M A := fun a => (Ok x, a).

Definition bind {A B} (m : M A) (k : A -> M B) : M B :=
  fun a =>
    match m a with
    | (Ok x, a') => k x a'
    | (Raise msg, a') => (Raise msg, a')
    end.

Definition raise {A} (msg : string) : M A := fun a => (Raise msg, a).

(** [try: m  except Exception as e: h(str(e))]. *)
Definition try_except {A} (m : M A) (h : string -> M A) : M A :=
  fun a =>
    match m a with
    | (Ok x, a') => (Ok x, a')
    | (Raise msg, a') => h msg a'
    end.

Definition get {A} (f : App -> A) : M A := fun a => (Ok (f a), a).
Definition modify (f : App -> App) : M unit := fun a => (Ok tt, f a).

(** An outside command: logged, then it returns or raises. *)
Definition command (c : Call) (answer : option string) : M unit :=
  fun a =>
    match answer with
    | None => (Ok tt, emit c a)
    | Some msg => (Raise msg, emit c a)
    end.

Declare Scope engine_scope.
Delimit Scope engine_scope with engine.
Notation "x <- e ;; k" := (bind e (fun x => k))
  (at level 100, e at next level, k at level 200, right associativity) : engine_scope.
Notation "e ;;; k" := (bind e (fun _ => k))
  (at level 100, k at level 200, right associativity) : engine_scope.
Local Open Scope engine_scope.

Definition nl : string := String (ascii_of_nat 10) EmptyString.

(** Python truth value of [shutil.which]'s answer. *)
Definition found (o : option string) : bool :=
  match o with
  | Some s => negb (String.eqb s "")
  | None => false
  end.

(** A call that may raise and leaves no trace in the log. *)
Definition attempt (answer : option string) : M unit :=
  fun a =>
    match answer with
    | None => (Ok tt, a)
    | Some msg => (Raise msg, a)
    end.

(** The same for a call that comes back with a value. *)
Definition answer {A} (r : Res A) : M A := fun a => (r, a).

Section Engine.

(** [hashlib.sha1(s.encode("utf-8")).hexdigest()]. *)
Variable sha1_hexdigest : string -> string.

(** *** Shuffle picker *)
Definition _pick_shuffle_index (env : Env) (a : App) : option Z :=
  let n := len (playlist a) in
  if bool_decide (n = 0) then None
  else
    match current_index a with
    | None => Some (randrange (draw env) n)
    | Some c =>
        let next_seq := (c + 1) mod n in
        let forbidden : gset Z := {[c; next_seq]} in
        if bool_decide (n <= Z.of_nat (size forbidden)) then
          head (filter (λ i, i ≠ c) (py_range n))
        else
          let choices := filter (λ i, i ∉ forbidden) (py_range n) in
          match choices with
          | [] => None
          | _ => choice (draw env) choices
          end
    end.

(** *** Duration probe *)
Definition _read_duration_seconds (env : Env) (path : Path) : option Q :=
  match mutagen_file env (path_str path) with
  | MfRaises _ => None
  | MfNone => None
  | MfNoInfo => None
  | MfNoLength => None
  | MfLength seconds => Some seconds
  end.

(** *** FFmpeg fallback for .m4a *)
Definition _ffmpeg_path (env : Env) : option string := which_ffmpeg env.

Definition cache_path (env : Env) (src : Path) : Path :=
  let h := substring 0 12 (sha1_hexdigest (path_str src)) in
  let tmp_dir := mkPath (gettempdir env) "mp3player_cache" "" in
  mkPath (path_str tmp_dir) (stem src +:+ "_" +:+ h) ".wav".

Definition _transcode_to_wav (env : Env) (src : Path) : M (option Path) :=
  if negb (found (_ffmpeg_path env)) then ret None
  else
    attempt (mkdir env) ;;;
    let out := cache_path env src in
    try_except
      (command (FfmpegRun (path_str src) (path_str out))
               (ffmpeg_run env (path_str src) (path_str out)) ;;;
       out_exists <- answer (path_exists env (path_str out)) ;;
       if out_exists : bool
       then modify (add_temp_file out) ;;; ret (Some out)
       else ret None)
      (fun _ => ret None).

Definition _ensure_playable_path (env : Env) (path : Path) : M Path :=
  if negb (String.eqb (lower (suffix path)) ".m4a") then ret path
  else
    native <- try_except
                (command (MusicLoad (path_str path))
                         (music_load env (path_str path)) ;;;
                 ret true)
                (fun _ => ret false) ;;
    if native : bool then ret path
    else
      wav <- _transcode_to_wav env path ;;
      match wav with
      | Some w => ret w
      | None => ret path
      end.

(** *** Transport *)
Definition error_message (env : Env) (orig_path : Path) (e : string) : string :=
  if String.eqb (lower (suffix orig_path)) ".m4a" && negb (found (_ffmpeg_path env))
  then "Unable to play this .m4a." +:+ nl +:+ nl
       +:+ "Install FFmpeg (in PATH) to enable the fallback, "
       +:+ "or convert the file to .mp3/.wav."
  else e.

(** The body of the [try] block of [_start_play]. *)
Definition start_attempt (env : Env) (index : Z) (orig_path : Path) : M unit :=
  path_for_play <- _ensure_playable_path env orig_path ;;
  command (MusicLoad (path_str path_for_play))
          (music_load env (path_str path_for_play)) ;;;
  command MusicPlay (music_play env) ;;;
  modify (set_current_index (Some index)) ;;;
  modify (set_user_stopped false) ;;;
  modify (set_paused false) ;;;
  modify (set_elapsed_base_ms 0) ;;;
  modify (set_track_duration_s (_read_duration_seconds env orig_path)).

Definition _start_play (env : Env) (index : Z) : M unit :=
  pl <- get playlist ;;
  match pl with
  | [] => ret tt
  | _ =>
      match py_getitem pl index with
      | None => raise "list index out of range"
      | Some orig_path =>
          try_except
            (start_attempt env index orig_path)
            (fun e =>
               command (ShowError "Error"
                          ("Cannot play:" +:+ nl +:+ path_str orig_path
                           +:+ nl +:+ nl +:+ error_message env orig_path e))
                       None)
      end
  end.

Definition play_pause (env : Env) : M unit :=
  a <- get id ;;
  match current_index a, playlist a with
  | None, _ :: _ => _start_play env 0
  | _, _ =>
      if get_busy env && negb (paused a) then
        let cur := match get_pos env with
                   | Some p => Z.max 0 p
                   | None => 0
                   end in
        modify (fun a => set_elapsed_base_ms (elapsed_base_ms a + cur) a) ;;;
        command MusicPause None ;;;
        modify (set_paused true)
      else
        match current_index a with
        | Some _ => command MusicUnpause None ;;; modify (set_paused false)
        | None => ret tt
        end
  end.

Definition prev_track (env : Env) : M unit :=
  a <- get id ;;
  match playlist a with
  | [] => ret tt
  | _ =>
      let idx := match current_index a with
                 | Some c => (c - 1) mod len (playlist a)
                 | None => 0
                 end in
      _start_play env idx
  end.

Definition next_track (env : Env) : M unit :=
  modify (emit NextTrack) ;;;
  a <- get id ;;
  match playlist a with
  | [] => ret tt
  | _ =>
      if shuffle a then
        match _pick_shuffle_index env a with
        | None => ret tt
        | Some idx => _start_play env idx
        end
      else
        let idx := match current_index a with
                   | Some c => (c + 1) mod len (playlist a)
                   | None => 0
                   end in
        _start_play env idx
  end.

Definition toggle_shuffle : M unit :=
  modify (fun a => set_shuffle (negb (shuffle a)) a).

Definition _on_volume (env : Env) (val : Q) : M unit :=
  try_except
    (command (MusicSetVolume (val / (100 # 1))%Q) (music_set_volume env))
    (fun _ => ret tt).

(** The auto-advance test of one tick of the poll loop. *)
Definition _poll_playback (env : Env) : M unit :=
  a <- get id ;;
  if negb (get_busy env) && negb (paused a) && negb (user_stopped a)
     && bool_decide (current_index a ≠ None)
  then next_track env
  else ret tt.

Definition _halt_playback (env : Env) : M unit :=
  try_except
    (modify (set_user_stopped true) ;;;
     command MusicStop (music_stop env))
    (fun _ => ret tt) ;;;
  modify (set_paused false) ;;;
  modify (set_elapsed_base_ms 0).

(** *** Playlist edits *)
Definition clear_playlist (env : Env) : M unit :=
  _halt_playback env ;;;
  modify (set_current_index None) ;;;
  modify (set_playlist []).

(** [self.playlist.sort(key=_natural_key)]: when [sort] raises, the
    playlist is as it was and the exception leaves the callback. *)
Definition sort_playlist : M unit :=
  fun a =>
    match sort_natural (playlist a) with
    | Ok l => (Ok tt, set_playlist l a)
    | Raise msg => (Raise msg, a)
    end.

(** The loop of [_load_playlist_paths]: a path that exists and has a
    supported extension is appended; an [exists()] that raises ends the
    loop, and the callback, with the paths appended so far. *)
Fixpoint load_paths_loop (env : Env) (paths : list Path) : M unit :=
  match paths with
  | [] => ret tt
  | pp :: rest =>
      pp_exists <- answer (path_exists env (path_str pp)) ;;
      (if pp_exists && supported pp
       then modify (fun a => set_playlist (playlist a ++ [pp]) a)
       else ret tt) ;;;
      load_paths_loop env rest
  end.

Definition _load_playlist_paths (env : Env) (paths : list Path) : M unit :=
  _halt_playback env ;;;
  modify (set_current_index None) ;;;
  modify (set_playlist []) ;;;
  load_paths_loop env paths ;;;
  sort_playlist.

(** The loop of [add_files] and [add_folder]: a supported path is appended
    unless its string was seen. *)
Fixpoint append_unseen (paths : list Path) (seen : gset string)
    (pl : list Path) : list Path :=
  match paths with
  | [] => pl
  | pp :: rest =>
      if supported pp && bool_decide (path_str pp ∉ seen)
      then append_unseen rest ({[path_str pp]} ∪ seen) (pl ++ [pp])
      else append_unseen rest seen pl
  end.

(** [paths] is what the file dialog returned. *)
Definition add_files (paths : list Path) : M unit :=
  match paths with
  | [] => ret tt
  | _ =>
      modify (fun a =>
        let seen : gset string := list_to_set (path_str <$> playlist a) in
        set_playlist (append_unseen paths seen (playlist a)) a) ;;;
      sort_playlist
  end.

(** [folder] is [None] when the folder dialog was cancelled, and otherwise
    the files [os.walk] yields below the chosen folder.  What follows the
    sort, storing the new files as a named playlist, is [add_folder_store]
    below. *)
Definition add_folder (folder : option (list Path)) : M unit :=
  match folder with
  | None => ret tt
  | Some files =>
      modify (fun a =>
        let seen : gset string := list_to_set (path_str <$> playlist a) in
        set_playlist (append_unseen files seen (playlist a)) a) ;;;
      sort_playlist
  end.

(** *** The callbacks a user or the timer can fire *)
Inductive Op :=
| StartPlay (index : Z)
| PlayPause
| Prev
| Next
| ToggleShuffle
| Volume (val : Q)
| Halt
| LoadPlaylist (paths : list Path)
| ClearPlaylist
| AddFiles (paths : list Path)
| AddFolder (folder : option (list Path))
| Tick.

Definition run (env : Env) (op : Op) : M unit :=
  match op with
  | StartPlay index => _start_play env index
  | PlayPause => play_pause env
  | Prev => prev_track env
  | Next => next_track env
  | ToggleShuffle => toggle_shuffle
  | Volume val => _on_volume env val
  | Halt => _halt_playback env
  | LoadPlaylist paths => _load_playlist_paths env paths
  | ClearPlaylist => clear_playlist env
  | AddFiles paths => add_files paths
  | AddFolder folder => add_folder folder
  | Tick => _poll_playback env
  end.

(** A row exists, and can be double-clicked, only for an index of the
    playlist: [_refresh_playlist] rebuilds the rows from
    [enumerate(self.playlist)] after every edit. *)
Definition enabled (op : Op) (a : App) : Prop :=
  match op with
  | StartPlay index => 0 <= index < len (playlist a)
  | _ => True
  end.

Inductive reachable : App -> Prop :=
| reachable_init : reachable init
| reachable_step a env op :
    reachable a -> enabled op a -> reachable (snd (run env op a)).

(** The state after a sequence of callbacks, each with its own answers
    from the outside world. *)
Fixpoint run_all (steps : list (Env * Op)) (a : App) : App :=
  match steps with
  | [] => a
  | (env, op) :: rest => run_all rest (snd (run env op a))
  end.

(** The callbacks that run [_halt_playback]. *)
Definition halts (op : Op) : bool :=
  match op with
  | Halt | LoadPlaylist _ | ClearPlaylist => true
  | _ => false
  end.

(** The callbacks that can reach [_start_play]. *)
Definition starts (op : Op) : bool :=
  match op with
  | StartPlay _ | PlayPause | Prev | Next | Tick => true
  | _ => false
  end.

(** Every callback of a sequence is one the window offers in the state
    it is fired in. *)
Fixpoint enabled_all (steps : list (Env * Op)) (a : App) : Prop :=
  match steps with
  | [] => True
  | (env, op) :: rest => enabled op a ∧ enabled_all rest (snd (run env op a))
  end.

(** The specification's reading of the elapsed clock: only a callback that
    starts a track takes it from a non-zero value back to 0. *)
Definition reset_only_by_start : Prop :=
  ∀ env op a,
    reachable a → enabled op a →
    elapsed_base_ms a ≠ 0 →
    elapsed_base_ms (snd (run env op a)) = 0 →
    starts op = true.

(** The specification's reading of a failed start: whenever the load/play
    attempt on a valid index fails in a reachable state, that index is not
    the current one afterwards. *)
Definition failed_start_not_current : Prop :=
  ∀ env a index orig_path msg,
    reachable a →
    0 <= index < len (playlist a) →
    py_getitem (playlist a) index = Some orig_path →
    fst (start_attempt env index orig_path a) = Raise msg →
    current_index (snd (_start_play env index a)) ≠ Some index.

End Engine.

Definition index_in_range (a : App) : Prop :=
  match current_index a with
  | None => True
  | Some c => 0 <= c < len (playlist a)
  end.

(** The calls made between state [a] and a later state [a']. *)
Definition new_calls (a a' : App) : list Call :=
  drop (length (calls a)) (calls a').

Definition is_ffmpeg_run (c : Call) : bool :=
  match c with
  | FfmpegRun _ _ => true
  | _ => false
  end.

(** How often the transcoder was started in a list of calls. *)
Definition transcoder_runs (l : list Call) : nat :=
  length (filter (λ c, is_ffmpeg_run c = true) l).

(** The five transport fields. *)
Definition same_transport (a a' : App) : Prop :=
  current_index a' = current_index a
  ∧ paused a' = paused a
  ∧ user_stopped a' = user_stopped a
  ∧ elapsed_base_ms a' = elapsed_base_ms a
  ∧ track_duration_s a' = track_duration_s a.

(** The volume level the specification asks for: [level] clamped
    into [0, 100]. *)
Definition clamp_level (level : Q) : Q :=
  if Qle_bool level (0 # 1) then 0 # 1
  else if Qle_bool (100 # 1) level then 100 # 1
  else level.

(** The four postconditions the specification gives for [halt()], between
    the state [a] before and the state [a'] after. *)
Definition halt_postconditions (a a' : App) : Prop :=
  user_stopped a' = true
  ∧ MusicStop ∈ new_calls a a'
  ∧ current_index a' = None
  ∧ elapsed_base_ms a' = 0.

(** The volume the device was last told to use. *)
Definition volume_sent (a : App) : option Q :=
  match last (calls a) with
  | Some (MusicSetVolume v) => Some v
  | _ => None
  end.

(** Ticks of the poll loop, one per answer of the outside world. *)
Definition ticks (envs : list Env) : list (Env * Op) :=
  (λ env, (env, Tick)) <$> envs.

(** ** Sample data *)

(** A stand-in for the hash, for runs on concrete inputs. *)
Definition sample_sha1 (s : string) : string :=
  "3f786850e387550fdab836ed7e6dc881de23001b".

Definition song_a : Path := mkPath "/music" "01 intro" ".mp3".
Definition song_b : Path := mkPath "/music" "02 theme" ".ogg".
Definition song_c : Path := mkPath "/music" "10 finale" ".wav".
Definition talk : Path := mkPath "/music" "talk" ".m4a".

(** Everything works, nothing is playing. *)
Definition world : Env :=
  {| get_busy := false; get_pos := Some 0;
     music_load := fun _ => None; music_play := None; music_stop := None;
     music_set_volume := None; which_ffmpeg := Some "/usr/bin/ffmpeg";
     gettempdir := "/tmp"; mkdir := None; ffmpeg_run := fun _ _ => None;
     path_exists := fun _ => Ok true;
     mutagen_file := fun _ => MfLength (180 # 1); draw := 0 |}.

(** The device is 500 ms into a track. *)
Definition world_playing : Env :=
  {| get_busy := true; get_pos := Some 500;
     music_load := fun _ => None; music_play := None; music_stop := None;
     music_set_volume := None; which_ffmpeg := Some "/usr/bin/ffmpeg";
     gettempdir := "/tmp"; mkdir := None; ffmpeg_run := fun _ _ => None;
     path_exists := fun _ => Ok true;
     mutagen_file := fun _ => MfLength (180 # 1); draw := 0 |}.

(** The device decodes everything but [.m4a]; FFmpeg is installed. *)
Definition world_no_m4a : Env :=
  {| get_busy := false; get_pos := Some 0;
     music_load := fun p =>
       if String.eqb p (path_str talk) then Some "Unrecognized audio format"
       else None;
     music_play := None; music_stop := None;
     music_set_volume := None; which_ffmpeg := Some "/usr/bin/ffmpeg";
     gettempdir := "/tmp"; mkdir := None; ffmpeg_run := fun _ _ => None;
     path_exists := fun _ => Ok true;
     mutagen_file := fun _ => MfLength (180 # 1); draw := 0 |}.

(** The device rejects every file. *)
Definition world_broken : Env :=
  {| get_busy := false; get_pos := Some 0;
     music_load := fun _ => Some "No such file or directory";
     music_play := None; music_stop := None;
     music_set_volume := None; which_ffmpeg := None;
     gettempdir := "/tmp"; mkdir := None; ffmpeg_run := fun _ _ => None;
     path_exists := fun _ => Ok true;
     mutagen_file := fun _ => MfNone; draw := 0 |}.

(** Three tracks, the second one playing, shuffle on. *)
Definition three_tracks : App :=
  {| playlist := [song_a; song_b; song_c]; current_index := Some 1;
     paused := false; shuffle := true; user_stopped := false;
     track_duration_s := Some (180 # 1); elapsed_base_ms := 0;
     _temp_files := []; calls := [] |}.

(** Five tracks, nothing started, shuffle off. *)
Definition five_tracks : App :=
  {| playlist := [song_a; song_b; song_c; talk; song_a]; current_index := None;
     paused := false; shuffle := false; user_stopped := false;
     track_duration_s := None; elapsed_base_ms := 0;
     _temp_files := []; calls := [] |}.

(** [world] with another random draw. *)
Definition world_draw (d : nat) : Env :=
  {| get_busy := false; get_pos := Some 0;
     music_load := fun _ => None; music_play := None; music_stop := None;
     music_set_volume := None; which_ffmpeg := Some "/usr/bin/ffmpeg";
     gettempdir := "/tmp"; mkdir := None; ffmpeg_run := fun _ _ => None;
     path_exists := fun _ => Ok true;
     mutagen_file := fun _ => MfLength (180 # 1); draw := d |}.

(** One track loaded, nothing started yet. *)
Definition idle_one : App :=
  {| playlist := [song_a]; current_index := None;
     paused := false; shuffle := false; user_stopped := false;
     track_duration_s := None; elapsed_base_ms := 0;
     _temp_files := []; calls := [] |}.

(** Three files added, the second one started. *)
Definition playing_second : App :=
  run_all sample_sha1
    [(world, AddFiles [song_a; song_b; song_c]); (world, StartPlay 1)]
    init.

(** Add a file, start it, pause it 500 ms in. *)
Definition paused_at_500 : App :=
  run_all sample_sha1
    [(world, AddFiles [song_a]); (world, PlayPause); (world_playing, PlayPause)]
    init.

(** What a callback keeps when it does not apply a start: the playlist,
    the shuffle flag and the transport fields; the log only grows. *)
Definition frame (a a' : App) : Prop :=
  playlist a' = playlist a
  ∧ shuffle a' = shuffle a
  ∧ same_transport a a'
  ∧ ∃ l, calls a' = calls a ++ l.

(** What an applied start leaves behind. *)
Definition started (index : Z) (a a' : App) : Prop :=
  playlist a' = playlist a
  ∧ shuffle a' = shuffle a
  ∧ current_index a' = Some index
  ∧ paused a' = false
  ∧ user_stopped a' = false
  ∧ elapsed_base_ms a' = 0
  ∧ ∃ l, calls a' = calls a ++ l.

(** What one run of [_start_play] on an index of the playlist does to the
    two invariants and to the clock. *)
Definition start_outcome (a a' : App) : Prop :=
  index_in_range a'
  ∧ (elapsed_base_ms a <= elapsed_base_ms a' ∨ ∃ idx, started idx a a').

(** ** More of the program: helpers around the engine *)

(** The same surroundings with another random draw. *)
Definition with_draw (d : nat) (env : Env) : Env :=
  {| get_busy := get_busy env; get_pos := get_pos env;
     music_load := music_load env; music_play := music_play env;
     music_stop := music_stop env; music_set_volume := music_set_volume env;
     which_ffmpeg := which_ffmpeg env; gettempdir := gettempdir env;
     mkdir := mkdir env; ffmpeg_run := ffmpeg_run env;
     path_exists := path_exists env; mutagen_file := mutagen_file env;
     draw := d |}.

(** The device decodes and plays whatever it is given. *)
Definition device_accepts (env : Env) : Prop :=
  (∀ f, music_load env f = None) ∧ music_play env = None.

(** The device decodes nothing. *)
Definition device_rejects (env : Env) : Prop :=
  ∀ f, music_load env f ≠ None.

Definition is_show_error (c : Call) : bool :=
  match c with
  | ShowError _ _ => true
  | _ => false
  end.

(** How many error dialogs a list of calls holds. *)
Definition error_dialogs (l : list Call) : nat :=
  length (filter (λ c, is_show_error c = true) l).

(** The calls that reach the audio device. *)
Definition is_device_call (c : Call) : bool :=
  match c with
  | MusicLoad _ | MusicPlay | MusicPause | MusicUnpause | MusicStop
  | MusicSetVolume _ => true
  | _ => false
  end.


(** The text of the dialog for an [.m4a] that cannot be played without
    FFmpeg. *)
Definition ffmpeg_hint (orig_path : Path) : string :=
  "Cannot play:" +:+ nl +:+ path_str orig_path +:+ nl +:+ nl
  +:+ "Unable to play this .m4a." +:+ nl +:+ nl
  +:+ "Install FFmpeg (in PATH) to enable the fallback, "
  +:+ "or convert the file to .mp3/.wav.".

(** ** The order of the natural sort *)

#[global] Instance KeyTok_eq_dec : EqDecision KeyTok.
Proof. solve_decision. Defined.

Definition is_str (t : KeyTok) : bool :=
  match t with
  | KStr _ => true
  | KInt _ => false
  end.

(** The pieces of a key take turns: text, number, text, ... *)
Fixpoint alternating (want_str : bool) (k : list KeyTok) : bool :=
  match k with
  | [] => true
  | t :: k' => Bool.eqb (is_str t) want_str && alternating (negb want_str) k'
  end.

(** Python's [k1 < k2] on two key lists, with the TypeError of comparing
    an int with a str kept as [None]. *)
Fixpoint key_lt_checked (k1 k2 : list KeyTok) : option bool :=
  match k1, k2 with
  | [], [] => Some false
  | [], _ :: _ => Some true
  | _ :: _, [] => Some false
  | t1 :: k1', t2 :: k2' =>
      if tok_eqb t1 t2 then key_lt_checked k1' k2'
      else
        match t1, t2 with
        | KInt a, KInt b => Some (N.ltb a b)
        | KStr a, KStr b => Some (String.ltb a b)
        | _, _ => None
        end
  end.

#[global] Instance Res_eq_dec {A} `{EqDecision A} : EqDecision (Res A).
Proof. solve_decision. Defined.

(** [_natural_key(p)] returns. *)
Definition has_key (p : Path) : Prop := ∃ k, _natural_key p = Ok k.

(** Both paths have a key, and [p] does not come after [q] in natural
    order. *)
Definition key_le (p q : Path) : Prop :=
  ∃ kp kq, _natural_key p = Ok kp ∧ _natural_key q = Ok kq
           ∧ key_lt kq kp = false.

(** The same on elements that carry their key. *)
Definition keyed_le (x y : list KeyTok * Path) : Prop :=
  key_lt (fst y) (fst x) = false.

(** What the scan of [re.split] hands out: text pieces hold no decimal
    digit, digit pieces hold decimal digits only and at least one, and the
    two take turns. *)
Fixpoint pieces_alternate (want_text : bool) (l : list string) : bool :=
  match l with
  | [] => true
  | t :: l' =>
      (if want_text then all_chars (λ c, negb (is_decimal c)) t
       else negb (String.eqb t "") && all_chars is_decimal t)
      && pieces_alternate (negb want_text) l'
  end.

(** The superscript digits, which [isdigit] accepts and [int] does not. *)
Definition is_superscript (c : ascii) : bool :=
  char_isdigit c && negb (is_decimal c).

(** A playlist that is in natural order if every track in it has a
    key. *)
Definition ordered_if_keyed (l : list Path) : Prop :=
  Forall has_key l → StronglySorted key_le l.

(** In a load, [exists()] answers for every path given, whatever the
    answer. *)
Definition load_answers (step : Env * Op) : Prop :=
  match step with
  | (env, LoadPlaylist paths) =>
      ∀ pp, pp ∈ paths → ∃ b, path_exists env (path_str pp) = Ok b
  | _ => True
  end.

(** What [_halt_playback] and the reset of the current index leave of a
    state. *)
Definition after_halt (a : App) : App :=
  set_current_index None
    (set_elapsed_base_ms 0 (set_paused false
       (emit MusicStop (set_user_stopped true a)))).

(** What [_load_playlist_paths] keeps of the paths it is given. *)
Definition kept (env : Env) (paths : list Path) : list Path :=
  filter (λ pp, path_exists env (path_str pp) = Ok true ∧ supported pp = true) paths.

(** Four files picked in some order, then the playlist cleared, two paths
    loaded and a folder added. *)
Definition edits : list (Env * Op) :=
  [(world, AddFiles [song_c; talk; song_a; song_b]);
   (world, ClearPlaylist);
   (world, LoadPlaylist [song_c; song_a]);
   (world, AddFolder (Some [song_b; song_c; song_a]))].

Definition after_edits : App := run_all sample_sha1 edits init.

(** ** Stored playlists

    [self.playlists] maps a name to the paths of a saved playlist.  The
    file holds the paths as strings and [_load_playlist_paths] turns them
    back into paths; they are kept here as the paths they stand for. *)

(** [f"{base} ({c})"]. *)
Definition numbered_name (base : string) (c : nat) : string :=
  base +:+ " (" +:+ dec c +:+ ")".

(** The [while] loop of [_unique_playlist_name]; [None] when the fuel
    runs out before a free name is met. *)
Fixpoint unique_name_loop (fuel : nat) (playlists : gmap string (list Path))
    (base name : string) (c : nat) : option string :=
  match fuel with
  | O => None
  | S fuel' =>
      if bool_decide (is_Some (playlists !! name))
      then unique_name_loop fuel' playlists base (numbered_name base c) (S c)
      else Some name
  end.

(** One more round than there are stored names is enough
    (one of so many distinct names must be free). *)
Definition _unique_playlist_name (playlists : gmap string (list Path))
    (base : string) : option string :=
  unique_name_loop (S (size playlists)) playlists base base 2.

(** [files_in] of [add_folder]: the files the loop appends, in order. *)
Fixpoint unseen_files (paths : list Path) (seen : gset string) : list Path :=
  match paths with
  | [] => []
  | pp :: rest =>
      if supported pp && bool_decide (path_str pp ∉ seen)
      then pp :: unseen_files rest ({[path_str pp]} ∪ seen)
      else unseen_files rest seen
  end.

(** [Path(folder).name or "Playlist"]. *)
Definition folder_base_name (name : string) : string :=
  if String.eqb name "" then "Playlist" else name.

(** [add_folder] with the stored playlists.  The walk, the appends and the
    sort come first; when the sort raises, the exception leaves the
    callback and the store is not reached.  Otherwise the new files, when
    there are any, are saved under a name not in use, derived from the
    folder's name.  The result is the outcome and the engine state of
    [add_folder], the store afterwards and the name the selector was set
    to; [None] when the name loop ran out of fuel. *)
Definition add_folder_store (folder_name : string) (files : list Path) (a : App)
    (playlists : gmap string (list Path))
    : option (Res unit * App * gmap string (list Path) * option string) :=
  let files_in := unseen_files files (list_to_set (path_str <$> playlist a)) in
  match add_folder (Some files) a with
  | (Raise msg, a') => Some (Raise msg, a', playlists, None)
  | (Ok _, a') =>
      match files_in with
      | [] => Some (Ok tt, a', playlists, None)
      | _ =>
          match _unique_playlist_name playlists (folder_base_name folder_name) with
          | Some playlist_name =>
              Some (Ok tt, a', <[playlist_name := files_in]> playlists,
                    Some playlist_name)
          | None => None
          end
      end
  end.

(** The Load button: nothing for an empty selection or the placeholder,
    and otherwise the stored paths, or none when the name is not stored. *)
Definition _on_load_selected_playlist (env : Env)
    (playlists : gmap string (list Path)) (name : string) : M unit :=
  if String.eqb name "" || String.eqb name "Choose a playlist" then ret tt
  else _load_playlist_paths env (default [] (playlists !! name)).

(** ** Text shown in the window *)

(** [s[:k]]: a negative [k] counts from the end. *)
Definition py_slice_to (s : string) (k : Z) : string :=
  if bool_decide (0 <= k) then substring 0 (Z.to_nat k) s
  else substring 0 (Z.to_nat (Z.of_nat (String.length s) + k)) s.

Definition truncate (text : string) (n : Z) : string :=
  if bool_decide (Z.of_nat (String.length text) <= n) then text
  else py_slice_to text (n - 3) +:+ "...".

Definition display_name (p : Path) (limit : Z) : string :=
  truncate (stem p) limit.

(** [f"{n:02d}"] for a number that is not negative. *)
Definition pad2 (n : nat) : string :=
  if bool_decide (n < 10)%nat then "0" +:+ dec n else dec n.

(** [fmt_time]: [sec] is a float or [None]; a finite float is a rational
    number, and [int(sec)] cuts a positive one down to a whole number. *)
Definition fmt_time (sec : option Q) : string :=
  match sec with
  | None => "00:00"
  | Some q =>
      if Qeq_bool q 0 || negb (Qle_bool 0 q) then "00:00"
      else
        let whole := Z.to_nat (Qfloor q) in
        pad2 (whole / 60) +:+ ":" +:+ pad2 (whole mod 60)
  end.

(** The whole seconds a label stands for. *)
Definition whole_seconds (sec : option Q) : nat :=
  match sec with
  | None => 0
  | Some q => Z.to_nat (Qfloor q)
  end.

(** Two tracks, the second one current. *)
Definition two_tracks : App :=
  set_current_index (Some 1) (set_playlist [song_a; song_b] init).

(** Five tracks with shuffle off, the third one current. *)
Definition five_playing : App := set_current_index (Some 2) five_tracks.

(** A single track, current. *)
Definition one_playing : App := set_current_index (Some 0) idle_one.

(** The same with shuffle on. *)
Definition one_shuffled : App := set_shuffle true one_playing.

(** Names with characters beyond ASCII: a superscript two, and the same
    word with a capital and with a small e acute. *)
Definition superscript_two : string := String (ascii_of_nat 178) "".
Definition song_squared : Path := mkPath "/music" ("1" +:+ superscript_two) ".mp3".
Definition ete_capital : Path :=
  mkPath "/music" (String (ascii_of_nat 201) ("t" +:+ String (ascii_of_nat 233) "")) ".mp3".
Definition ete_small : Path :=
  mkPath "/music" (String (ascii_of_nat 233) ("t" +:+ String (ascii_of_nat 233) "")) ".mp3".

(** A disk on which looking at [song_c] fails. *)
Definition world_bad_disk : Env :=
  {| get_busy := false; get_pos := Some 0;
     music_load := fun _ => None; music_play := None; music_stop := None;
     music_set_volume := None; which_ffmpeg := Some "/usr/bin/ffmpeg";
     gettempdir := "/tmp"; mkdir := None; ffmpeg_run := fun _ _ => None;
     path_exists := fun f =>
       if String.eqb f (path_str song_c) then Raise "[Errno 36] File name too long"
       else Ok true;
     mutagen_file := fun _ => MfLength (180 # 1); draw := 0 |}.

(** Two stored playlists whose names follow each other. *)
Definition sample_store : gmap string (list Path) :=
  <["Rock" := [song_a]]> (<["Rock (2)" := [song_b]]> ∅).

(** * Properties *)

Section Properties.

Variable sha1 : string -> string.

Ltac engine_unfold :=
  unfold _start_play, start_attempt, _ensure_playable_path, _transcode_to_wav,
    _halt_playback, try_except, bind, ret, get, modify, command, attempt,
    answer, raise in *.

Ltac extends :=
  cbn; rewrite <- ?app_assoc;
  first [by eexists | by (exists []; rewrite app_nil_r)].

Lemma py_range_lookup (n : Z) (i : Z) :
  i ∈ py_range n ↔ 0 <= i < n.
Proof.
  unfold py_range. rewrite list_elem_of_fmap. split.
  - intros (k & -> & Hk). apply elem_of_seq in Hk. lia.
  - intros Hi. exists (Z.to_nat i). split; [lia|].
    apply elem_of_seq. lia.
Qed.

Lemma choice_elem {A} (d : nat) (l : list A) :
  l ≠ [] → ∃ x, choice d l = Some x ∧ x ∈ l.
Proof.
  intros Hl. unfold choice.
  assert (Hlen : (0 < length l)%nat) by (destruct l; [done | simpl; lia]).
  destruct (lookup_lt_is_Some_2 l (d mod length l)%nat) as [x Hx].
  - apply Nat.mod_upper_bound. lia.
  - exists x. split; [done|]. by eapply list_elem_of_lookup_2.
Qed.

Lemma forbidden_size (c n : Z) :
  2 <= n → 0 <= c < n → size ({[c; (c + 1) mod n]} : gset Z) = 2%nat.
Proof.
  intros Hn Hc.
  assert (Hne : c ≠ (c + 1) mod n).
  { destruct (decide (c + 1 = n)) as [Heq | Hlt].
    - rewrite Heq, Z.mod_same by lia. lia.
    - rewrite Z.mod_small by lia. lia. }
  rewrite size_union by set_solver.
  by rewrite !size_singleton.
Qed.

(** C1. With at least three tracks and an active current index [c] of the
    playlist, the shuffle picker returns an index of the playlist that is
    neither [c] nor its sequential successor [(c+1) mod n], whatever the
    random draw. *)
Theorem pick_shuffle_avoids_current_and_next (env : Env) (a : App) (c : Z) :
  3 <= len (playlist a) →
  current_index a = Some c →
  0 <= c < len (playlist a) →
  ∃ i, _pick_shuffle_index env a = Some i
       ∧ 0 <= i < len (playlist a)
       ∧ i ≠ c
       ∧ i ≠ (c + 1) mod len (playlist a).
Proof.
  intros Hn Hcur Hc. unfold _pick_shuffle_index. rewrite Hcur.
  set (n := len (playlist a)) in *.
  rewrite bool_decide_eq_false_2 by lia.
  rewrite forbidden_size by lia.
  rewrite bool_decide_eq_false_2 by lia.
  set (choices := filter _ _).
  assert (Hwit : (c + 2) mod n ∈ choices).
  { apply list_elem_of_filter. split.
    - assert ((c + 2) mod n ≠ c ∧ (c + 2) mod n ≠ (c + 1) mod n) as [??];
        [|set_solver].
      destruct (decide (c + 2 < n)).
      + rewrite !Z.mod_small by lia. lia.
      + destruct (decide (c + 1 < n)).
        * replace (c + 2) with (0 + 1 * n) by lia.
          rewrite Z.mod_add, Z.mod_0_l, (Z.mod_small (c + 1)) by lia. lia.
        * replace (c + 2) with (1 + 1 * n) by lia.
          replace (c + 1) with (0 + 1 * n) by lia.
          rewrite !Z.mod_add, Z.mod_0_l, Z.mod_small by lia. lia.
    - apply py_range_lookup. apply Z.mod_pos_bound. lia. }
  assert (Hne : choices ≠ []) by (intros E; rewrite E in Hwit; by apply not_elem_of_nil in Hwit).
  destruct (choice_elem (draw env) choices Hne) as (i & Hi & Hin).
  exists i. split; [by destruct choices|].
  apply list_elem_of_filter in Hin as [Hnot Hrange].
  apply py_range_lookup in Hrange. split; [done|]. set_solver.
Qed.

Lemma frame_refl (a : App) : frame a a.
Proof. repeat split. exists []. by rewrite app_nil_r. Qed.

Lemma frame_trans (a b c : App) : frame a b → frame b c → frame a c.
Proof.
  intros (? & ? & (? & ? & ? & ? & ?) & l1 & ?) (? & ? & (? & ? & ? & ? & ?) & l2 & ?).
  repeat split; try congruence.
  exists (l1 ++ l2). rewrite app_assoc. congruence.
Qed.

Lemma ensure_playable_frame (env : Env) (path : Path) (a : App) :
  frame a (snd (_ensure_playable_path sha1 env path a)).
Proof.
  engine_unfold. cbn.
  repeat (case_match; cbn in *; simplify_eq); repeat split; try done; extends.
Qed.

Lemma start_attempt_raise (env : Env) (index : Z) (p : Path) (a : App) (msg : string) :
  fst (start_attempt sha1 env index p a) = Raise msg →
  frame a (snd (start_attempt sha1 env index p a)).
Proof.
  unfold start_attempt, bind. cbn beta.
  pose proof (ensure_playable_frame env p a) as Hf.
  destruct (_ensure_playable_path sha1 env p a) as [[q|e] a1]; cbn in *;
    [|by intros _].
  intros Hr. eapply frame_trans; [exact Hf|].
  revert Hr. engine_unfold. cbn.
  repeat (case_match; cbn in *; simplify_eq); intros; simplify_eq;
    repeat split; try done; extends.
Qed.

Lemma start_attempt_ok (env : Env) (index : Z) (p : Path) (a : App) :
  fst (start_attempt sha1 env index p a) = Ok tt →
  started index a (snd (start_attempt sha1 env index p a))
  ∧ track_duration_s (snd (start_attempt sha1 env index p a))
    = _read_duration_seconds env p.
Proof.
  unfold start_attempt, bind. cbn beta.
  pose proof (ensure_playable_frame env p a) as (Hp & Hs & _ & l & Hl).
  destruct (_ensure_playable_path sha1 env p a) as [[q|e] a1]; cbn in *;
    [|done].
  engine_unfold. cbn.
  repeat (case_match; cbn in *; simplify_eq); intros; simplify_eq.
  repeat split; try done. cbn. rewrite Hl. extends.
Qed.

(** Every run of [_start_play] either applies the start or keeps the
    transport fields. *)
Lemma start_play_cases (env : Env) (index : Z) (a : App) :
  frame a (snd (_start_play sha1 env index a))
  ∨ (is_Some (py_getitem (playlist a) index)
     ∧ started index a (snd (_start_play sha1 env index a))).
Proof.
  unfold _start_play, bind, get. cbn.
  destruct (playlist a) as [|p0 pl] eqn:Hpl; [left; apply frame_refl|].
  destruct (py_getitem (p0 :: pl) index) as [orig|] eqn:Hget;
    [|left; apply frame_refl].
  unfold try_except.
  pose proof (start_attempt_raise env index orig a) as Hraise.
  pose proof (start_attempt_ok env index orig a) as Hok.
  destruct (start_attempt sha1 env index orig a) as [[[]|e] a1]; cbn in *.
  - right. split; [done|]. by apply Hok.
  - left. eapply frame_trans; [by eapply Hraise|].
    unfold command. cbn. repeat split. extends.
Qed.

Lemma py_getitem_valid {A} (l : list A) (i : Z) :
  0 <= i < len l → is_Some (py_getitem l i).
Proof.
  intros Hi. unfold py_getitem. rewrite bool_decide_eq_true_2 by done.
  apply lookup_lt_is_Some_2. unfold len in Hi. lia.
Qed.

Lemma start_play_run (env : Env) (index : Z) (a : App) (orig_path : Path) :
  playlist a ≠ [] →
  py_getitem (playlist a) index = Some orig_path →
  _start_play sha1 env index a
  = try_except (start_attempt sha1 env index orig_path)
      (fun e =>
         command (ShowError "Error"
                    ("Cannot play:" +:+ nl +:+ path_str orig_path
                     +:+ nl +:+ nl +:+ error_message env orig_path e))
                 None) a.
Proof.
  intros Hne Hget. unfold _start_play, bind, get. cbn.
  destruct (playlist a); [done|]. by rewrite Hget.
Qed.

(** A device that rejects the file makes the attempt fail, whatever the
    fallback did before. *)
Lemma start_attempt_load_rejected (env : Env) (index : Z) (p : Path) (a : App) :
  (∀ f, music_load env f ≠ None) →
  ∃ msg, fst (start_attempt sha1 env index p a) = Raise msg.
Proof.
  intros Hload. unfold start_attempt, bind. cbn beta.
  destruct (_ensure_playable_path sha1 env p a) as [[q|e] a1]; cbn; [|by eexists].
  unfold command. specialize (Hload (path_str q)).
  destruct (music_load env (path_str q)); [by eexists|done].
Qed.

(** So does a device that loads the file and then refuses to play. *)
Lemma start_attempt_play_rejected (env : Env) (index : Z) (p : Path) (a : App)
    (msg : string) :
  music_play env = Some msg →
  ∃ msg', fst (start_attempt sha1 env index p a) = Raise msg'.
Proof.
  intros Hplay. unfold start_attempt, bind. cbn beta.
  destruct (_ensure_playable_path sha1 env p a) as [[q|e] a1]; cbn; [|by eexists].
  unfold command. rewrite Hplay.
  destruct (music_load env (path_str q)); by eexists.
Qed.

(** C5. When the load/play attempt of [_start_play] fails on a valid index,
    the callback returns normally, the five transport fields and the
    playlist keep their values from before the attempt, and the last thing
    done is the error dialog for that file.  The current index is left
    where it was: it points at the track that failed afterwards exactly
    when it did before the attempt. *)
Theorem start_play_failure_keeps_state
    (env : Env) (a : App) (index : Z) (orig_path : Path) (msg : string) :
  0 <= index < len (playlist a) →
  py_getitem (playlist a) index = Some orig_path →
  fst (start_attempt sha1 env index orig_path a) = Raise msg →
  fst (_start_play sha1 env index a) = Ok tt
  ∧ same_transport a (snd (_start_play sha1 env index a))
  ∧ playlist (snd (_start_play sha1 env index a)) = playlist a
  ∧ last (calls (snd (_start_play sha1 env index a)))
    = Some (ShowError "Error"
              ("Cannot play:" +:+ nl +:+ path_str orig_path
               +:+ nl +:+ nl +:+ error_message env orig_path msg))
  ∧ (current_index (snd (_start_play sha1 env index a)) = Some index
     ↔ current_index a = Some index).
Proof.
  intros Hi Hget Hfail.
  assert (Hne : playlist a ≠ []).
  { intros E. rewrite E in Hi. unfold len in Hi. simpl in Hi. lia. }
  rewrite (start_play_run env index a orig_path Hne Hget).
  pose proof (start_attempt_raise env index orig_path a msg Hfail)
    as (Hpl & _ & Htr & _).
  unfold try_except.
  destruct (start_attempt sha1 env index orig_path a) as [[[]|e] a1];
    cbn in *; simplify_eq.
  split_and!; try done.
  - by rewrite last_snoc.
  - destruct Htr as (-> & _). done.
Qed.

(** C8. With no active track and a non-empty playlist, [play_pause] is
    [_start_play(0)]: same result, same state, same calls. *)
Theorem play_pause_idle_is_start_0 (env : Env) (a : App) :
  current_index a = None →
  playlist a ≠ [] →
  play_pause sha1 env a = _start_play sha1 env 0 a.
Proof.
  intros Hcur Hne. unfold play_pause, bind, get. cbn -[_start_play].
  rewrite Hcur. by destruct (playlist a).
Qed.

(** The first thing a load/play attempt asks of the device is to load the
    track itself: as the load proper, or as the native attempt on an
    [.m4a]. *)
Lemma start_attempt_first_call (env : Env) (index : Z) (p : Path) (a : App) :
  ∃ l, calls (snd (start_attempt sha1 env index p a))
       = calls a ++ MusicLoad (path_str p) :: l.
Proof.
  engine_unfold. cbn.
  repeat (case_match; cbn in *; simplify_eq); cbn;
    rewrite <- ?app_assoc; cbn; by eexists.
Qed.

(** On a device that loads the track and plays, the attempt succeeds with
    no other call than the load (twice for an [.m4a]) and the play. *)
Lemma start_attempt_loaded (env : Env) (index : Z) (p : Path) (a : App) :
  music_load env (path_str p) = None →
  music_play env = None →
  fst (start_attempt sha1 env index p a) = Ok tt
  ∧ calls (snd (start_attempt sha1 env index p a))
    = calls a ++ (if String.eqb (lower (suffix p)) ".m4a"
                  then [MusicLoad (path_str p)] else [])
              ++ [MusicLoad (path_str p); MusicPlay].
Proof.
  intros Hload Hplay. engine_unfold. cbn.
  destruct (String.eqb (lower (suffix p)) ".m4a"); cbn;
    rewrite ?Hload, ?Hplay; cbn; rewrite ?Hload, ?Hplay; cbn;
    by rewrite <- ?app_assoc.
Qed.

(** An attempt that succeeds ends with the load of the track, or of its
    converted copy, followed by the play. *)
Lemma start_attempt_ok_calls (env : Env) (index : Z) (p : Path) (a : App) :
  fst (start_attempt sha1 env index p a) = Ok tt →
  ∃ q l, calls (snd (start_attempt sha1 env index p a))
         = calls a ++ l ++ [MusicLoad (path_str q); MusicPlay]
         ∧ (q = p ∨ q = cache_path sha1 env p).
Proof.
  engine_unfold. cbn.
  repeat (case_match; cbn in *; simplify_eq); intros; simplify_eq; cbn;
    rewrite <- ?app_assoc; cbn;
    first [ by (exists p, []; split; [|left])
          | by (exists p; eexists [_]; split; [|left])
          | by (exists p; eexists [_; _]; split; [|left])
          | by (eexists; eexists [_; _]; split; [|right]) ].
Qed.

(** C10. With a non-empty playlist, shuffle off and no active track,
    [next_track] is [_start_play(0)]: the first thing it asks of the device
    is to load the first track.  On a device that loads that track and
    plays, the calls are the load (twice for an [.m4a], whose native load
    is tried first) and the play, and index 0 is current, not paused, with
    the clock at 0.  Whenever the attempt succeeds, the last two calls are
    the load of the first track, or of its converted copy, and the play. *)
Theorem next_track_idle_sequential_starts_0 (env : Env) (a : App) :
  playlist a ≠ [] →
  shuffle a = false →
  current_index a = None →
  next_track sha1 env a = _start_play sha1 env 0 (emit NextTrack a)
  ∧ ∀ p, head (playlist a) = Some p →
      (∃ l, calls (snd (next_track sha1 env a))
            = calls a ++ NextTrack :: MusicLoad (path_str p) :: l)
      ∧ (music_load env (path_str p) = None → music_play env = None →
         fst (next_track sha1 env a) = Ok tt
         ∧ started 0 a (snd (next_track sha1 env a))
         ∧ calls (snd (next_track sha1 env a))
           = calls a ++ NextTrack
               :: (if String.eqb (lower (suffix p)) ".m4a"
                   then [MusicLoad (path_str p)] else [])
               ++ [MusicLoad (path_str p); MusicPlay])
      ∧ (fst (start_attempt sha1 env 0 p (emit NextTrack a)) = Ok tt →
         fst (next_track sha1 env a) = Ok tt
         ∧ started 0 a (snd (next_track sha1 env a))
         ∧ ∃ q l, calls (snd (next_track sha1 env a))
                  = calls a ++ NextTrack :: l ++ [MusicLoad (path_str q); MusicPlay]
                  ∧ (q = p ∨ q = cache_path sha1 env p)).
Proof.
  intros Hne Hsh Hcur.
  assert (Heq : next_track sha1 env a = _start_play sha1 env 0 (emit NextTrack a)).
  { unfold next_track, bind, get, modify. cbn -[_start_play].
    rewrite Hsh, Hcur. by destruct (playlist a). }
  split; [done|]. intros p Hp. rewrite Heq.
  destruct (playlist a) as [|p0 pl] eqn:Hpl; [done|]. simplify_eq/=.
  rewrite (start_play_run env 0 (emit NextTrack a) p); cbn; [|by rewrite Hpl..].
  set (a0 := emit NextTrack a).
  assert (Hc0 : calls a0 = calls a ++ [NextTrack]) by done.
  pose proof (start_attempt_first_call env 0 p a0) as [l1 Hl1].
  pose proof (start_attempt_loaded env 0 p a0) as Hloaded.
  pose proof (start_attempt_ok_calls env 0 p a0) as Hokc.
  pose proof (start_attempt_ok env 0 p a0) as Hst.
  unfold try_except.
  destruct (start_attempt sha1 env 0 p a0) as [[[]|e] a1]; cbn [fst snd] in *.
  - destruct (Hst eq_refl) as [(? & ? & ? & ? & ? & ? & l & Hl) _].
    assert (Hstarted : started 0 a a1).
    { repeat split; try done. exists (NextTrack :: l).
      by rewrite Hl, Hc0, <- app_assoc. }
    split_and!.
    + exists l1. by rewrite Hl1, Hc0, <- app_assoc.
    + intros Hload Hplay. destruct (Hloaded Hload Hplay) as [_ Hcalls].
      split_and!; [done..|]. by rewrite Hcalls, Hc0, <- app_assoc.
    + intros _. split_and!; [done..|].
      destruct (Hokc eq_refl) as (q & l2 & Hl2 & Hq).
      exists q, l2. split; [|done]. by rewrite Hl2, Hc0, <- app_assoc.
  - split_and!.
    + eexists (l1 ++ [_]). unfold command. cbn [fst snd emit calls].
      by rewrite Hl1, Hc0, <- !app_assoc.
    + intros Hload Hplay. by destruct (Hloaded Hload Hplay).
    + done.
Qed.

Lemma new_calls_app (a a' : App) (l : list Call) :
  calls a' = calls a ++ l → new_calls a a' = l.
Proof. intros H. unfold new_calls. by rewrite H, drop_app_length. Qed.

Lemma new_calls_same (a : App) : new_calls a a = [].
Proof. apply new_calls_app. by rewrite app_nil_r. Qed.



Lemma halt_playback_run (env : Env) (a : App) :
  _halt_playback env a
  = (Ok tt, set_elapsed_base_ms 0 (set_paused false
              (emit MusicStop (set_user_stopped true a)))).
Proof. engine_unfold. cbn. by destruct (music_stop env). Qed.



Lemma set_playlist_same (a : App) : set_playlist (playlist a) a = a.
Proof. by destruct a. Qed.

(** The keys a sort computes are the keys of the elements, in order. *)
Lemma map_res_with_key (l : list Path) (keyed : list (list KeyTok * Path)) :
  map_res with_key l = Ok keyed →
  snd <$> keyed = l ∧ Forall (λ x, _natural_key (snd x) = Ok (fst x)) keyed.
Proof.
  revert keyed. induction l as [|p l IH]; intros keyed; cbn.
  - intros [= <-]. split; [done|constructor].
  - unfold with_key at 1. destruct (_natural_key p) as [k|e] eqn:Hk; [|done].
    destruct (map_res with_key l) as [kl|e]; [|done]. intros [= <-].
    destruct (IH kl eq_refl) as [Hs Hall]. cbn. rewrite Hs.
    split; [done|]. by constructor.
Qed.

Lemma insert_by_key_perm (x : list KeyTok * Path) (l : list (list KeyTok * Path)) :
  insert_by_key x l ≡ₚ x :: l.
Proof.
  induction l as [|y l IH]; cbn; [done|].
  case_match; [|done]. rewrite IH. apply Permutation_swap.
Qed.

Lemma sort_keyed_perm (l : list (list KeyTok * Path)) :
  foldr insert_by_key [] l ≡ₚ l.
Proof.
  induction l as [|x l IH]; cbn; [done|].
  rewrite insert_by_key_perm. by f_equiv.
Qed.

Lemma sort_natural_perm (l l' : list Path) : sort_natural l = Ok l' → l' ≡ₚ l.
Proof.
  unfold sort_natural.
  destruct (map_res with_key l) as [keyed|e] eqn:Hk; [|done]. intros [= <-].
  destruct (map_res_with_key l keyed Hk) as [<- _].
  apply fmap_Permutation, sort_keyed_perm.
Qed.

(** The sort puts the playlist in another order, or raises and leaves the
    state as it was. *)
Lemma sort_playlist_cases (a : App) :
  (∃ l, sort_natural (playlist a) = Ok l
        ∧ sort_playlist a = (Ok tt, set_playlist l a))
  ∨ (∃ e, sort_natural (playlist a) = Raise e ∧ sort_playlist a = (Raise e, a)).
Proof.
  unfold sort_playlist. destruct (sort_natural (playlist a)) as [l|e].
  - left. by exists l.
  - right. by exists e.
Qed.

Lemma sort_playlist_snd (a : App) :
  ∃ l, snd (sort_playlist a) = set_playlist l a ∧ l ≡ₚ playlist a.
Proof.
  destruct (sort_playlist_cases a) as [(l & Hl & ->) | (e & _ & ->)].
  - exists l. split; [done|]. by apply sort_natural_perm.
  - exists (playlist a). by rewrite set_playlist_same.
Qed.

(** The loop of [_load_playlist_paths] only appends to the playlist. *)
Lemma load_paths_loop_snd (env : Env) (paths : list Path) (a : App) :
  ∃ l, snd (load_paths_loop env paths a) = set_playlist (playlist a ++ l) a.
Proof.
  revert a. induction paths as [|pp rest IH]; intros a; cbn.
  - exists []. by rewrite app_nil_r, set_playlist_same.
  - unfold bind, answer, modify, ret.
    destruct (path_exists env (path_str pp)) as [[]|e]; cbn.
    + destruct (supported pp); cbn.
      * destruct (IH (set_playlist (playlist a ++ [pp]) a)) as [l Hl].
        exists (pp :: l).
        destruct (load_paths_loop env rest _) as [[[]|e] a1]; cbn in *;
          by rewrite Hl, <- app_assoc.
      * destruct (IH a) as [l Hl]. exists l.
        by destruct (load_paths_loop env rest a) as [[[]|e] a1].
    + destruct (IH a) as [l Hl]. exists l.
      by destruct (load_paths_loop env rest a) as [[[]|e] a1].
    + exists []. by rewrite app_nil_r, set_playlist_same.
Qed.

(** Apart from the playlist, [_load_playlist_paths] leaves what
    [_halt_playback] and the reset of the current index left, whether it
    returns or raises. *)
Lemma load_playlist_snd (env : Env) (paths : list Path) (a : App) :
  ∃ l, snd (_load_playlist_paths env paths a)
       = set_playlist l
           (set_current_index None
              (set_elapsed_base_ms 0 (set_paused false
                 (emit MusicStop (set_user_stopped true a))))).
Proof.
  unfold _load_playlist_paths, bind, modify. rewrite halt_playback_run.
  cbn -[load_paths_loop sort_playlist].
  match goal with |- context [load_paths_loop env paths ?b] => set (a0 := b) end.
  destruct (load_paths_loop_snd env paths a0) as [l Hl].
  destruct (load_paths_loop env paths a0) as [[[]|e] a1]; cbn in Hl; subst a1.
  - destruct (sort_playlist_snd (set_playlist l a0)) as (l' & -> & _).
    by exists l'.
  - by exists l.
Qed.

(** Adding files or a folder: the appends, then the sort. *)
Lemma add_unseen_snd (paths : list Path) (a : App) :
  ∃ l, snd ((modify (fun a =>
               let seen : gset string := list_to_set (path_str <$> playlist a) in
               set_playlist (append_unseen paths seen (playlist a)) a) ;;;
             sort_playlist) a)
       = set_playlist l a
       ∧ l ≡ₚ append_unseen paths (list_to_set (path_str <$> playlist a))
                (playlist a).
Proof.
  unfold bind, modify. cbn -[sort_playlist].
  match goal with |- context [sort_playlist ?b] => set (a0 := b) end.
  destruct (sort_playlist_snd a0) as (l & -> & Hl). by exists l.
Qed.

(** C4. [_halt_playback] sets [user_stopped], tells the device to stop,
    clears the pause flag and resets the elapsed clock, and it leaves
    [current_index] and the playlist as they were; its two callers,
    [clear_playlist] and [_load_playlist_paths], reset [current_index] right
    after it and so establish all four postconditions. *)
Theorem halt_playback_postconditions (env : Env) (a : App) :
  fst (_halt_playback env a) = Ok tt
  ∧ user_stopped (snd (_halt_playback env a)) = true
  ∧ calls (snd (_halt_playback env a)) = calls a ++ [MusicStop]
  ∧ paused (snd (_halt_playback env a)) = false
  ∧ elapsed_base_ms (snd (_halt_playback env a)) = 0
  ∧ current_index (snd (_halt_playback env a)) = current_index a
  ∧ playlist (snd (_halt_playback env a)) = playlist a
  ∧ halt_postconditions a (snd (clear_playlist env a))
  ∧ ∀ paths, halt_postconditions a (snd (_load_playlist_paths env paths a)).
Proof.
  assert (Hload : ∀ paths, halt_postconditions a
                             (snd (_load_playlist_paths env paths a))).
  { intros paths. destruct (load_playlist_snd env paths a) as [l ->].
    repeat split; cbn; try done.
    erewrite new_calls_app by done. set_solver. }
  unfold clear_playlist, bind.
  rewrite halt_playback_run. cbn.
  split_and!; try done.
  repeat split; cbn; try done.
  erewrite new_calls_app by done. set_solver.
Qed.

Lemma clamp_level_in_range (val : Q) :
  (0 <= val)%Q → (val <= 100 # 1)%Q → (clamp_level val == val)%Q.
Proof.
  intros H0 H100. unfold clamp_level.
  destruct (Qle_bool val (0 # 1)) eqn:E0.
  - apply Qle_bool_iff in E0. lra.
  - destruct (Qle_bool (100 # 1) val) eqn:E100; [|reflexivity].
    apply Qle_bool_iff in E100. lra.
Qed.

(** C9. [_on_volume] hands [val / 100] to the device as it is: the engine
    does not clamp.  For the levels the slider produces, between 0 and 100,
    this is the clamped level over 100 and lies in [0, 1].  The callback
    returns normally even when the device raises, makes no other call and
    changes no engine field. *)
Theorem on_volume_forwards_level (env : Env) (val : Q) (a : App) :
  fst (_on_volume env val a) = Ok tt
  ∧ calls (snd (_on_volume env val a))
    = calls a ++ [MusicSetVolume (val / (100 # 1))%Q]
  ∧ playlist (snd (_on_volume env val a)) = playlist a
  ∧ shuffle (snd (_on_volume env val a)) = shuffle a
  ∧ same_transport a (snd (_on_volume env val a))
  ∧ ((0 <= val)%Q → (val <= 100 # 1)%Q →
     (val / (100 # 1) == clamp_level val / (100 # 1))%Q
     ∧ (0 <= val / (100 # 1))%Q ∧ (val / (100 # 1) <= 1)%Q).
Proof.
  unfold _on_volume, try_except, command, ret.
  destruct (music_set_volume env); cbn; (split_and!; try done).
  all: intros H0 H100; rewrite (clamp_level_in_range val H0 H100);
    unfold Qdiv; change (/ (100 # 1))%Q with (1 # 100)%Q;
    split_and!; [reflexivity | |]; lra.
Qed.

(** What one call of [_ensure_playable_path] does once the native load of
    an [.m4a] has failed: the result does not depend on the engine state,
    and the transcoder is started whenever FFmpeg is found and the cache
    directory can be made. *)
Lemma ensure_after_native_failure (env : Env) (path : Path) (msg : string) :
  lower (suffix path) = ".m4a"%string →
  music_load env (path_str path) = Some msg →
  ∃ r, (r = Ok path ∨ r = Ok (cache_path sha1 env path) ∨ ∃ e, r = Raise e)
       ∧ ∀ a, fst (_ensure_playable_path sha1 env path a) = r
              ∧ calls (snd (_ensure_playable_path sha1 env path a))
                = calls a ++ MusicLoad (path_str path)
                    :: (if found (_ffmpeg_path env) && bool_decide (mkdir env = None)
                        then [FfmpegRun (path_str path)
                                (path_str (cache_path sha1 env path))]
                        else []).
Proof.
  intros Hm4a Hload. engine_unfold. rewrite Hm4a, Hload. cbn.
  destruct (found (_ffmpeg_path env)); cbn;
    [|eexists; split; [by left|]; intros a; by rewrite <- ?app_assoc].
  destruct (mkdir env); cbn;
    [eexists; split; [right; right; by eexists|]; intros a; by rewrite <- ?app_assoc|].
  destruct (ffmpeg_run env _ _); cbn;
    [eexists; split; [by left|]; intros a; by rewrite <- ?app_assoc|].
  destruct (path_exists env _) as [[]|e]; cbn;
    eexists; (split; [|intros a; by rewrite <- ?app_assoc]); auto.
Qed.

(** C2. When the native load of a source fails, two calls of
    [_ensure_playable_path] in the same surroundings give the same result,
    and each of them starts the transcoder anew whenever the source is an
    [.m4a], FFmpeg is found and the cache directory can be made: twice
    across the two calls.  Nothing looks for the output of the first call. *)
Theorem ensure_playable_twice (env : Env) (path : Path) (a : App) (msg : string) :
  music_load env (path_str path) = Some msg →
  let r1 := _ensure_playable_path sha1 env path a in
  let r2 := _ensure_playable_path sha1 env path (snd r1) in
  let k := if String.eqb (lower (suffix path)) ".m4a"
              && found (_ffmpeg_path env) && bool_decide (mkdir env = None)
           then 1%nat else 0%nat in
  fst r2 = fst r1
  ∧ (fst r1 = Ok path ∨ fst r1 = Ok (cache_path sha1 env path)
     ∨ ∃ e, fst r1 = Raise e)
  ∧ transcoder_runs (new_calls a (snd r1)) = k
  ∧ transcoder_runs (new_calls (snd r1) (snd r2)) = k
  ∧ transcoder_runs (new_calls a (snd r2)) = (2 * k)%nat.
Proof.
  intros Hload. cbv zeta.
  destruct (String.eqb (lower (suffix path)) ".m4a") eqn:Hsuf.
  - apply String.eqb_eq in Hsuf.
    destruct (ensure_after_native_failure env path msg Hsuf Hload)
      as (r & Hr & Hrun).
    set (a1 := snd (_ensure_playable_path sha1 env path a)).
    destruct (Hrun a) as [H1 C1]. destruct (Hrun a1) as [H2 C2].
    fold a1 in C1. rewrite H1, H2. split; [done|]. split; [done|].
    rewrite (new_calls_app _ _ _ C1), (new_calls_app _ _ _ C2).
    rewrite C1, <- app_assoc in C2. rewrite (new_calls_app _ _ _ C2).
    cbn [andb]. by destruct (found _ && bool_decide _).
  - unfold _ensure_playable_path. rewrite Hsuf. cbn.
    rewrite new_calls_same. split_and!; auto.
Qed.

(** *** Invariants of the reachable states *)

Lemma choice_Some_elem {A} (d : nat) (l : list A) (x : A) :
  choice d l = Some x → x ∈ l.
Proof. unfold choice. apply list_elem_of_lookup_2. Qed.

Lemma head_Some_elem {A} (l : list A) (x : A) : head l = Some x → x ∈ l.
Proof. destruct l; intros; simplify_eq/=. apply list_elem_of_here. Qed.

Lemma pick_shuffle_in_range (env : Env) (a : App) (i : Z) :
  _pick_shuffle_index env a = Some i → 0 <= i < len (playlist a).
Proof.
  unfold _pick_shuffle_index. set (n := len (playlist a)).
  case_bool_decide as Hn; [done|].
  assert (0 < n) by (unfold n, len in *; lia).
  destruct (current_index a) as [c|].
  - case_bool_decide.
    + intros Hh%head_Some_elem. apply list_elem_of_filter in Hh as [_ Hr].
      by apply py_range_lookup in Hr.
    + destruct (filter _ _) as [|x l] eqn:E; [done|].
      intros Hc%choice_Some_elem. rewrite <- E in Hc.
      apply list_elem_of_filter in Hc as [_ Hr]. by apply py_range_lookup in Hr.
  - intros [= <-]. unfold randrange. apply Z.mod_pos_bound. lia.
Qed.

Lemma append_unseen_length (paths : list Path) (seen : gset string) (pl : list Path) :
  (length pl <= length (append_unseen paths seen pl))%nat.
Proof.
  revert seen pl. induction paths as [|pp rest IH]; intros seen pl; cbn; [lia|].
  case_match; [|apply IH].
  etrans; [|apply IH]. rewrite length_app. cbn. lia.
Qed.

Lemma index_in_range_frame (a a' : App) :
  frame a a' → index_in_range a → index_in_range a'.
Proof.
  intros (Hpl & _ & (Hc & _) & _). unfold index_in_range. by rewrite Hc, Hpl.
Qed.

Lemma index_in_range_started (idx : Z) (a a' : App) :
  started idx a a' → 0 <= idx < len (playlist a) → index_in_range a'.
Proof.
  intros (Hpl & _ & Hc & _). unfold index_in_range. by rewrite Hc, Hpl.
Qed.

Lemma start_play_outcome (env : Env) (idx : Z) (a : App) :
  0 <= idx < len (playlist a) → index_in_range a →
  start_outcome a (snd (_start_play sha1 env idx a)).
Proof.
  intros Hi Hinv.
  destruct (start_play_cases env idx a) as [Hf | [_ Hs]]; split.
  - by eapply index_in_range_frame.
  - left. destruct Hf as (_ & _ & (_ & _ & _ & -> & _) & _). lia.
  - by eapply index_in_range_started.
  - right. by exists idx.
Qed.

Lemma start_outcome_after_emit (c : Call) (a a' : App) :
  start_outcome (emit c a) a' → start_outcome a a'.
Proof.
  intros [Hin [Hle | [idx Hs]]]; split; try done; [by left|].
  right. exists idx. destruct Hs as (? & ? & ? & ? & ? & ? & l & Hl).
  repeat split; try done. exists (c :: l). cbn in Hl. by rewrite Hl, <- app_assoc.
Qed.

Lemma start_outcome_refl (a : App) : index_in_range a → start_outcome a a.
Proof. intros H. split; [done|]. left. lia. Qed.

Lemma start_outcome_emit (c : Call) (a : App) :
  index_in_range a → start_outcome a (emit c a).
Proof.
  intros H. apply (start_outcome_after_emit c). by apply start_outcome_refl.
Qed.

Lemma nonempty_len {A} (x : A) (l : list A) : 0 < len (x :: l).
Proof. unfold len. cbn. lia. Qed.

Lemma next_track_outcome (env : Env) (a : App) :
  index_in_range a → start_outcome a (snd (next_track sha1 env a)).
Proof.
  intros Hinv. unfold next_track, bind, get, modify. cbn -[_start_play].
  destruct (playlist a) as [|p pl] eqn:Hpl; [by apply start_outcome_emit|].
  pose proof (nonempty_len p pl) as Hlen.
  assert (Hgo : ∀ idx, 0 <= idx < len (p :: pl) →
            start_outcome a (snd (_start_play sha1 env idx (emit NextTrack a)))).
  { intros idx Hidx. apply (start_outcome_after_emit NextTrack).
    apply start_play_outcome; [cbn; by rewrite Hpl|].
    unfold index_in_range in *. cbn. done. }
  destruct (shuffle a).
  - destruct (_pick_shuffle_index env (emit NextTrack a)) as [idx|] eqn:Hpick;
      [|by apply start_outcome_emit].
    apply Hgo. apply pick_shuffle_in_range in Hpick. cbn in Hpick. by rewrite Hpl in Hpick.
  - apply Hgo. destruct (current_index a); [apply Z.mod_pos_bound|]; lia.
Qed.

Lemma index_in_range_grow (a : App) (pl : list Path) :
  (length (playlist a) <= length pl)%nat →
  index_in_range a → index_in_range (set_playlist pl a).
Proof.
  unfold index_in_range, len. cbn. destruct (current_index a); [lia|done].
Qed.

Lemma add_unseen_outcome (paths : list Path) (a : App) (a' : App) :
  a' = snd ((modify (fun a =>
               let seen : gset string := list_to_set (path_str <$> playlist a) in
               set_playlist (append_unseen paths seen (playlist a)) a) ;;;
             sort_playlist) a) →
  index_in_range a →
  index_in_range a' ∧ elapsed_base_ms a <= elapsed_base_ms a'.
Proof.
  intros -> H. destruct (add_unseen_snd paths a) as (l & -> & Hl).
  split; [|done]. apply index_in_range_grow; [|done].
  rewrite (Permutation_length Hl). apply append_unseen_length.
Qed.

(** One callback, fired in a state that satisfies the index invariant. *)
Lemma step_outcome (env : Env) (op : Op) (a : App) :
  enabled op a → index_in_range a →
  index_in_range (snd (run sha1 env op a))
  ∧ (halts op = true → elapsed_base_ms (snd (run sha1 env op a)) = 0)
  ∧ (halts op = false →
     elapsed_base_ms a <= elapsed_base_ms (snd (run sha1 env op a))
     ∨ (starts op = true ∧ ∃ idx, started idx a (snd (run sha1 env op a)))).
Proof.
  intros Hen Hinv.
  assert (Hstart : ∀ a', start_outcome a a' → starts op = true →
            index_in_range a'
            ∧ (halts op = true → elapsed_base_ms a' = 0)
            ∧ (halts op = false →
               elapsed_base_ms a <= elapsed_base_ms a'
               ∨ (starts op = true ∧ ∃ idx, started idx a a'))).
  { intros a' [Hin Hcl] Hst. split; [done|]. split.
    - destruct op; done.
    - intros _. destruct Hcl; [by left | by right]. }
  destruct op; cbn -[_start_play next_track] in *.
  - apply Hstart; [|done]. by apply start_play_outcome.
  - apply Hstart; [|done].
    unfold play_pause, bind, get, modify, command. cbn -[_start_play].
    destruct (current_index a) as [c|] eqn:Hc.
    + destruct (playlist a) eqn:Hpl;
        destruct (get_busy env && negb (paused a)); cbn;
        (split; [by unfold index_in_range in *; cbn; rewrite ?Hc, ?Hpl in *|]);
        left; cbn; destruct (get_pos env); lia.
    + destruct (playlist a) as [|p pl] eqn:Hpl.
      * destruct (get_busy env && negb (paused a)); cbn;
          (split; [by unfold index_in_range in *; cbn; rewrite ?Hc, ?Hpl in *|]);
          left; cbn; destruct (get_pos env); lia.
      * apply start_play_outcome; [|done]. rewrite Hpl.
        pose proof (nonempty_len p pl). lia.
  - apply Hstart; [|done].
    unfold prev_track, bind, get. cbn -[_start_play].
    destruct (playlist a) as [|p pl] eqn:Hpl; [by apply start_outcome_refl|].
    pose proof (nonempty_len p pl).
    apply start_play_outcome; [|done]. rewrite Hpl.
    destruct (current_index a); [apply Z.mod_pos_bound|]; lia.
  - apply Hstart; [|done]. by apply next_track_outcome.
  - split_and!; [done..|]. intros _. left. lia.
  - unfold _on_volume, try_except, command, ret.
    destruct (music_set_volume env); cbn; (split_and!; [done..|]);
      intros _; left; lia.
  - rewrite halt_playback_run. cbn. split_and!; done.
  - destruct (load_playlist_snd env paths a) as [l ->]. cbn.
    split_and!; done.
  - unfold clear_playlist, bind, modify. rewrite halt_playback_run. cbn.
    split_and!; done.
  - unfold add_files. destruct paths as [|pp rest].
    + split_and!; [done..|]. intros _; left; cbn; lia.
    + destruct (add_unseen_outcome (pp :: rest) a _ eq_refl Hinv) as [Hin Hel].
      split_and!; [exact Hin | done | intros _; left; exact Hel].
  - unfold add_folder. destruct folder as [files|].
    + destruct (add_unseen_outcome files a _ eq_refl Hinv) as [Hin Hel].
      split_and!; [exact Hin | done | intros _; left; exact Hel].
    + split_and!; [done..|]. intros _; left; cbn; lia.
  - apply Hstart; [|done].
    unfold _poll_playback, bind, get. cbn -[next_track].
    case_match; [by apply next_track_outcome | by apply start_outcome_refl].
Qed.

Lemma reachable_index_in_range (a : App) : reachable sha1 a → index_in_range a.
Proof.
  induction 1 as [|a env op Hr IH Hen]; [done|].
  by apply step_outcome.
Qed.

Lemma reachable_elapsed_nonneg (a : App) :
  reachable sha1 a → 0 <= elapsed_base_ms a.
Proof.
  induction 1 as [|a env op Hr IH Hen]; [done|].
  pose proof (reachable_index_in_range a Hr) as Hinv.
  destruct (step_outcome env op a Hen Hinv) as (_ & Hh & Hs).
  destruct (halts op); [rewrite Hh by done; lia|].
  destruct Hs as [Hle | (_ & idx & Hst)]; [done|lia|].
  destruct Hst as (_ & _ & _ & _ & _ & -> & _). lia.
Qed.

Lemma reachable_run_all (steps : list (Env * Op)) (a : App) :
  reachable sha1 a → enabled_all sha1 steps a → reachable sha1 (run_all sha1 steps a).
Proof.
  revert a. induction steps as [|[env op] rest IH]; intros a Hr Hen; [done|].
  destruct Hen as [Hop Hrest]. cbn. apply IH; [|done]. by constructor.
Qed.

(** C7. In every state reachable from the initial one by callbacks
    (start on a row, play/pause, previous, next, shuffle toggle, volume,
    halt, playlist load and clear, adding files or a folder, poll ticks),
    [current_index] is [None] or an index of the playlist. *)
Theorem current_index_always_valid (a : App) :
  reachable sha1 a →
  match current_index a with
  | None => True
  | Some c => 0 <= c < len (playlist a)
  end.
Proof. apply reachable_index_in_range. Qed.

(** C6. In every reachable state the elapsed clock is not negative.  Every
    start that succeeds resets it to 0, and so does every callback that
    runs [_halt_playback] (halt, playlist load, playlist clear).  No other
    callback lowers it: after any of them the clock is at least what it
    was, unless the callback applied a start. *)
Theorem elapsed_clock_resets (a : App) :
  reachable sha1 a →
  0 <= elapsed_base_ms a
  ∧ (∀ env index p,
       0 <= index < len (playlist a) →
       py_getitem (playlist a) index = Some p →
       fst (start_attempt sha1 env index p a) = Ok tt →
       elapsed_base_ms (snd (_start_play sha1 env index a)) = 0)
  ∧ (∀ env op,
       enabled op a →
       (halts op = true → elapsed_base_ms (snd (run sha1 env op a)) = 0)
       ∧ (halts op = false →
          elapsed_base_ms a <= elapsed_base_ms (snd (run sha1 env op a))
          ∨ (starts op = true
             ∧ ∃ idx, started idx a (snd (run sha1 env op a))))).
Proof.
  intros Hr. split; [by apply reachable_elapsed_nonneg|]. split.
  - intros env index p Hi Hget Hok.
    assert (Hne : playlist a ≠ []).
    { intros E. rewrite E in Hi. unfold len in Hi. simpl in Hi. lia. }
    rewrite (start_play_run env index a p Hne Hget). unfold try_except.
    pose proof (start_attempt_ok env index p a Hok) as [Hst _].
    destruct (start_attempt sha1 env index p a) as [[[]|e] a1]; [|done].
    by destruct Hst as (_ & _ & _ & _ & _ & ? & _).
  - intros env op Hen.
    by destruct (step_outcome env op a Hen (reachable_index_in_range a Hr))
      as (_ & ? & ?).
Qed.

End Properties.

(** * Further properties of the engine and of the helpers *)

Section Further.

Variable sha1 : string -> string.

Ltac run_unfold :=
  unfold _start_play, start_attempt, _ensure_playable_path, _transcode_to_wav,
    _halt_playback, try_except, bind, ret, get, modify, command, attempt,
    answer, raise in *.

(** ** The shuffle picker on every playlist *)

Lemma py_range_NoDup (n : Z) : NoDup (py_range n).
Proof.
  unfold py_range. apply NoDup_fmap; [apply _|]. apply NoDup_seq.
Qed.

Lemma py_range_length (n : Z) : 0 <= n → len (py_range n) = n.
Proof.
  intros Hn. unfold len, py_range. rewrite length_fmap, length_seq. lia.
Qed.

(** A duplicate-free list longer than a set has an element outside it. *)
Lemma filter_outside_nonempty (l : list Z) (X : gset Z) :
  NoDup l → (size X < length l)%nat → filter (λ i, i ∉ X) l ≠ [].
Proof.
  intros Hnd Hlt Hnil.
  assert (Hsub : (list_to_set l : gset Z) ⊆ X).
  { intros x Hx%elem_of_list_to_set.
    destruct (decide (x ∈ X)) as [|Hout]; [done|].
    assert (x ∈ filter (λ i, i ∉ X) l) as Hin by (by apply list_elem_of_filter).
    rewrite Hnil in Hin. by apply not_elem_of_nil in Hin. }
  apply subseteq_size in Hsub. rewrite size_list_to_set in Hsub by done. lia.
Qed.

(** X1. Whatever the playlist and the draw, the shuffle picker never
    returns the current index, and what it returns is an index of the
    playlist. *)
Theorem pick_shuffle_never_current (env : Env) (a : App) (c i : Z) :
  current_index a = Some c →
  _pick_shuffle_index env a = Some i →
  i ≠ c ∧ 0 <= i < len (playlist a).
Proof.
  intros Hcur Hpick. split; [|by eapply pick_shuffle_in_range].
  revert Hpick. unfold _pick_shuffle_index. rewrite Hcur.
  case_bool_decide; [done|]. case_bool_decide.
  - intros Hh%head_Some_elem. by apply list_elem_of_filter in Hh as [? _].
  - destruct (filter _ _) as [|x l] eqn:E; [done|].
    intros Hc%choice_Some_elem. rewrite <- E in Hc.
    apply list_elem_of_filter in Hc as [Hout _]. set_solver.
Qed.

Lemma pick_shuffle_none_cases (env : Env) (a : App) :
  _pick_shuffle_index env a = None
  ↔ playlist a = [] ∨ (len (playlist a) = 1 ∧ current_index a = Some 0).
Proof.
  unfold _pick_shuffle_index. set (n := len (playlist a)).
  assert (Hn0 : n = 0 ↔ playlist a = []).
  { unfold n, len. destruct (playlist a); cbn; split; intros; (done || lia). }
  assert (0 <= n) by (unfold n, len; lia).
  case_bool_decide as Hz; [split; [intros _; left; by apply Hn0 | done]|].
  destruct (current_index a) as [c|]; cycle 1.
  { split; [done|]. intros [?%Hn0 | [_ ?]]; done. }
  case_bool_decide as Hsmall.
  - split.
    + intros Hhead. right.
      assert (Hall : ∀ i, 0 <= i < n → i = c).
      { intros i Hi. destruct (decide (i = c)) as [|Hne]; [done|].
        assert (i ∈ filter (λ i, i ≠ c) (py_range n)) as Hin.
        { apply list_elem_of_filter. split; [done|]. by apply py_range_lookup. }
        destruct (filter _ _); [by apply not_elem_of_nil in Hin | done]. }
      destruct (decide (n = 1)) as [Hn1|Hn1].
      * split; [done|]. f_equal. symmetry. apply Hall. lia.
      * pose proof (Hall 0 ltac:(lia)). pose proof (Hall 1 ltac:(lia)). lia.
    + intros [?%Hn0 | [Hn1 [= ->]]]; [done|]. by rewrite Hn1.
  - assert (Hne : filter (λ i, i ∉ ({[c; (c + 1) mod n]} : gset Z)) (py_range n) ≠ []).
    { apply filter_outside_nonempty; [apply py_range_NoDup|].
      pose proof (py_range_length n ltac:(lia)) as Hlen. unfold len in Hlen. lia. }
    destruct (choice_elem (draw env) _ Hne) as (x & Hx & _).
    destruct (filter _ _) as [|y l] eqn:E; [done|]. rewrite Hx.
    split; [done|]. intros [?%Hn0 | [Hn1 [= ->]]]; [done|].
    exfalso. apply Hsmall. rewrite Hn1.
    replace ((0 + 1) mod 1) with 0 by done.
    rewrite (union_idemp_L ({[0]} : gset Z)), size_singleton. lia.
Qed.

(** X2. The picker gives up in two cases only: the playlist is empty, or it
    holds a single track and that track is the current one. *)
Theorem pick_shuffle_none_iff (env : Env) (a : App) :
  _pick_shuffle_index env a = None
  ↔ playlist a = [] ∨ (len (playlist a) = 1 ∧ current_index a = Some 0).
Proof. apply pick_shuffle_none_cases. Qed.

(** X3. With two tracks the picker returns the other track, whatever the
    draw. *)
Theorem pick_shuffle_two_tracks (env : Env) (a : App) (c : Z) :
  len (playlist a) = 2 →
  current_index a = Some c →
  0 <= c < 2 →
  _pick_shuffle_index env a = Some (1 - c).
Proof.
  intros Hn Hcur Hc. unfold _pick_shuffle_index. rewrite Hcur, Hn.
  rewrite bool_decide_eq_false_2 by lia.
  rewrite forbidden_size by lia.
  rewrite bool_decide_eq_true_2 by lia.
  assert (c = 0 ∨ c = 1) as [-> | ->] by lia; reflexivity.
Qed.

(** X4. With three or more tracks every index other than the current one
    and its successor is returned for some draw: the picker excludes
    nothing else. *)
Theorem pick_shuffle_reaches_every_choice (env : Env) (a : App) (c i : Z) :
  3 <= len (playlist a) →
  current_index a = Some c →
  0 <= c < len (playlist a) →
  0 <= i < len (playlist a) →
  i ≠ c →
  i ≠ (c + 1) mod len (playlist a) →
  ∃ d, _pick_shuffle_index (with_draw d env) a = Some i.
Proof.
  intros Hn Hcur Hc Hi Hic Hin. unfold _pick_shuffle_index. rewrite Hcur.
  set (n := len (playlist a)) in *.
  rewrite bool_decide_eq_false_2 by lia.
  rewrite forbidden_size by lia.
  rewrite bool_decide_eq_false_2 by lia.
  set (choices := filter _ _).
  assert (Hmem : i ∈ choices).
  { apply list_elem_of_filter. split; [set_solver|]. by apply py_range_lookup. }
  apply list_elem_of_lookup_1 in Hmem as [k Hk].
  exists k. pose proof (lookup_lt_Some _ _ _ Hk) as Hlt.
  destruct choices as [|x l] eqn:E; [done|].
  unfold choice. cbn [draw with_draw]. by rewrite Nat.mod_small.
Qed.

(** ** Transport: how the callbacks compose *)

Lemma len_pos_nonempty {A} (l : list A) : 0 < len l → l ≠ [].
Proof. intros H ->. unfold len in H. cbn in H. lia. Qed.

(** On a device that accepts everything, [_start_play] on an entry of the
    playlist applies the start. *)
Lemma start_play_accepts (env : Env) (index : Z) (a : App) (p : Path) :
  device_accepts env →
  playlist a ≠ [] →
  py_getitem (playlist a) index = Some p →
  fst (_start_play sha1 env index a) = Ok tt
  ∧ started index a (snd (_start_play sha1 env index a))
  ∧ MusicPlay ∈ new_calls a (snd (_start_play sha1 env index a))
  ∧ error_dialogs (new_calls a (snd (_start_play sha1 env index a))) = 0%nat
  ∧ MusicLoad (path_str p) ∈ new_calls a (snd (_start_play sha1 env index a)).
Proof.
  intros [Hload Hplay] Hne Hget.
  rewrite (start_play_run sha1 env index a p Hne Hget).
  run_unfold. rewrite Hplay, !Hload. cbn.
  destruct (negb _); cbn; rewrite ?Hload; cbn.
  all: split; [done|]; split; [repeat split; try done; cbn;
         rewrite <- ?app_assoc; by eexists|].
  all: erewrite new_calls_app by (cbn; rewrite <- ?app_assoc; done).
  all: split; [set_solver | split; [done | set_solver]].
Qed.

Lemma py_getitem_in_range {A} (l : list A) (i : Z) :
  0 <= i < len l → py_getitem l i = l !! Z.to_nat i.
Proof. intros Hi. unfold py_getitem. by rewrite bool_decide_eq_true_2. Qed.

Lemma start_play_accepts_index (env : Env) (index : Z) (a : App) :
  device_accepts env →
  0 <= index < len (playlist a) →
  fst (_start_play sha1 env index a) = Ok tt
  ∧ started index a (snd (_start_play sha1 env index a)).
Proof.
  intros Hacc Hi.
  destruct (py_getitem_valid (playlist a) index Hi) as [p Hp].
  destruct (start_play_accepts env index a p Hacc) as (? & ? & _); try done.
  apply len_pos_nonempty. lia.
Qed.

Lemma next_track_sequential (env : Env) (a : App) (c : Z) :
  device_accepts env →
  shuffle a = false →
  current_index a = Some c →
  0 <= c < len (playlist a) →
  fst (next_track sha1 env a) = Ok tt
  ∧ started ((c + 1) mod len (playlist a)) a (snd (next_track sha1 env a)).
Proof.
  intros Hacc Hsh Hcur Hc.
  unfold next_track, bind, get, modify. cbn -[_start_play].
  rewrite Hsh, Hcur.
  destruct (playlist a) as [|p pl] eqn:Hpl; [unfold len in Hc; cbn in Hc; lia|].
  rewrite <- Hpl in *.
  assert (Hi : 0 <= (c + 1) mod len (playlist a) < len (playlist (emit NextTrack a)))
    by (cbn; apply Z.mod_pos_bound; lia).
  destruct (start_play_accepts_index env _ (emit NextTrack a) Hacc Hi) as [Hok Hst].
  split; [done|].
  destruct Hst as (? & ? & ? & ? & ? & ? & l & Hl). repeat split; try done.
  exists (NextTrack :: l).
  change (calls (emit NextTrack a)) with (calls a ++ [NextTrack]) in Hl.
  by rewrite Hl, <- app_assoc.
Qed.

Lemma prev_track_sequential (env : Env) (a : App) (c : Z) :
  device_accepts env →
  current_index a = Some c →
  0 <= c < len (playlist a) →
  fst (prev_track sha1 env a) = Ok tt
  ∧ started ((c - 1) mod len (playlist a)) a (snd (prev_track sha1 env a)).
Proof.
  intros Hacc Hcur Hc.
  unfold prev_track, bind, get. cbn -[_start_play]. rewrite Hcur.
  destruct (playlist a) as [|p pl] eqn:Hpl; [unfold len in Hc; cbn in Hc; lia|].
  rewrite <- Hpl in *.
  apply start_play_accepts_index; [done|]. apply Z.mod_pos_bound. lia.
Qed.

(** X5. Pausing a playing track adds the device position (at least 0, and 0
    when the device cannot tell) to the elapsed clock and pauses the device;
    the next press only unpauses: the clock, the current index and the
    playlist stay, and nothing is loaded again. *)
Theorem pause_then_resume (env1 env2 : Env) (a : App) (c : Z) :
  current_index a = Some c →
  paused a = false →
  get_busy env1 = true →
  let pos := match get_pos env1 with Some p => Z.max 0 p | None => 0 end in
  let a1 := snd (play_pause sha1 env1 a) in
  let a2 := snd (play_pause sha1 env2 a1) in
  paused a1 = true
  ∧ elapsed_base_ms a1 = elapsed_base_ms a + pos
  ∧ calls a1 = calls a ++ [MusicPause]
  ∧ paused a2 = false
  ∧ elapsed_base_ms a2 = elapsed_base_ms a + pos
  ∧ calls a2 = calls a ++ [MusicPause; MusicUnpause]
  ∧ current_index a2 = Some c
  ∧ playlist a2 = playlist a
  ∧ user_stopped a2 = user_stopped a.
Proof.
  intros Hcur Hp Hbusy. cbv zeta.
  unfold play_pause, bind, get, modify, command. cbn -[_start_play].
  rewrite Hcur, Hp, Hbusy. cbn -[_start_play].
  destruct (playlist a) eqn:Hpl; cbn -[_start_play]; rewrite Hcur; cbn;
    rewrite andb_false_r; cbn; rewrite <- ?app_assoc; done.
Qed.

(** X6. On a device that accepts everything and with shuffle off, next
    followed by previous, and previous followed by next, come back to the
    track they left. *)
Theorem next_prev_cancel (env1 env2 : Env) (a : App) (c : Z) :
  device_accepts env1 →
  device_accepts env2 →
  shuffle a = false →
  current_index a = Some c →
  0 <= c < len (playlist a) →
  current_index (snd (prev_track sha1 env2 (snd (next_track sha1 env1 a)))) = Some c
  ∧ current_index (snd (next_track sha1 env2 (snd (prev_track sha1 env1 a)))) = Some c.
Proof.
  intros H1 H2 Hsh Hcur Hc.
  set (n := len (playlist a)) in *.
  destruct (next_track_sequential env1 a c H1 Hsh Hcur Hc)
    as (_ & Hpl & Hs & Hc1 & _).
  destruct (prev_track_sequential env1 a c H1 Hcur Hc)
    as (_ & Hpl' & Hs' & Hc1' & _).
  fold n in Hc1, Hc1'. split.
  - destruct (prev_track_sequential env2 _ _ H2 Hc1) as (_ & _ & _ & -> & _).
    { rewrite Hpl. apply Z.mod_pos_bound. lia. }
    f_equal. rewrite Hpl. fold n.
    rewrite Zminus_mod_idemp_l. replace (c + 1 - 1) with c by lia.
    apply Z.mod_small. lia.
  - destruct (next_track_sequential env2 _ _ H2 ltac:(by rewrite Hs') Hc1')
      as (_ & _ & _ & -> & _).
    { rewrite Hpl'. apply Z.mod_pos_bound. lia. }
    f_equal. rewrite Hpl'. fold n.
    rewrite Zplus_mod_idemp_l. replace (c - 1 + 1) with c by lia.
    apply Z.mod_small. lia.
Qed.

(** X7. On a device that accepts everything and with shuffle off, [k]
    presses of next move from index [c] to [(c + k) mod n]; as many presses
    as there are tracks come back to [c]. *)
Theorem next_k_times (env : Env) (k : nat) (a : App) (c : Z) :
  device_accepts env →
  shuffle a = false →
  current_index a = Some c →
  0 <= c < len (playlist a) →
  current_index (run_all sha1 (replicate k (env, Next)) a)
  = Some ((c + Z.of_nat k) mod len (playlist a))
  ∧ current_index
      (run_all sha1 (replicate (length (playlist a)) (env, Next)) a)
    = Some c.
Proof.
  intros Hacc.
  assert (Hk : ∀ k a c, shuffle a = false → current_index a = Some c →
            0 <= c < len (playlist a) →
            current_index (run_all sha1 (replicate k (env, Next)) a)
            = Some ((c + Z.of_nat k) mod len (playlist a))).
  { clear k a c. induction k as [|k IH]; intros a c Hsh Hcur Hc.
    - cbn. rewrite Hcur, Z.add_0_r, Z.mod_small; done.
    - cbn -[next_track].
      destruct (next_track_sequential env a c Hacc Hsh Hcur Hc)
        as (_ & Hpl & Hs & Hc1 & _).
      rewrite (IH _ _ ltac:(by rewrite Hs) Hc1), Hpl.
      + f_equal. rewrite Zplus_mod_idemp_l. f_equal. lia.
      + rewrite Hpl. apply Z.mod_pos_bound. lia. }
  intros Hsh Hcur Hc. split; [by apply Hk|].
  rewrite (Hk _ _ _ Hsh Hcur Hc). f_equal. fold (len (playlist a)).
  rewrite <- (Z.mul_1_l (len (playlist a))) at 1.
  rewrite Z.mod_add by lia. apply Z.mod_small. lia.
Qed.

(** X8. When the device has fallen silent on a track that was neither
    paused nor halted, one tick starts the next track in order (the first
    one after the last), with the clock at 0, on a device that accepts
    everything and with shuffle off. *)
Theorem tick_advances_sequentially (env : Env) (a : App) (c : Z) :
  device_accepts env →
  get_busy env = false →
  paused a = false →
  user_stopped a = false →
  shuffle a = false →
  current_index a = Some c →
  0 <= c < len (playlist a) →
  fst (_poll_playback sha1 env a) = Ok tt
  ∧ current_index (snd (_poll_playback sha1 env a))
    = Some ((c + 1) mod len (playlist a))
  ∧ elapsed_base_ms (snd (_poll_playback sha1 env a)) = 0
  ∧ paused (snd (_poll_playback sha1 env a)) = false
  ∧ playlist (snd (_poll_playback sha1 env a)) = playlist a.
Proof.
  intros Hacc Hbusy Hp Hus Hsh Hcur Hc.
  unfold _poll_playback, bind, get. cbn -[next_track].
  rewrite Hbusy, Hp, Hus, Hcur. cbn -[next_track].
  destruct (next_track_sequential env a c Hacc Hsh Hcur Hc)
    as (? & ? & ? & ? & ? & ? & ? & _).
  done.
Qed.

(** ** Edge cases of the transport *)

(** X9. A single track under shuffle is never started again by next or by
    the poll loop: nothing reaches the device and every field stays.  With
    shuffle turned off the same press starts the one track anew. *)
Theorem single_track_next (env : Env) (a : App) (p : Path) :
  playlist a = [p] →
  current_index a = Some 0 →
  shuffle a = true →
  next_track sha1 env a = (Ok tt, emit NextTrack a)
  ∧ (snd (_poll_playback sha1 env a) = a
     ∨ snd (_poll_playback sha1 env a) = emit NextTrack a)
  ∧ (device_accepts env →
     started 0 (set_shuffle false a)
       (snd (next_track sha1 env (set_shuffle false a)))
     ∧ MusicPlay ∈ new_calls (set_shuffle false a)
                     (snd (next_track sha1 env (set_shuffle false a)))).
Proof.
  intros Hpl Hcur Hsh.
  assert (Hnone : _pick_shuffle_index env (emit NextTrack a) = None).
  { apply pick_shuffle_none_cases. right. cbn. by rewrite Hpl. }
  assert (Hnext : next_track sha1 env a = (Ok tt, emit NextTrack a)).
  { unfold next_track, bind, get, modify. cbn -[_start_play _pick_shuffle_index].
    by rewrite Hpl, Hsh, Hnone. }
  split_and!; [done| |].
  - unfold _poll_playback, bind, get. cbn -[next_track].
    case_match; [right; by rewrite Hnext | by left].
  - intros Hacc. set (b := set_shuffle false a).
    assert (Hplb : playlist b = [p]) by done.
    unfold next_track, bind, get, modify. cbn -[_start_play].
    rewrite Hpl, Hcur. cbn -[_start_play].
    change ((0 + 1) `mod` len [p]) with 0.
    destruct (start_play_accepts env 0 (emit NextTrack b) p Hacc)
      as (_ & Hst & Hplay & _).
    { cbn. by rewrite Hpl. }
    { cbn. rewrite Hpl. reflexivity. }
    destruct Hst as (? & ? & ? & ? & ? & ? & l & Hl).
    rewrite (new_calls_app (emit NextTrack b) _ l Hl) in Hplay.
    change (calls (emit NextTrack b)) with (calls b ++ [NextTrack]) in Hl.
    rewrite <- app_assoc in Hl.
    split.
    + repeat split; try done. by eexists.
    + rewrite Hl. change (calls b) with (calls a).
      rewrite drop_app_length. set_solver.
Qed.

(** On an empty playlist, starting any index, previous, next and (with
    a silent device and nothing current) play/pause return at once: no
    device call, no error dialog, no field changed, and no IndexError
    either. *)
Lemma empty_playlist_noop (env : Env) (a : App) (index : Z) :
  playlist a = [] →
  _start_play sha1 env index a = (Ok tt, a)
  ∧ prev_track sha1 env a = (Ok tt, a)
  ∧ next_track sha1 env a = (Ok tt, emit NextTrack a)
  ∧ (current_index a = None → get_busy env = false →
     play_pause sha1 env a = (Ok tt, a)).
Proof.
  intros Hpl. split_and!.
  - unfold _start_play, bind, get. cbn. by rewrite Hpl.
  - unfold prev_track, bind, get. cbn -[_start_play]. by rewrite Hpl.
  - unfold next_track, bind, get, modify. cbn -[_start_play]. by rewrite Hpl.
  - intros Hcur Hbusy. unfold play_pause, bind, get. cbn -[_start_play].
    by rewrite Hpl, Hcur, Hbusy.
Qed.

(** X10. On a non-empty playlist an index at or beyond the length, or below
    minus the length, makes [_start_play] raise the IndexError of the list
    lookup, outside its [try]: no dialog is shown, nothing reaches the
    device and the state is untouched. *)
Theorem start_play_index_error (env : Env) (a : App) (index : Z) :
  playlist a ≠ [] →
  index < - len (playlist a) ∨ len (playlist a) <= index →
  _start_play sha1 env index a = (Raise "list index out of range", a).
Proof.
  intros Hne Hout. unfold _start_play, bind, get. cbn.
  destruct (playlist a) as [|p pl] eqn:Hpl; [done|]. rewrite <- Hpl in *.
  unfold py_getitem.
  rewrite bool_decide_eq_false_2, bool_decide_eq_false_2; [done|lia|].
  unfold len in *. lia.
Qed.

(** X11. A negative index down to minus the length is taken from the end of
    the list, as Python does, and is stored as it was given: the current
    index is then no index of the playlist. *)
Theorem start_play_negative_index (env : Env) (a : App) (index : Z) :
  device_accepts env →
  - len (playlist a) <= index < 0 →
  ∃ p, playlist a !! Z.to_nat (index + len (playlist a)) = Some p
       ∧ MusicLoad (path_str p) ∈ new_calls a (snd (_start_play sha1 env index a))
       ∧ current_index (snd (_start_play sha1 env index a)) = Some index
       ∧ ¬ index_in_range (snd (_start_play sha1 env index a)).
Proof.
  intros Hacc Hi.
  destruct (lookup_lt_is_Some_2 (playlist a) (Z.to_nat (index + len (playlist a))))
    as [p Hp]; [unfold len in *; lia|].
  exists p. split; [done|].
  assert (Hget : py_getitem (playlist a) index = Some p).
  { unfold py_getitem.
    rewrite bool_decide_eq_false_2, bool_decide_eq_true_2 by lia. done. }
  assert (Hne : playlist a ≠ []) by (apply len_pos_nonempty; lia).
  pose proof (start_play_accepts env index a p Hacc Hne Hget)
    as (_ & (_ & _ & Hcur & _) & _ & _ & Hload).
  split_and!; [done..|].
  unfold index_in_range. rewrite Hcur. lia.
Qed.

(** ** The transcoder and the error dialog *)

Lemma error_dialogs_app (l1 l2 : list Call) :
  error_dialogs (l1 ++ l2) = (error_dialogs l1 + error_dialogs l2)%nat.
Proof. unfold error_dialogs. by rewrite filter_app, length_app. Qed.

Lemma py_getitem_elem {A} (l : list A) (i : Z) (x : A) :
  py_getitem l i = Some x → x ∈ l.
Proof.
  unfold py_getitem. repeat case_bool_decide; [| |done];
    apply list_elem_of_lookup_2.
Qed.

(** The calls of one load/play attempt: no dialog, and the transcoder at
    most for the track itself. *)
Lemma start_attempt_calls (env : Env) (index : Z) (p : Path) (a : App) :
  ∃ l, calls (snd (start_attempt sha1 env index p a)) = calls a ++ l
       ∧ error_dialogs l = 0%nat
       ∧ ∀ src out,
           FfmpegRun src out ∈ l →
           found (which_ffmpeg env) = true
           ∧ lower (suffix p) = ".m4a"%string
           ∧ src = path_str p
           ∧ out = path_str (cache_path sha1 env p)
           ∧ music_load env src ≠ None.
Proof.
  run_unfold. unfold _ffmpeg_path. cbn.
  destruct (String.eqb (lower (suffix p)) ".m4a") eqn:Hsuf; cbn.
  2: { destruct (music_load env (path_str p)); cbn;
         [|destruct (music_play env); cbn];
         eexists; (split; [rewrite <- ?app_assoc; done|]);
         (split; [done|]); intros src out Hin; set_unfold; naive_solver. }
  apply String.eqb_eq in Hsuf.
  destruct (music_load env (path_str p)) as [e|] eqn:Hnative; cbn.
  2: { rewrite Hnative. cbn. destruct (music_play env); cbn;
         eexists; (split; [rewrite <- ?app_assoc; done|]);
         (split; [done|]); intros src out Hin; set_unfold; naive_solver. }
  destruct (found (which_ffmpeg env)) eqn:Hfound; cbn.
  2: { rewrite Hnative. cbn.
       eexists; (split; [rewrite <- ?app_assoc; done|]);
         (split; [done|]); intros src out Hin; set_unfold; naive_solver. }
  destruct (mkdir env); cbn.
  { eexists; (split; [rewrite <- ?app_assoc; done|]);
      (split; [done|]); intros src out Hin; set_unfold; naive_solver. }
  assert (Hj : ∀ src out l1 l2,
            FfmpegRun src out
            ∈ MusicLoad (path_str p)
               :: FfmpegRun (path_str p) (path_str (cache_path sha1 env p))
               :: l1 :: l2 →
            is_ffmpeg_run l1 = false → Forall (λ c, is_ffmpeg_run c = false) l2 →
            true = true ∧ lower (suffix p) = ".m4a"%string ∧ src = path_str p
            ∧ out = path_str (cache_path sha1 env p) ∧ music_load env src ≠ None).
  { intros src out l1 l2 Hin H1 H2.
    apply elem_of_cons in Hin as [|Hin]; [done|].
    apply elem_of_cons in Hin as [[= -> ->]|Hin]; [by rewrite Hnative|].
    apply elem_of_cons in Hin as [<-|Hin]; [done|].
    rewrite Forall_forall in H2. by apply H2 in Hin. }
  destruct (ffmpeg_run env _ _); cbn; [|destruct (path_exists env _) as [[]|?]; cbn].
  all: rewrite ?Hnative; cbn.
  all: repeat (match goal with
               | |- context [music_load ?e ?f] => destruct (music_load e f); cbn
               | |- context [music_play ?e] => destruct (music_play e); cbn
               end).
  all: eexists; (split; [rewrite <- ?app_assoc; cbn; done|]); (split; [done|]).
  all: intros src out Hin; eapply Hj; [exact Hin|done|]; repeat constructor.
Qed.






(** X13. An [.m4a] that the device refuses, with no FFmpeg installed: the
    file is offered to the device twice (the native attempt and the load
    proper), the transcoder is not started, the dialog carries the install
    hint instead of the device's message, and the transport fields stay as
    they were. *)
Theorem start_play_m4a_without_ffmpeg
    (env : Env) (a : App) (index : Z) (p : Path) (msg : string) :
  py_getitem (playlist a) index = Some p →
  lower (suffix p) = ".m4a"%string →
  music_load env (path_str p) = Some msg →
  found (which_ffmpeg env) = false →
  fst (_start_play sha1 env index a) = Ok tt
  ∧ calls (snd (_start_play sha1 env index a))
    = calls a ++ [MusicLoad (path_str p); MusicLoad (path_str p);
                  ShowError "Error" (ffmpeg_hint p)]
  ∧ same_transport a (snd (_start_play sha1 env index a))
  ∧ _temp_files (snd (_start_play sha1 env index a)) = _temp_files a.
Proof.
  intros Hget Hm4a Hload Hnf.
  assert (Hne : playlist a ≠ []).
  { intros E. rewrite E in Hget. apply py_getitem_elem in Hget.
    by apply elem_of_nil in Hget. }
  rewrite (start_play_run sha1 env index a p Hne Hget).
  run_unfold. unfold error_message, _ffmpeg_path, ffmpeg_hint.
  rewrite Hm4a, Hload, Hnf. cbn. rewrite Hload. cbn.
  by rewrite <- !app_assoc.
Qed.

Lemma tick_on_rejected_track (env : Env) (a : App) (c : Z) :
  device_rejects env →
  get_busy env = false →
  paused a = false →
  user_stopped a = false →
  shuffle a = false →
  current_index a = Some c →
  0 <= c < len (playlist a) →
  frame a (snd (_poll_playback sha1 env a))
  ∧ ∃ l, calls (snd (_poll_playback sha1 env a)) = calls a ++ l
         ∧ error_dialogs l = 1%nat.
Proof.
  intros Hrej Hbusy Hp Hus Hsh Hcur Hc.
  unfold _poll_playback, bind, get. cbn -[next_track].
  rewrite Hbusy, Hp, Hus, Hcur. cbn -[next_track].
  unfold next_track, bind, get, modify. cbn -[_start_play].
  rewrite Hsh, Hcur.
  destruct (playlist a) as [|p0 pl] eqn:Hpl; [unfold len in Hc; cbn in Hc; lia|].
  rewrite <- Hpl in *.
  set (idx := (c + 1) mod len (playlist a)).
  set (a0 := emit NextTrack a).
  assert (Hidx : 0 <= idx < len (playlist a))
    by (apply Z.mod_pos_bound; lia).
  destruct (py_getitem_valid (playlist a0) idx Hidx) as [p Hget].
  assert (Hne : playlist a0 ≠ []) by (apply (len_pos_nonempty (playlist a)); lia).
  rewrite (start_play_run sha1 env idx a0 p Hne Hget).
  destruct (start_attempt_load_rejected sha1 env idx p a0 Hrej) as [msg Hmsg].
  pose proof (start_attempt_raise sha1 env idx p a0 msg Hmsg)
    as (Hpl1 & Hsh1 & Htr & _).
  destruct (start_attempt_calls env idx p a0) as (l & Hl & Herr & _).
  unfold try_except.
  destruct (start_attempt sha1 env idx p a0) as [[[]|e] a1]; cbn in *; [done|].
  split.
  - repeat split; try apply Htr; try done.
    exists (NextTrack :: l ++ [ShowError "Error"
              ("Cannot play:" +:+ nl +:+ path_str p +:+ nl +:+ nl
               +:+ error_message env p e)]).
    cbn. rewrite Hl. by rewrite <- !app_assoc.
  - eexists (NextTrack :: l ++ [_]). split; [cbn; by rewrite Hl, <- !app_assoc|].
    change (NextTrack :: l ++ [?x]) with ([NextTrack] ++ l ++ [x]).
    rewrite !error_dialogs_app, Herr. done.
Qed.

(** X14. A track that the device refuses is not skipped by the poll loop:
    with shuffle off, when the device has fallen silent and refuses every
    file, each further tick tries the same next track again and shows one
    more error dialog, and the current index, the clock and the playlist
    never move. *)
Theorem rejected_track_retried_every_tick (env : Env) (k : nat) (a : App) (c : Z) :
  device_rejects env →
  get_busy env = false →
  paused a = false →
  user_stopped a = false →
  shuffle a = false →
  current_index a = Some c →
  0 <= c < len (playlist a) →
  same_transport a (run_all sha1 (ticks (replicate k env)) a)
  ∧ playlist (run_all sha1 (ticks (replicate k env)) a) = playlist a
  ∧ error_dialogs (new_calls a (run_all sha1 (ticks (replicate k env)) a)) = k.
Proof.
  intros Hrej Hbusy.
  assert (Hk : ∀ k a c, paused a = false → user_stopped a = false →
            shuffle a = false → current_index a = Some c →
            0 <= c < len (playlist a) →
            frame a (run_all sha1 (ticks (replicate k env)) a)
            ∧ ∃ l, calls (run_all sha1 (ticks (replicate k env)) a) = calls a ++ l
                   ∧ error_dialogs l = k).
  { clear k a c. induction k as [|k IH]; intros a c Hp Hus Hsh Hcur Hc.
    - cbn. split; [apply frame_refl|]. exists []. by rewrite app_nil_r.
    - change (run_all sha1 (ticks (replicate (S k) env)) a)
        with (run_all sha1 (ticks (replicate k env))
                (snd (_poll_playback sha1 env a))).
      destruct (tick_on_rejected_track env a c) as (Hf & l1 & Hl1 & He1); try done.
      pose proof Hf as (Hpl & Hsh1 & (Hc1 & Hp1 & Hus1 & _) & _).
      destruct (IH (snd (_poll_playback sha1 env a)) c) as (Hf2 & l2 & Hl2 & He2);
        try congruence.
      split; [by eapply frame_trans|].
      exists (l1 ++ l2). split; [by rewrite Hl2, Hl1, <- app_assoc|].
      rewrite error_dialogs_app. lia. }
  intros Hp Hus Hsh Hcur Hc.
  destruct (Hk k a c Hp Hus Hsh Hcur Hc) as ((Hpl & _ & Htr & _) & l & Hl & He).
  split_and!; [done..|]. by rewrite (new_calls_app _ _ _ Hl).
Qed.

(** ** The natural sort *)

Lemma string_ltb_iff (a b : string) :
  String.ltb a b = true ↔ String.leb a b = true ∧ a ≠ b.
Proof.
  unfold String.ltb, String.leb.
  destruct (String.compare a b) eqn:E; split; try done.
  - apply String.compare_eq_iff in E. by intros [_ ?].
  - intros _. split; [done|]. intros ->.
    pose proof (String.compare_antisym b b) as Ha. rewrite E in Ha. done.
  - by intros [? _].
Qed.

Lemma string_ltb_asym (a b : string) :
  String.ltb a b = true → String.ltb b a = false.
Proof.
  unfold String.ltb. rewrite (String.compare_antisym a b).
  by destruct (String.compare b a).
Qed.

Lemma string_ltb_trans (a b c : string) :
  String.ltb a b = true → String.ltb b c = true → String.ltb a c = true.
Proof.
  intros [Hab Hne1]%string_ltb_iff [Hbc Hne2]%string_ltb_iff.
  apply string_ltb_iff.
  assert (Lab : String.le a b) by (unfold String.le; by rewrite Hab).
  assert (Lbc : String.le b c) by (unfold String.le; by rewrite Hbc).
  split.
  - pose proof (transitivity Lab Lbc) as Lac. unfold String.le in Lac.
    by destruct (String.leb a c).
  - intros ->. apply Hne1. by apply (anti_symm String.le).
Qed.

Lemma string_ltb_total (a b : string) :
  a ≠ b → String.ltb a b = true ∨ String.ltb b a = true.
Proof.
  intros Hne. unfold String.ltb. rewrite (String.compare_antisym a b).
  destruct (String.compare b a) eqn:E; cbn; auto.
  apply String.compare_eq_iff in E. congruence.
Qed.

Lemma tok_eqb_eq (t1 t2 : KeyTok) : tok_eqb t1 t2 = true ↔ t1 = t2.
Proof.
  destruct t1, t2; cbn; try (split; done).
  - rewrite N.eqb_eq. split; congruence.
  - rewrite String.eqb_eq. split; congruence.
Qed.

Lemma tok_eqb_refl (t : KeyTok) : tok_eqb t t = true.
Proof. by apply tok_eqb_eq. Qed.

Lemma tok_lt_asym (t1 t2 : KeyTok) : tok_lt t1 t2 = true → tok_lt t2 t1 = false.
Proof.
  destruct t1, t2; cbn; try done.
  - rewrite N.ltb_lt, N.ltb_ge. lia.
  - apply string_ltb_asym.
Qed.

Lemma tok_lt_trans (t1 t2 t3 : KeyTok) :
  tok_lt t1 t2 = true → tok_lt t2 t3 = true → tok_lt t1 t3 = true.
Proof.
  destruct t1, t2, t3; cbn; try done.
  - rewrite !N.ltb_lt. lia.
  - apply string_ltb_trans.
Qed.

Lemma tok_lt_total (t1 t2 : KeyTok) :
  is_str t1 = is_str t2 → t1 ≠ t2 → tok_lt t1 t2 = true ∨ tok_lt t2 t1 = true.
Proof.
  destruct t1 as [a|a], t2 as [b|b]; cbn; try done; intros _ Hne.
  - rewrite !N.ltb_lt. assert (a ≠ b) by congruence. lia.
  - apply string_ltb_total. congruence.
Qed.

Lemma key_lt_asym (k1 k2 : list KeyTok) :
  key_lt k1 k2 = true → key_lt k2 k1 = false.
Proof.
  revert k2. induction k1 as [|t1 k1 IH]; intros [|t2 k2]; cbn; try done.
  destruct (tok_eqb t1 t2) eqn:E.
  - apply tok_eqb_eq in E as ->. rewrite tok_eqb_refl. apply IH.
  - intros Hlt. destruct (tok_eqb t2 t1) eqn:E'.
    + apply tok_eqb_eq in E' as ->. by rewrite tok_eqb_refl in E.
    + by apply tok_lt_asym.
Qed.

Lemma key_lt_irrefl (k : list KeyTok) : key_lt k k = false.
Proof.
  destruct (key_lt k k) eqn:E; [|done]. by rewrite (key_lt_asym k k E) in E.
Qed.

Lemma key_lt_trans (k1 k2 k3 : list KeyTok) :
  key_lt k1 k2 = true → key_lt k2 k3 = true → key_lt k1 k3 = true.
Proof.
  revert k2 k3.
  induction k1 as [|t1 k1 IH]; intros [|t2 k2] [|t3 k3]; cbn; try done.
  destruct (tok_eqb t1 t2) eqn:E12, (tok_eqb t2 t3) eqn:E23.
  - apply tok_eqb_eq in E12 as ->. rewrite E23. apply IH.
  - apply tok_eqb_eq in E12 as ->. by rewrite E23.
  - apply tok_eqb_eq in E23 as ->. by rewrite E12.
  - intros H12 H23. pose proof (tok_lt_trans _ _ _ H12 H23) as H13.
    destruct (tok_eqb t1 t3) eqn:E13; [|done].
    apply tok_eqb_eq in E13 as ->.
    by rewrite (tok_lt_asym _ _ H12) in H23.
Qed.

(** Two keys of the same build that are not ordered either way are the
    same key. *)
Lemma key_lt_total (b : bool) (k1 k2 : list KeyTok) :
  alternating b k1 = true → alternating b k2 = true →
  key_lt k1 k2 = false → key_lt k2 k1 = false → k1 = k2.
Proof.
  revert b k2. induction k1 as [|t1 k1 IH]; intros b [|t2 k2]; cbn; try done.
  intros [Hs1 Ha1]%andb_prop [Hs2 Ha2]%andb_prop.
  apply Bool.eqb_prop in Hs1, Hs2.
  destruct (tok_eqb t1 t2) eqn:E.
  - apply tok_eqb_eq in E as ->. rewrite tok_eqb_refl.
    intros H1 H2. f_equal. by eapply IH.
  - assert (Hne : t1 ≠ t2) by (intros ->; by rewrite tok_eqb_refl in E).
    assert (tok_eqb t2 t1 = false) as ->.
    { destruct (tok_eqb t2 t1) eqn:E'; [|done].
      apply tok_eqb_eq in E'. congruence. }
    intros H1 H2.
    destruct (tok_lt_total t1 t2) as [H|H]; congruence.
Qed.

Lemma key_lt_checked_alternating (b : bool) (k1 k2 : list KeyTok) :
  alternating b k1 = true → alternating b k2 = true →
  key_lt_checked k1 k2 = Some (key_lt k1 k2).
Proof.
  revert b k2. induction k1 as [|t1 k1 IH]; intros b [|t2 k2]; cbn; try done.
  intros [Hs1 Ha1]%andb_prop [Hs2 Ha2]%andb_prop.
  apply Bool.eqb_prop in Hs1, Hs2.
  destruct (tok_eqb t1 t2); [by eapply IH|].
  destruct t1, t2; cbn in *; congruence.
Qed.

(** *** The pieces of a name *)

Lemma append_cons (c : ascii) (s t : string) : String c s +:+ t = String c (s +:+ t).
Proof. reflexivity. Qed.

Lemma append_nil_l (s : string) : "" +:+ s = s.
Proof. reflexivity. Qed.



Lemma length_append (s t : string) :
  String.length (s +:+ t) = (String.length s + String.length t)%nat.
Proof. induction s as [|c s IH]; [done|]. rewrite append_cons. cbn. by rewrite IH. Qed.

Lemma all_chars_app (f : ascii → bool) (s t : string) :
  all_chars f (s +:+ t) = all_chars f s && all_chars f t.
Proof.
  induction s as [|c s IH]; [done|]. rewrite append_cons. cbn.
  by rewrite IH, andb_assoc.
Qed.

Lemma append_snoc_nonempty (s : string) (c : ascii) :
  String.eqb (s +:+ String c "") "" = false.
Proof. by destruct s. Qed.

Lemma re_split_from_alternate (s cur : string) (b : bool) :
  (if b then negb (String.eqb cur "") && all_chars is_decimal cur
   else all_chars (λ c, negb (is_decimal c)) cur) = true →
  pieces_alternate (negb b) (re_split_from s cur b) = true.
Proof.
  revert cur b. induction s as [|c s IH]; intros cur b Hcur; cbn.
  - destruct b; cbn; by rewrite Hcur.
  - destruct (is_decimal c) eqn:Hc, b; cbn.
    + apply (IH _ true). rewrite append_snoc_nonempty, all_chars_app. cbn.
      apply andb_prop in Hcur as [_ ->]. by rewrite Hc.
    + rewrite Hcur. cbn. apply (IH _ true). cbn. by rewrite Hc.
    + rewrite Hcur. cbn. apply (IH _ false). cbn. by rewrite Hc.
    + apply (IH _ false). rewrite all_chars_app, Hcur. cbn. by rewrite Hc.
Qed.

Lemma is_decimal_isdigit (c : ascii) : is_decimal c = true → char_isdigit c = true.
Proof. destruct c as [[] [] [] [] [] [] [] []]; intros H; try reflexivity; discriminate H. Qed.

Lemma all_decimal_isdigit (t : string) :
  all_chars is_decimal t = true → all_chars char_isdigit t = true.
Proof.
  induction t as [|c t IH]; cbn; [done|]. intros [Hc Ht]%andb_prop.
  by rewrite (is_decimal_isdigit c Hc), IH.
Qed.

(** A text piece never becomes a number: if [isdigit] accepts it, it is
    made of superscript digits, and [int] refuses it. *)
Lemma piece_key_text (t : string) (k : KeyTok) :
  all_chars (λ c, negb (is_decimal c)) t = true →
  piece_key t = Ok k → is_str k = true.
Proof.
  intros Ht. unfold piece_key. destruct (isdigit t) eqn:Hd; [|by intros [= <-]].
  unfold py_int.
  assert (String.eqb t "" || negb (all_chars is_decimal t) = true) as ->; [|done].
  destruct t as [|c t]; [done|]. cbn in Ht |- *.
  apply andb_prop in Ht as [Hc _]. apply negb_true_iff in Hc. by rewrite Hc.
Qed.

(** A digit piece never becomes text. *)
Lemma piece_key_digits (t : string) (k : KeyTok) :
  negb (String.eqb t "") && all_chars is_decimal t = true →
  piece_key t = Ok k → is_str k = false.
Proof.
  intros [Hne Hall]%andb_prop. unfold piece_key, isdigit, py_int.
  rewrite Hne, (all_decimal_isdigit t Hall), Hall. cbn.
  apply negb_true_iff in Hne. rewrite Hne. cbn.
  destruct (_ <? _)%N; [done|]. by intros [= <-].
Qed.

Lemma pieces_key_alternating (b : bool) (l : list string) (k : list KeyTok) :
  pieces_alternate b l = true → map_res piece_key l = Ok k →
  alternating b k = true.
Proof.
  revert b k. induction l as [|t l IH]; intros b k; cbn.
  - by intros _ [= <-].
  - intros [Ht Hl]%andb_prop.
    destruct (piece_key t) as [kt|e] eqn:Hk; [|done].
    destruct (map_res piece_key l) as [kl|e] eqn:Hm; [|done]. intros [= <-].
    cbn. rewrite (IH _ _ Hl eq_refl), andb_true_r.
    destruct b.
    + by rewrite (piece_key_text _ _ Ht Hk).
    + by rewrite (piece_key_digits _ _ Ht Hk).
Qed.

Lemma natural_key_alternating (p : Path) (k : list KeyTok) :
  _natural_key p = Ok k → alternating true k = true.
Proof.
  apply (pieces_key_alternating true).
  by apply (re_split_from_alternate _ "" false).
Qed.

(** Every piece is made of characters of the name, and is no longer than
    the name. *)
Lemma re_split_from_pieces (f : ascii → bool) (n : nat) (s cur : string) (b : bool) :
  all_chars f cur = true → all_chars f s = true →
  (String.length cur + String.length s <= n)%nat →
  Forall (λ t, all_chars f t = true ∧ (String.length t <= n)%nat)
    (re_split_from s cur b).
Proof.
  revert cur b. induction s as [|c s IH]; intros cur b Hcur Hs Hlen; cbn in *.
  - destruct b; repeat (apply Forall_cons; split; [split; [done|cbn; lia]|]);
      apply Forall_nil_2.
  - apply andb_prop in Hs as [Hc Hs].
    assert (Hsnoc : all_chars f (cur +:+ String c "") = true)
      by (rewrite all_chars_app, Hcur; cbn; by rewrite Hc).
    assert (Hone : all_chars f (String c "") = true) by (cbn; by rewrite Hc).
    destruct (is_decimal c), b.
    + apply IH; [done..|]. rewrite length_append. cbn. lia.
    + constructor; [split; [done|lia]|]. apply IH; [done..|]. cbn. lia.
    + constructor; [split; [done|lia]|]. apply IH; [done..|]. cbn. lia.
    + apply IH; [done..|]. rewrite length_append. cbn. lia.
Qed.

Lemma plain_isdigit_decimal (t : string) :
  all_chars (λ c, negb (is_superscript c)) t = true →
  all_chars char_isdigit t = true → all_chars is_decimal t = true.
Proof.
  induction t as [|c t IH]; cbn; [done|].
  intros [Hc Ht]%andb_prop [Hd Hdt]%andb_prop. rewrite IH by done.
  unfold is_superscript in Hc. rewrite Hd in Hc. cbn in Hc.
  by destruct (is_decimal c).
Qed.

Lemma piece_key_plain (t : string) :
  all_chars (λ c, negb (is_superscript c)) t = true →
  (N.of_nat (String.length t) <= int_max_str_digits)%N →
  ∃ k, piece_key t = Ok k.
Proof.
  intros Hplain Hlen. unfold piece_key.
  destruct (isdigit t) eqn:Hd; [|by eexists].
  apply andb_prop in Hd as [Hne Hdig]. unfold py_int.
  rewrite (plain_isdigit_decimal t Hplain Hdig).
  apply negb_true_iff in Hne. rewrite Hne. cbn.
  apply N.ltb_ge in Hlen. rewrite Hlen. by eexists.
Qed.

Lemma map_res_ok {A B} (f : A → Res B) (l : list A) :
  Forall (λ x, ∃ y, f x = Ok y) l → ∃ ys, map_res f l = Ok ys.
Proof.
  induction 1 as [|x l [y Hy] _ [ys IH]]; cbn; [by eexists|].
  rewrite Hy, IH. by eexists.
Qed.

Lemma map_res_raise {A B} (f : A → Res B) (l : list A) (e : string) :
  map_res f l = Raise e → ∃ x, x ∈ l ∧ f x = Raise e.
Proof.
  induction l as [|x l IH]; cbn; [done|].
  destruct (f x) as [y|e'] eqn:Hx.
  - destruct (map_res f l) as [ys|e'']; [done|]. intros [= ->].
    destruct (IH eq_refl) as (z & Hz & Hfz). exists z. split; [by right|done].
  - intros [= ->]. exists x. split; [by left|done].
Qed.

Lemma map_res_all_ok {A B} (f : A → Res B) (l : list A) (ys : list B) :
  map_res f l = Ok ys → Forall (λ x, ∃ y, f x = Ok y) l.
Proof.
  revert ys. induction l as [|x l IH]; intros ys; cbn; [constructor|].
  destruct (f x) as [y|e] eqn:Hx; [|done].
  destruct (map_res f l) as [zs|e]; [|done]. intros _.
  constructor; [by eexists | by eapply IH].
Qed.

Lemma has_key_plain (p : Path) :
  all_chars (λ c, negb (is_superscript c)) (stem p) = true →
  (N.of_nat (String.length (stem p)) <= int_max_str_digits)%N →
  has_key p.
Proof.
  intros Hplain Hlen. apply map_res_ok.
  pose proof (re_split_from_pieces (λ c, negb (is_superscript c))
                (String.length (stem p)) (stem p) "" false eq_refl Hplain
                ltac:(cbn; lia)) as Hp.
  eapply Forall_impl; [exact Hp|]. intros t [Ht Hl]. cbn beta in *.
  apply piece_key_plain; [done|]. lia.
Qed.

(** X15. A name without superscript digits and of at most 4300 characters
    always has a key.  The keys of two paths can always be compared: at
    every position both hold text or both hold a number, so Python's list
    comparison never raises the TypeError of an int against a str, and
    its answer is the one the sort here uses. *)
Theorem natural_keys_comparable (p q : Path) :
  (all_chars (λ c, negb (is_superscript c)) (stem p) = true →
   (N.of_nat (String.length (stem p)) <= int_max_str_digits)%N →
   has_key p)
  ∧ ∀ kp kq, _natural_key p = Ok kp → _natural_key q = Ok kq →
      alternating true kp = true
      ∧ key_lt_checked kp kq = Some (key_lt kp kq).
Proof.
  split; [apply has_key_plain|]. intros kp kq Hp Hq.
  pose proof (natural_key_alternating p kp Hp).
  pose proof (natural_key_alternating q kq Hq).
  split; [done|]. by apply (key_lt_checked_alternating true).
Qed.

(** *** The order of the sorted list *)

Lemma keyed_le_trans (x y z : list KeyTok * Path) :
  alternating true (fst x) = true → alternating true (fst y) = true →
  keyed_le x y → keyed_le y z → keyed_le x z.
Proof.
  unfold keyed_le. intros Hx Hy Hxy Hyz.
  destruct (key_lt (fst z) (fst x)) eqn:Hzx; [|done].
  destruct (key_lt (fst x) (fst y)) eqn:Hlt.
  - by rewrite (key_lt_trans _ _ _ Hzx Hlt) in Hyz.
  - assert (fst x = fst y) as Heq by (by eapply (key_lt_total true)).
    rewrite Heq in Hzx. congruence.
Qed.

Lemma insert_by_key_sorted (x : list KeyTok * Path) (l : list (list KeyTok * Path)) :
  alternating true (fst x) = true →
  Forall (λ y, alternating true (fst y) = true) l →
  StronglySorted keyed_le l → StronglySorted keyed_le (insert_by_key x l).
Proof.
  intros Hx Halt. induction 1 as [|y l Hs IH Hall]; cbn; [repeat constructor|].
  apply Forall_cons in Halt as [Hy Halt].
  destruct (key_lt (fst y) (fst x)) eqn:Hyx.
  - constructor; [by apply IH|].
    rewrite Forall_forall in *. intros z Hz.
    rewrite insert_by_key_perm in Hz. apply elem_of_cons in Hz as [->|Hz].
    + unfold keyed_le. by apply key_lt_asym.
    + by apply Hall.
  - constructor; [by constructor|].
    constructor; [done|].
    rewrite Forall_forall in *. intros z Hz.
    eapply (keyed_le_trans x y z); [done..|]. by apply Hall.
Qed.

Lemma sort_keyed_sorted (l : list (list KeyTok * Path)) :
  Forall (λ y, alternating true (fst y) = true) l →
  StronglySorted keyed_le (foldr insert_by_key [] l).
Proof.
  induction 1 as [|x l Hx Hl IH]; cbn; [constructor|].
  apply insert_by_key_sorted; [done| |done].
  rewrite Forall_forall in *. intros y Hy. apply Hl.
  by rewrite sort_keyed_perm in Hy.
Qed.

Lemma keyed_sorted_paths (l : list (list KeyTok * Path)) :
  Forall (λ x, _natural_key (snd x) = Ok (fst x)) l →
  StronglySorted keyed_le l → StronglySorted key_le (snd <$> l).
Proof.
  intros Hk. induction 1 as [|x l Hs IH Hall]; cbn; [constructor|].
  apply Forall_cons in Hk as [Hx Hk].
  constructor; [by apply IH|].
  rewrite Forall_forall in Hk. rewrite Forall_forall in Hall.
  apply Forall_forall. intros q Hq.
  apply list_elem_of_fmap in Hq as (y & -> & Hy).
  exists (fst x), (fst y). split_and!; [done|by apply Hk|by apply Hall].
Qed.

Lemma paths_sorted_keyed (l : list (list KeyTok * Path)) :
  Forall (λ x, _natural_key (snd x) = Ok (fst x)) l →
  StronglySorted key_le (snd <$> l) → StronglySorted keyed_le l.
Proof.
  induction l as [|x l IH]; cbn; intros Hk Hs; [constructor|].
  apply Forall_cons in Hk as [Hx Hk].
  apply StronglySorted_inv in Hs as [Hs Hall].
  constructor; [by apply IH|].
  rewrite Forall_forall in Hk. rewrite Forall_forall in Hall.
  apply Forall_forall. intros y Hy.
  destruct (Hall (snd y)) as (kx & ky & Hkx & Hky & Hle).
  { apply list_elem_of_fmap. by exists y. }
  rewrite Hx in Hkx. rewrite (Hk y Hy) in Hky. simplify_eq. done.
Qed.

Lemma keyed_alternating (l : list (list KeyTok * Path)) :
  Forall (λ x, _natural_key (snd x) = Ok (fst x)) l →
  Forall (λ y, alternating true (fst y) = true) l.
Proof.
  intros H. eapply Forall_impl; [exact H|].
  intros x Hx. exact (natural_key_alternating _ _ Hx).
Qed.

Lemma sort_natural_sorted (l l' : list Path) :
  sort_natural l = Ok l' → StronglySorted key_le l'.
Proof.
  unfold sort_natural.
  destruct (map_res with_key l) as [keyed|e] eqn:Hk; [|done]. intros [= <-].
  destruct (map_res_with_key l keyed Hk) as [_ Hall].
  apply keyed_sorted_paths.
  - rewrite Forall_forall in *. intros x Hx. apply Hall.
    by rewrite sort_keyed_perm in Hx.
  - by apply sort_keyed_sorted, keyed_alternating.
Qed.

Lemma with_key_ok (p : Path) : has_key p → ∃ x, with_key p = Ok x.
Proof. intros [k Hk]. unfold with_key. rewrite Hk. by eexists. Qed.

Lemma sort_natural_ok (l : list Path) :
  Forall has_key l → ∃ l', sort_natural l = Ok l'.
Proof.
  intros Hl. unfold sort_natural.
  destruct (map_res_ok with_key l) as [keyed ->]; [|by eexists].
  eapply Forall_impl; [exact Hl|]. apply with_key_ok.
Qed.

Lemma sort_natural_has_key (l l' : list Path) :
  sort_natural l = Ok l' → Forall has_key l.
Proof.
  unfold sort_natural.
  destruct (map_res with_key l) as [keyed|e] eqn:Hk; [|done]. intros _.
  eapply Forall_impl; [exact (map_res_all_ok _ _ _ Hk)|].
  intros p [x Hx]. unfold with_key in Hx.
  destruct (_natural_key p) as [k|e] eqn:Hp; [by exists k|done].
Qed.

Lemma sort_natural_raise (l : list Path) (e : string) :
  sort_natural l = Raise e → ∃ p, p ∈ l ∧ _natural_key p = Raise e.
Proof.
  unfold sort_natural.
  destruct (map_res with_key l) as [keyed|e'] eqn:Hk; [done|]. intros [= ->].
  destruct (map_res_raise _ _ _ Hk) as (p & Hp & Hw).
  exists p. split; [done|]. unfold with_key in Hw.
  destruct (_natural_key p); by simplify_eq.
Qed.

(** X16. [self.playlist.sort(key=_natural_key)] returns exactly when every
    track has a key.  It then leaves the same tracks, each as often as
    before, in natural order: no track comes before one whose key is
    smaller.  When a track has no key the sort raises the ValueError of
    that track and the playlist, like the rest of the state, is as it
    was. *)
Theorem sort_natural_sorted_perm (a : App) :
  (Forall has_key (playlist a) ↔ ∃ l, sort_natural (playlist a) = Ok l)
  ∧ match sort_natural (playlist a) with
    | Ok l =>
        sort_playlist a = (Ok tt, set_playlist l a)
        ∧ l ≡ₚ playlist a
        ∧ StronglySorted key_le l
    | Raise e =>
        sort_playlist a = (Raise e, a)
        ∧ ∃ p, p ∈ playlist a ∧ _natural_key p = Raise e
    end.
Proof.
  split.
  - split; [apply sort_natural_ok|]. intros [l Hl]. by eapply sort_natural_has_key.
  - unfold sort_playlist.
    destruct (sort_natural (playlist a)) as [l|e] eqn:Hs.
    + split_and!; [done | by apply sort_natural_perm | by eapply sort_natural_sorted].
    + split; [done|]. by apply sort_natural_raise.
Qed.

Lemma insert_by_key_filter_same (x : list KeyTok * Path) (l : list (list KeyTok * Path)) :
  filter (λ y, fst y = fst x) (insert_by_key x l)
  = x :: filter (λ y, fst y = fst x) l.
Proof.
  induction l as [|y l IH]; cbn; [by rewrite decide_True|].
  destruct (key_lt (fst y) (fst x)) eqn:Hyx.
  - assert (Hne : fst y ≠ fst x).
    { intros Heq. rewrite Heq, key_lt_irrefl in Hyx. done. }
    rewrite !filter_cons, !decide_False by done. by rewrite IH.
  - rewrite (filter_cons _ x). by rewrite decide_True.
Qed.

Lemma insert_by_key_filter_other (k : list KeyTok) (x : list KeyTok * Path)
    (l : list (list KeyTok * Path)) :
  fst x ≠ k →
  filter (λ y, fst y = k) (insert_by_key x l) = filter (λ y, fst y = k) l.
Proof.
  intros Hne. induction l as [|y l IH]; cbn; [by rewrite decide_False|].
  destruct (key_lt (fst y) (fst x)).
  - rewrite !filter_cons, IH. done.
  - rewrite (filter_cons _ x). by rewrite decide_False.
Qed.

Lemma sort_keyed_stable (k : list KeyTok) (l : list (list KeyTok * Path)) :
  filter (λ y, fst y = k) (foldr insert_by_key [] l) = filter (λ y, fst y = k) l.
Proof.
  induction l as [|x l IH]; cbn; [done|].
  destruct (decide (fst x = k)) as [<-|Hne].
  - by rewrite insert_by_key_filter_same, IH.
  - by rewrite insert_by_key_filter_other, IH.
Qed.

Lemma filter_keyed_paths (k : list KeyTok) (l : list (list KeyTok * Path)) :
  Forall (λ x, _natural_key (snd x) = Ok (fst x)) l →
  filter (λ p, _natural_key p = Ok k) (snd <$> l)
  = snd <$> filter (λ y, fst y = k) l.
Proof.
  induction 1 as [|x l Hx Hl IH]; [done|].
  rewrite fmap_cons, !filter_cons, IH.
  destruct (decide (fst x = k)) as [Heq|Hne].
  - by rewrite decide_True by (by rewrite Hx, Heq).
  - rewrite decide_False; [done|]. rewrite Hx. congruence.
Qed.

(** X17. The sort is stable: the tracks that share a key (names that
    differ in letter case or in leading zeros only) keep the order they
    had. *)
Theorem sort_natural_stable (k : list KeyTok) (l l' : list Path) :
  sort_natural l = Ok l' →
  filter (λ p, _natural_key p = Ok k) l' = filter (λ p, _natural_key p = Ok k) l.
Proof.
  unfold sort_natural.
  destruct (map_res with_key l) as [keyed|e] eqn:Hk; [|done]. intros [= <-].
  destruct (map_res_with_key l keyed Hk) as [<- Hall].
  rewrite !filter_keyed_paths, sort_keyed_stable; [done..|].
  rewrite Forall_forall in *. intros x Hx. apply Hall.
  by rewrite sort_keyed_perm in Hx.
Qed.

Lemma sort_keyed_sorted_id (l : list (list KeyTok * Path)) :
  StronglySorted keyed_le l → foldr insert_by_key [] l = l.
Proof.
  induction 1 as [|x l Hs IH Hall]; cbn; [done|]. rewrite IH.
  destruct l as [|y l]; cbn; [done|].
  apply Forall_cons in Hall as [Hxy _]. unfold keyed_le in Hxy. by rewrite Hxy.
Qed.

Lemma sort_natural_sorted_id (l : list Path) :
  Forall has_key l → StronglySorted key_le l → sort_natural l = Ok l.
Proof.
  intros Hk Hs. unfold sort_natural.
  destruct (map_res_ok with_key l) as [keyed Hkeyed].
  { eapply Forall_impl; [exact Hk|]. apply with_key_ok. }
  rewrite Hkeyed. destruct (map_res_with_key l keyed Hkeyed) as [<- Hall].
  by rewrite sort_keyed_sorted_id by (by apply paths_sorted_keyed).
Qed.

(** X18. Sorting a playlist that is in natural order, every track of which
    has a key, returns it as it is; so sorting what a sort returned
    changes nothing. *)
Theorem sort_natural_idempotent (l : list Path) :
  (Forall has_key l → StronglySorted key_le l → sort_natural l = Ok l)
  ∧ ∀ l', sort_natural l = Ok l' → sort_natural l' = Ok l'.
Proof.
  split; [apply sort_natural_sorted_id|]. intros l' Hl.
  apply sort_natural_sorted_id; [|by eapply sort_natural_sorted].
  pose proof (sort_natural_has_key l l' Hl) as Hk.
  rewrite Forall_forall in *. intros p Hp. apply Hk.
  by rewrite <- (sort_natural_perm l l' Hl).
Qed.

(** ** What the natural key sees in a name *)

Lemma is_decimal_lower (c : ascii) : is_decimal (lower_char c) = is_decimal c.
Proof. destruct c as [[] [] [] [] [] [] [] []]; reflexivity. Qed.

Lemma char_isdigit_lower (c : ascii) : char_isdigit (lower_char c) = char_isdigit c.
Proof. destruct c as [[] [] [] [] [] [] [] []]; reflexivity. Qed.

Lemma lower_char_idemp (c : ascii) : lower_char (lower_char c) = lower_char c.
Proof. destruct c as [[] [] [] [] [] [] [] []]; reflexivity. Qed.

Lemma lower_char_digit (c : ascii) : char_isdigit c = true → lower_char c = c.
Proof. destruct c as [[] [] [] [] [] [] [] []]; intros H; try reflexivity; discriminate H. Qed.

Lemma lower_app (s t : string) : lower (s +:+ t) = lower s +:+ lower t.
Proof.
  induction s as [|c s IH]; [done|]. rewrite append_cons. cbn.
  by rewrite IH, append_cons.
Qed.

Lemma lower_idemp (s : string) : lower (lower s) = lower s.
Proof.
  induction s as [|c s IH]; cbn; [done|]. by rewrite lower_char_idemp, IH.
Qed.

Lemma lower_digits (t : string) : all_chars char_isdigit t = true → lower t = t.
Proof.
  induction t as [|c t IH]; cbn; [done|]. intros [Hc Ht]%andb_prop.
  by rewrite (lower_char_digit c Hc), IH.
Qed.

Lemma isdigit_lower (t : string) : isdigit (lower t) = isdigit t.
Proof.
  unfold isdigit. f_equal; [by destruct t|].
  induction t as [|c t IH]; cbn; [done|]. by rewrite char_isdigit_lower, IH.
Qed.

Lemma piece_key_lower (t : string) : piece_key (lower t) = piece_key t.
Proof.
  unfold piece_key. rewrite isdigit_lower.
  destruct (isdigit t) eqn:Hd; [|by rewrite lower_idemp].
  apply andb_prop in Hd as [_ Hd]. by rewrite (lower_digits t Hd).
Qed.

Lemma re_split_from_lower (s cur : string) (b : bool) :
  re_split_from (lower s) (lower cur) b = lower <$> re_split_from s cur b.
Proof.
  revert cur b. induction s as [|c s IH]; intros cur b; cbn.
  - by destruct b.
  - rewrite is_decimal_lower.
    destruct (is_decimal c), b; cbn; rewrite <- ?IH; try done.
    all: by rewrite lower_app.
Qed.

Lemma map_res_piece_key_lower (l : list string) :
  map_res piece_key (lower <$> l) = map_res piece_key l.
Proof.
  induction l as [|t l IH]; cbn; [done|]. by rewrite piece_key_lower, IH.
Qed.

(** X19. The natural key does not see letter case: a name and its
    lowercase form have the same key, or raise the same error, whatever
    the folder and the extension. *)
Theorem natural_key_ignores_case (p : Path) :
  _natural_key (mkPath (parent p) (lower (stem p)) (suffix p)) = _natural_key p.
Proof.
  unfold _natural_key, re_split_digits. cbn [stem].
  pose proof (re_split_from_lower (stem p) "" false) as H.
  change (lower "") with ""%string in H.
  by rewrite H, map_res_piece_key_lower.
Qed.












(** ** Playlist edits *)

(** When [exists()] answers for every path, the loop of
    [_load_playlist_paths] appends the paths that exist and are
    supported, in the order given. *)
Lemma load_paths_loop_total (env : Env) (paths : list Path) (a : App) :
  (∀ pp, pp ∈ paths → ∃ b, path_exists env (path_str pp) = Ok b) →
  load_paths_loop env paths a
  = (Ok tt, set_playlist (playlist a ++ kept env paths) a).
Proof.
  revert a. induction paths as [|pp rest IH]; intros a Hall.
  - cbn. by rewrite app_nil_r, set_playlist_same.
  - destruct (Hall pp) as [b Hb]; [by left|].
    assert (Hrest : ∀ q, q ∈ rest → ∃ b, path_exists env (path_str q) = Ok b)
      by (intros q Hq; apply Hall; by right).
    cbn [load_paths_loop]. unfold bind at 1, answer. rewrite Hb.
    unfold kept. rewrite filter_cons. fold (kept env rest).
    unfold bind, modify, ret.
    destruct b, (supported pp) eqn:Hs; cbn [andb].
    + rewrite decide_True by done. rewrite IH by done. cbn.
      by rewrite <- app_assoc.
    + rewrite decide_False by (intros [_ ?]; congruence). by rewrite IH.
    + rewrite decide_False by (intros [? _]; congruence). by rewrite IH.
    + rewrite decide_False by (intros [? _]; congruence). by rewrite IH.
Qed.

(** An [exists()] that raises ends the loop with what was appended so
    far. *)
Lemma load_paths_loop_raises (env : Env) (pre : list Path) (pp : Path)
    (post : list Path) (e : string) (a : App) :
  (∀ q, q ∈ pre → ∃ b, path_exists env (path_str q) = Ok b) →
  path_exists env (path_str pp) = Raise e →
  load_paths_loop env (pre ++ pp :: post) a
  = (Raise e, set_playlist (playlist a ++ kept env pre) a).
Proof.
  revert a. induction pre as [|q0 pre IH]; intros a Hall Hpp.
  - cbn [app load_paths_loop]. unfold bind, answer. rewrite Hpp.
    cbn. by rewrite app_nil_r, set_playlist_same.
  - destruct (Hall q0) as [b Hb]; [by left|].
    assert (Hrest : ∀ q, q ∈ pre → ∃ b, path_exists env (path_str q) = Ok b)
      by (intros q Hq; apply Hall; by right).
    rewrite <- app_comm_cons. cbn [load_paths_loop].
    unfold bind at 1, answer. rewrite Hb.
    unfold kept. rewrite filter_cons. fold (kept env pre).
    unfold bind, modify, ret.
    destruct b, (supported q0) eqn:Hs; cbn [andb].
    + rewrite decide_True by done. rewrite IH by done. cbn.
      by rewrite <- app_assoc.
    + rewrite decide_False by (intros [_ ?]; congruence). by rewrite IH.
    + rewrite decide_False by (intros [? _]; congruence). by rewrite IH.
    + rewrite decide_False by (intros [? _]; congruence). by rewrite IH.
Qed.

(** Whatever [exists()] does, the loop appends nothing but given paths
    that exist and are supported. *)
Lemma load_paths_loop_appended (env : Env) (paths : list Path) (a : App) :
  ∃ l, snd (load_paths_loop env paths a) = set_playlist (playlist a ++ l) a
       ∧ Forall (λ p, p ∈ paths ∧ path_exists env (path_str p) = Ok true
                      ∧ supported p = true) l.
Proof.
  revert a. induction paths as [|pp rest IH]; intros a.
  - exists []. cbn. rewrite app_nil_r, set_playlist_same. split; [done|constructor].
  - assert (Hmono : ∀ l,
              Forall (λ p, p ∈ rest ∧ path_exists env (path_str p) = Ok true
                           ∧ supported p = true) l →
              Forall (λ p, p ∈ pp :: rest ∧ path_exists env (path_str p) = Ok true
                           ∧ supported p = true) l).
    { intros l Hl. eapply Forall_impl; [exact Hl|].
      intros p (? & ? & ?). split_and!; [by right|done..]. }
    cbn [load_paths_loop]. unfold bind at 1, answer.
    destruct (path_exists env (path_str pp)) as [b|e] eqn:Hb.
    2: { exists []. cbn. rewrite app_nil_r, set_playlist_same.
         split; [done|constructor]. }
    unfold bind, modify, ret.
    destruct b, (supported pp) eqn:Hs; cbn.
    + destruct (IH (set_playlist (playlist a ++ [pp]) a)) as (l & Hl & Hall).
      exists (pp :: l). split.
      * destruct (load_paths_loop env rest _) as [[[]|?] a1]; cbn in *;
          by rewrite Hl, <- app_assoc.
      * constructor; [split_and!; [by left|done..]|by apply Hmono].
    + destruct (IH a) as (l & Hl & Hall). exists l. split; [|by apply Hmono].
      by destruct (load_paths_loop env rest a) as [[[]|?] a1].
    + destruct (IH a) as (l & Hl & Hall). exists l. split; [|by apply Hmono].
      by destruct (load_paths_loop env rest a) as [[[]|?] a1].
    + destruct (IH a) as (l & Hl & Hall). exists l. split; [|by apply Hmono].
      by destruct (load_paths_loop env rest a) as [[[]|?] a1].
Qed.

Lemma load_playlist_unfold (env : Env) (paths : list Path) (a : App) :
  _load_playlist_paths env paths a
  = (load_paths_loop env paths ;;; sort_playlist)
      (set_playlist [] (after_halt a)).
Proof.
  unfold _load_playlist_paths, bind, modify. by rewrite halt_playback_run.
Qed.

(** What a load leaves behind, case by case. *)
Lemma load_playlist_cases (env : Env) (paths : list Path) (a : App) :
  current_index (snd (_load_playlist_paths env paths a)) = None
  ∧ new_calls a (snd (_load_playlist_paths env paths a)) = [MusicStop]
  ∧ (∀ p, p ∈ playlist (snd (_load_playlist_paths env paths a)) →
          p ∈ paths ∧ path_exists env (path_str p) = Ok true
          ∧ supported p = true)
  ∧ ((∀ pp, pp ∈ paths → ∃ b, path_exists env (path_str pp) = Ok b) →
     match sort_natural (kept env paths) with
     | Ok l =>
         fst (_load_playlist_paths env paths a) = Ok tt
         ∧ playlist (snd (_load_playlist_paths env paths a)) = l
         ∧ l ≡ₚ kept env paths
         ∧ StronglySorted key_le l
     | Raise e =>
         fst (_load_playlist_paths env paths a) = Raise e
         ∧ playlist (snd (_load_playlist_paths env paths a)) = kept env paths
     end)
  ∧ (∀ pre pp post e,
       paths = pre ++ pp :: post →
       (∀ q, q ∈ pre → ∃ b, path_exists env (path_str q) = Ok b) →
       path_exists env (path_str pp) = Raise e →
       fst (_load_playlist_paths env paths a) = Raise e
       ∧ playlist (snd (_load_playlist_paths env paths a)) = kept env pre).
Proof.
  split_and!.
  - by destruct (load_playlist_snd env paths a) as [l ->].
  - destruct (load_playlist_snd env paths a) as [l ->].
    by apply new_calls_app.
  - intros p. rewrite load_playlist_unfold. unfold bind.
    set (a0 := set_playlist [] (after_halt a)).
    destruct (load_paths_loop_appended env paths a0) as (l0 & Hl0 & Hall).
    rewrite Forall_forall in Hall.
    destruct (load_paths_loop env paths a0) as [[[]|e] a1]; cbn [snd] in *;
      subst a1.
    + destruct (sort_playlist_snd (set_playlist (playlist a0 ++ l0) a0))
        as (l & -> & Hl).
      cbn. rewrite Hl. cbn. apply Hall.
    + cbn. apply Hall.
  - intros Hall. rewrite load_playlist_unfold. unfold bind.
    rewrite (load_paths_loop_total env paths _ Hall). cbn [playlist set_playlist app].
    unfold sort_playlist. cbn [playlist set_playlist].
    destruct (sort_natural (kept env paths)) as [l|e] eqn:Hs; cbn.
    + split_and!; [done..|by apply sort_natural_perm|by eapply sort_natural_sorted].
    + done.
  - intros pre pp post e -> Hall Hpp. rewrite load_playlist_unfold. unfold bind.
    by rewrite (load_paths_loop_raises env pre pp post e _ Hall Hpp).
Qed.

(** X21. Loading a list of paths drops what was there, leaves nothing
    current and tells the device to stop, whether it returns or raises,
    and the new playlist holds only given paths that exist and carry a
    supported extension.  When [exists()] answers for every path and every
    kept path has a key, it returns and the playlist is the kept paths,
    each as often as given, in natural order; when a kept path has no key
    it raises that path's ValueError and the kept paths stay in the order
    given; and when [exists()] raises on a path it raises that error and
    the playlist holds what was kept of the paths before it. *)
Theorem load_playlist_result (env : Env) (paths : list Path) (a : App) :
  current_index (snd (_load_playlist_paths env paths a)) = None
  ∧ new_calls a (snd (_load_playlist_paths env paths a)) = [MusicStop]
  ∧ (∀ p, p ∈ playlist (snd (_load_playlist_paths env paths a)) →
          p ∈ paths ∧ path_exists env (path_str p) = Ok true
          ∧ supported p = true)
  ∧ ((∀ pp, pp ∈ paths → ∃ b, path_exists env (path_str pp) = Ok b) →
     match sort_natural (kept env paths) with
     | Ok l =>
         fst (_load_playlist_paths env paths a) = Ok tt
         ∧ playlist (snd (_load_playlist_paths env paths a)) = l
         ∧ l ≡ₚ kept env paths
         ∧ StronglySorted key_le l
     | Raise e =>
         fst (_load_playlist_paths env paths a) = Raise e
         ∧ playlist (snd (_load_playlist_paths env paths a)) = kept env paths
     end)
  ∧ (∀ pre pp post e,
       paths = pre ++ pp :: post →
       (∀ q, q ∈ pre → ∃ b, path_exists env (path_str q) = Ok b) →
       path_exists env (path_str pp) = Raise e →
       fst (_load_playlist_paths env paths a) = Raise e
       ∧ playlist (snd (_load_playlist_paths env paths a)) = kept env pre).
Proof. apply load_playlist_cases. Qed.

Lemma append_unseen_app (paths : list Path) (seen : gset string) (pl : list Path) :
  ∃ l, append_unseen paths seen pl = pl ++ l
       ∧ Forall (λ p, supported p = true ∧ p ∈ paths) l.
Proof.
  revert seen pl. induction paths as [|pp rest IH]; intros seen pl; cbn.
  - exists []. by rewrite app_nil_r.
  - destruct (supported pp) eqn:Hs; cbn; [case_bool_decide; cbn|].
    + destruct (IH ({[path_str pp]} ∪ seen) (pl ++ [pp])) as (l & -> & Hl).
      exists (pp :: l). split; [by rewrite <- app_assoc|].
      constructor; [split; [done|left]|].
      eapply Forall_impl; [exact Hl|]. intros p [? ?]. split; [done|by right].
    + destruct (IH seen pl) as (l & -> & Hl). exists l. split; [done|].
      eapply Forall_impl; [exact Hl|]. intros p [? ?]. split; [done|by right].
    + destruct (IH seen pl) as (l & -> & Hl). exists l. split; [done|].
      eapply Forall_impl; [exact Hl|]. intros p [? ?]. split; [done|by right].
Qed.

Lemma append_unseen_NoDup (paths : list Path) (seen : gset string) (pl : list Path) :
  (∀ s, s ∈ seen ↔ s ∈ path_str <$> pl) →
  NoDup (path_str <$> pl) →
  NoDup (path_str <$> append_unseen paths seen pl).
Proof.
  revert seen pl. induction paths as [|pp rest IH]; intros seen pl Hseen Hnd; cbn;
    [done|].
  destruct (supported pp); cbn; [case_bool_decide as Hin; cbn|]; try by apply IH.
  apply IH.
  - intros s. rewrite fmap_app, elem_of_app, elem_of_union, elem_of_singleton.
    cbn. rewrite list_elem_of_singleton, Hseen. clear. naive_solver.
  - rewrite fmap_app. apply NoDup_app. split_and!; [done| |apply NoDup_singleton].
    intros s Hs. cbn. rewrite list_elem_of_singleton. intros ->.
    by apply Hin, Hseen.
Qed.

Lemma append_unseen_covers (paths : list Path) (seen : gset string)
    (pl : list Path) (pp : Path) :
  pp ∈ paths → supported pp = true →
  path_str pp ∈ seen ∨ path_str pp ∈ path_str <$> append_unseen paths seen pl.
Proof.
  revert seen pl. induction paths as [|p0 rest IH]; intros seen pl Hin Hs;
    [by apply elem_of_nil in Hin|].
  apply elem_of_cons in Hin as [->|Hin]; cbn.
  - rewrite Hs. cbn. case_bool_decide as Hseen; cbn.
    + right. destruct (append_unseen_app rest ({[path_str p0]} ∪ seen) (pl ++ [p0]))
        as (l & -> & _).
      rewrite !fmap_app. cbn. set_solver.
    + left. by destruct (decide (path_str p0 ∈ seen)).
  - destruct (supported p0 && bool_decide (path_str p0 ∉ seen)) eqn:E.
    + destruct (IH ({[path_str p0]} ∪ seen) (pl ++ [p0]) Hin Hs) as [H|H]; [|by right].
      apply elem_of_union in H as [H%elem_of_singleton|H]; [|by left].
      right. rewrite H.
      destruct (append_unseen_app rest ({[path_str p0]} ∪ seen) (pl ++ [p0]))
        as (l & -> & _).
      rewrite !fmap_app. cbn. set_solver.
    + by apply IH.
Qed.

Lemma append_unseen_all_seen (paths : list Path) (seen : gset string) (pl : list Path) :
  (∀ pp, pp ∈ paths → supported pp = true → path_str pp ∈ seen) →
  append_unseen paths seen pl = pl.
Proof.
  revert seen pl. induction paths as [|p0 rest IH]; intros seen pl Hall; cbn; [done|].
  destruct (supported p0) eqn:Hs; cbn.
  - rewrite bool_decide_eq_false_2.
    + apply IH. intros pp Hpp. apply Hall. by right.
    + intros Hout. apply Hout, Hall; [left|done].
  - apply IH. intros pp Hpp. apply Hall. by right.
Qed.

(** [add_files] on a selection that is not empty: the appends, then the
    sort. *)
Lemma add_files_run (paths : list Path) (a : App) :
  paths ≠ [] →
  add_files paths a
  = sort_playlist
      (set_playlist
         (append_unseen paths (list_to_set (path_str <$> playlist a)) (playlist a))
         a).
Proof. intros Hne. unfold add_files, bind, modify. by destruct paths. Qed.

Lemma add_files_snd (paths : list Path) (a : App) :
  ∃ l, snd (add_files paths a) = set_playlist l a
       ∧ (paths = [] → l = playlist a)
       ∧ (paths ≠ [] →
          l ≡ₚ append_unseen paths (list_to_set (path_str <$> playlist a))
                 (playlist a)).
Proof.
  destruct (decide (paths = [])) as [->|Hne].
  - exists (playlist a). by rewrite set_playlist_same.
  - rewrite add_files_run by done.
    match goal with |- context [sort_playlist ?b] => set (a0 := b) end.
    destruct (sort_playlist_snd a0) as (l & -> & Hl).
    exists l. split_and!; done.
Qed.

(** X22. Adding files keeps every track that was there, adds only given
    files with a supported extension, and never brings in a path that the
    playlist, or an earlier file of the same batch, already holds: a
    playlist without repeated paths stays without. *)
Theorem add_files_no_duplicates (paths : list Path) (a : App) :
  (∀ p, p ∈ playlist a → p ∈ playlist (snd (add_files paths a)))
  ∧ (∀ p, p ∈ playlist (snd (add_files paths a)) →
          p ∈ playlist a ∨ (p ∈ paths ∧ supported p = true))
  ∧ (NoDup (path_str <$> playlist a) →
     NoDup (path_str <$> playlist (snd (add_files paths a))))
  ∧ current_index (snd (add_files paths a)) = current_index a
  ∧ calls (snd (add_files paths a)) = calls a.
Proof.
  destruct (add_files_snd paths a) as (l & -> & Hnil & Hcons). cbn.
  destruct (decide (paths = [])) as [->|Hne].
  { rewrite Hnil by done. split_and!; try done. intros p Hp. by left. }
  specialize (Hcons Hne).
  destruct (append_unseen_app paths (list_to_set (path_str <$> playlist a))
              (playlist a)) as (l0 & Hl0 & Hall).
  split_and!; [| | |done..].
  - intros p Hp. rewrite Hcons, Hl0. apply elem_of_app. by left.
  - intros p Hp. rewrite Hcons, Hl0 in Hp.
    apply elem_of_app in Hp as [Hp|Hp]; [by left|right].
    rewrite Forall_forall in Hall. destruct (Hall p Hp). done.
  - intros Hnd.
    apply (NoDup_Permutation_proper _ _ (fmap_Permutation path_str _ _ Hcons)).
    apply append_unseen_NoDup; [|done]. intros s. apply elem_of_list_to_set.
Qed.

(** X23. Adding the same files a second time changes nothing: every one of
    them is already in the playlist, and the sort does again what it did
    the first time. *)
Theorem add_files_idempotent (paths : list Path) (a : App) :
  snd (add_files paths (snd (add_files paths a))) = snd (add_files paths a).
Proof.
  destruct (decide (paths = [])) as [->|Hne]; [done|].
  rewrite (add_files_run paths a Hne).
  set (pl := append_unseen paths (list_to_set (path_str <$> playlist a)) (playlist a)).
  assert (Hseen : ∀ l, l ≡ₚ pl →
            append_unseen paths (list_to_set (path_str <$> l)) l = l).
  { intros l Hl. apply append_unseen_all_seen. intros pp Hpp Hs.
    rewrite elem_of_list_to_set, Hl.
    destruct (append_unseen_covers paths (list_to_set (path_str <$> playlist a))
                (playlist a) pp Hpp Hs) as [Hin|Hin]; [|done].
    apply elem_of_list_to_set in Hin. unfold pl.
    destruct (append_unseen_app paths (list_to_set (path_str <$> playlist a))
                (playlist a)) as (l0 & -> & _).
    rewrite fmap_app. apply elem_of_app. by left. }
  destruct (sort_playlist_cases (set_playlist pl a))
    as [(l & Hl & ->) | (e & He & ->)]; cbn [snd playlist set_playlist] in *.
  - rewrite add_files_run by done. cbn [playlist set_playlist].
    rewrite (Hseen l) by (by apply sort_natural_perm).
    unfold sort_playlist. cbn [playlist set_playlist].
    rewrite sort_natural_sorted_id; [done| |by eapply sort_natural_sorted].
    pose proof (sort_natural_has_key pl l Hl) as Hk.
    rewrite Forall_forall in Hk. apply Forall_forall. intros p Hp. apply Hk.
    by rewrite <- (sort_natural_perm pl l Hl).
  - rewrite add_files_run by done. cbn [playlist set_playlist].
    rewrite (Hseen pl) by done.
    unfold sort_playlist. cbn [playlist set_playlist]. by rewrite He.
Qed.

Lemma start_play_playlist (env : Env) (index : Z) (a : App) :
  playlist (snd (_start_play sha1 env index a)) = playlist a.
Proof.
  destruct (start_play_cases sha1 env index a) as [(? & _) | (_ & ? & _)]; done.
Qed.

Lemma next_track_playlist (env : Env) (a : App) :
  playlist (snd (next_track sha1 env a)) = playlist a.
Proof.
  unfold next_track, bind, get, modify. cbn -[_start_play].
  destruct (playlist a) eqn:Hpl; [done|]. rewrite <- Hpl.
  destruct (shuffle a); [destruct (_pick_shuffle_index _ _); [|done]|];
    by rewrite start_play_playlist.
Qed.

Lemma run_keeps_playlist (env : Env) (op : Op) (a : App) :
  match op with
  | LoadPlaylist _ | ClearPlaylist | AddFiles _ | AddFolder _ => True
  | _ => playlist (snd (run sha1 env op a)) = playlist a
  end.
Proof.
  destruct op; cbn -[_start_play next_track]; try done.
  - apply start_play_playlist.
  - unfold play_pause, bind, get, modify, command. cbn -[_start_play].
    destruct (current_index a), (playlist a) eqn:Hpl; rewrite <- ?Hpl;
      try (by rewrite start_play_playlist);
      by destruct (get_busy env && negb (paused a)).
  - unfold prev_track, bind, get. cbn -[_start_play].
    destruct (playlist a) eqn:Hpl; [done|]. rewrite <- Hpl.
    apply start_play_playlist.
  - apply next_track_playlist.
  - unfold _on_volume, try_except, command, ret.
    by destruct (music_set_volume env).
  - by rewrite halt_playback_run.
  - unfold _poll_playback, bind, get. cbn -[next_track].
    case_match; [apply next_track_playlist|done].
Qed.

Lemma add_folder_run (files : list Path) (a : App) :
  add_folder (Some files) a
  = sort_playlist
      (set_playlist
         (append_unseen files (list_to_set (path_str <$> playlist a)) (playlist a))
         a).
Proof. unfold add_folder, bind, modify. done. Qed.

(** The playlist after the sort: in natural order, or with a track that
    has no key. *)
Lemma sort_playlist_ordered (a : App) :
  playlist (snd (sort_playlist a)) ≡ₚ playlist a
  ∧ ordered_if_keyed (playlist (snd (sort_playlist a))).
Proof.
  destruct (sort_playlist_cases a) as [(l & Hl & ->) | (e & He & ->)]; cbn.
  - split; [by apply sort_natural_perm|]. intros _. by eapply sort_natural_sorted.
  - split; [done|]. intros Hk.
    destruct (sort_natural_raise _ _ He) as (p & Hp & Hraise).
    rewrite Forall_forall in Hk. destruct (Hk p Hp) as [k Hkey]. congruence.
Qed.

Lemma add_unseen_ordered (paths : list Path) (a : App) :
  Forall (λ p, supported p = true) (playlist a) →
  let a' := snd (sort_playlist
                   (set_playlist
                      (append_unseen paths (list_to_set (path_str <$> playlist a))
                         (playlist a)) a)) in
  Forall (λ p, supported p = true) (playlist a')
  ∧ ordered_if_keyed (playlist a').
Proof.
  intros Hs a'.
  destruct (sort_playlist_ordered
              (set_playlist
                 (append_unseen paths (list_to_set (path_str <$> playlist a))
                    (playlist a)) a)) as [Hperm Hord].
  split; [|done]. subst a'. rewrite Hperm. cbn.
  destruct (append_unseen_app paths (list_to_set (path_str <$> playlist a))
              (playlist a)) as (l & -> & Hl).
  apply Forall_app. split; [done|].
  eapply Forall_impl; [exact Hl|]. by intros p [? _].
Qed.

(** One callback keeps the two properties of the playlist; a load needs
    [exists()] to answer for the second one. *)
Lemma step_playlist (env : Env) (op : Op) (a : App) :
  Forall (λ p, supported p = true) (playlist a) →
  Forall (λ p, supported p = true) (playlist (snd (run sha1 env op a)))
  ∧ (load_answers (env, op) → ordered_if_keyed (playlist a) →
     ordered_if_keyed (playlist (snd (run sha1 env op a)))).
Proof.
  intros Hs.
  pose proof (run_keeps_playlist env op a) as Hkeep.
  destruct op; try (rewrite Hkeep; by split).
  - cbn [run]. split.
    + apply Forall_forall. intros p Hp.
      by destruct (load_playlist_cases env paths a) as (_ & _ & Hm & _);
        destruct (Hm p Hp) as (_ & _ & ?).
    + intros Hans _.
      destruct (load_playlist_cases env paths a) as (_ & _ & _ & Hok & _).
      specialize (Hok Hans).
      destruct (sort_natural (kept env paths)) as [l|e] eqn:Hsort.
      * destruct Hok as (_ & -> & _ & Hsorted). by intros _.
      * destruct Hok as (_ & ->). intros Hk.
        destruct (sort_natural_raise _ _ Hsort) as (p & Hp & Hraise).
        rewrite Forall_forall in Hk. destruct (Hk p Hp) as [k Hkey]. congruence.
  - cbn. unfold clear_playlist, bind, modify. rewrite halt_playback_run. cbn.
    split; [constructor|]. intros _ _ _. constructor.
  - cbn [run]. destruct (decide (paths = [])) as [->|Hne]; [by split|].
    rewrite add_files_run by done.
    destruct (add_unseen_ordered paths a Hs) as [? ?]. by split.
  - cbn [run]. destruct folder as [files|]; [|by split].
    rewrite add_folder_run.
    destruct (add_unseen_ordered files a Hs) as [? ?]. by split.
Qed.

(** X24. After any sequence of callbacks the playlist holds only files
    with a supported extension.  It is in natural order as well, provided
    that every track in it has a key and that [exists()] answered for
    every path of every load: an edit whose sort raised on a track without
    a key, or a load cut short by an [exists()] that raised, leaves the
    playlist unsorted. *)
Theorem playlist_supported_and_sorted (steps : list (Env * Op)) :
  Forall (λ p, supported p = true) (playlist (run_all sha1 steps init))
  ∧ (Forall load_answers steps →
     Forall has_key (playlist (run_all sha1 steps init)) →
     StronglySorted key_le (playlist (run_all sha1 steps init))).
Proof.
  assert (Hgen : ∀ steps a,
            Forall (λ p, supported p = true) (playlist a) →
            Forall (λ p, supported p = true) (playlist (run_all sha1 steps a))
            ∧ (Forall load_answers steps → ordered_if_keyed (playlist a) →
               ordered_if_keyed (playlist (run_all sha1 steps a)))).
  { clear steps. induction steps as [|[env op] rest IH]; intros a Hs; [by split|].
    cbn [run_all].
    destruct (step_playlist env op a Hs) as [Hs1 Ho1].
    destruct (IH _ Hs1) as [Hs2 Ho2]. split; [done|].
    intros [Hans Hrest]%Forall_cons Ho. by apply Ho2, Ho1. }
  destruct (Hgen steps init) as [Hs Ho]; [constructor|].
  split; [done|]. intros Hans. apply Ho; [done|]. intros _. constructor.
Qed.

(** ** Stored playlists *)

Lemma append_inj_same_length (s t u v : string) :
  String.length s = String.length t → s +:+ u = t +:+ v → s = t ∧ u = v.
Proof.
  revert t. induction s as [|c s IH]; intros [|c' t] Hlen Heq; try done.
  rewrite !append_cons in Heq. injection Heq as -> Heq.
  destruct (IH t) as [-> ->]; [by injection Hlen|done|done].
Qed.

Lemma append_inj_r (s t u : string) : s +:+ u = t +:+ u → s = t.
Proof.
  intros Heq. apply (append_inj_same_length s t u u); [|done].
  apply (f_equal String.length) in Heq. rewrite !length_append in Heq. lia.
Qed.

Lemma dec_inj (n m : nat) : dec n = dec m → n = m.
Proof.
  unfold dec. intros Heq. apply Unsigned.to_uint_inj.
  pose proof (NilEmpty.usu (Nat.to_uint n)) as Hn.
  rewrite Heq, NilEmpty.usu in Hn. congruence.
Qed.

Lemma numbered_name_inj (base : string) (c c' : nat) :
  numbered_name base c = numbered_name base c' → c = c'.
Proof.
  unfold numbered_name. intros Heq.
  apply (inj (String.append base)) in Heq.
  apply (inj (String.append " (")) in Heq.
  by apply append_inj_r, dec_inj in Heq.
Qed.

Lemma numbered_name_not_base (base : string) (c : nat) : numbered_name base c ≠ base.
Proof.
  unfold numbered_name. intros Heq.
  apply (f_equal String.length) in Heq. rewrite !length_append in Heq.
  cbn in Heq. lia.
Qed.

(** What the loop has seen when it stops, with or without a name. *)
Lemma unique_name_loop_spec (fuel : nat) (pls : gmap string (list Path))
    (base name : string) (c : nat) :
  match unique_name_loop fuel pls base name c with
  | Some r =>
      pls !! r = None
      ∧ (r = name
         ∨ is_Some (pls !! name)
           ∧ ∃ c', (c <= c')%nat ∧ r = numbered_name base c'
                   ∧ ∀ k, (c <= k < c')%nat → is_Some (pls !! numbered_name base k))
  | None =>
      fuel = O
      ∨ is_Some (pls !! name)
        ∧ ∀ k, (c <= k < c + (fuel - 1))%nat → is_Some (pls !! numbered_name base k)
  end.
Proof.
  revert name c. induction fuel as [|fuel IH]; intros name c; cbn; [by left|].
  case_bool_decide as Hin.
  - specialize (IH (numbered_name base c) (S c)).
    destruct (unique_name_loop fuel pls base (numbered_name base c) (S c)) as [r|].
    + destruct IH as [Hfree Hr]. split; [done|]. right. split; [done|].
      destruct Hr as [-> | (Hc & c' & Hle & -> & Hall)].
      * exists c. split; [lia|]. split; [done|]. intros k Hk. lia.
      * exists c'. split; [lia|]. split; [done|]. intros k Hk.
        destruct (decide (k = c)) as [->|]; [done|]. apply Hall. lia.
    + right. split; [done|]. intros k Hk.
      destruct IH as [-> | [Hc Hall]]; [lia|].
      destruct (decide (k = c)) as [->|]; [done|]. apply Hall. lia.
  - split; [|by left]. by apply eq_None_not_Some.
Qed.

Lemma unique_name_found (pls : gmap string (list Path)) (base : string) :
  ∃ name,
    _unique_playlist_name pls base = Some name
    ∧ pls !! name = None
    ∧ (pls !! base = None → name = base)
    ∧ (name = base
       ∨ ∃ c, (2 <= c)%nat ∧ name = numbered_name base c
              ∧ is_Some (pls !! base)
              ∧ ∀ k, (2 <= k < c)%nat → is_Some (pls !! numbered_name base k)).
Proof.
  unfold _unique_playlist_name.
  pose proof (unique_name_loop_spec (S (size pls)) pls base base 2) as Hspec.
  destruct (unique_name_loop (S (size pls)) pls base base 2) as [r|].
  - exists r. destruct Hspec as [Hfree Hr]. split_and!; [done..| |].
    + intros Hb. destruct Hr as [-> | [[x Hx] _]]; [done|congruence].
    + destruct Hr as [-> | (Hb & c & ? & -> & ?)]; [by left|right]. by exists c.
  - exfalso. destruct Hspec as [? | [Hb Hall]]; [done|].
    replace (2 + (S (size pls) - 1))%nat with (2 + size pls)%nat in Hall by lia.
    set (names := base :: (numbered_name base <$> seq 2 (size pls))).
    assert (Hnd : NoDup names).
    { constructor.
      - intros (k & Hk & _)%list_elem_of_fmap.
        by apply (numbered_name_not_base base k).
      - apply NoDup_fmap_2; [|apply NoDup_seq].
        intros ??. apply numbered_name_inj. }
    assert (Hsub : (list_to_set names : gset string) ⊆ dom pls).
    { intros x Hx%elem_of_list_to_set. apply elem_of_dom.
      apply elem_of_cons in Hx as [->|Hx]; [done|].
      apply list_elem_of_fmap in Hx as (k & -> & Hk%elem_of_seq). apply Hall. lia. }
    apply subseteq_size in Hsub.
    rewrite size_list_to_set, size_dom in Hsub by done.
    unfold names in Hsub. cbn in Hsub. rewrite length_fmap, length_seq in Hsub. lia.
Qed.

(** X25. [_unique_playlist_name] always comes back with a name, and that
    name is not stored yet.  It is the base name when that is free;
    otherwise it is "base (c)" for the smallest [c] from 2 on whose name
    is free. *)
Theorem unique_playlist_name_fresh (pls : gmap string (list Path)) (base : string) :
  ∃ name,
    _unique_playlist_name pls base = Some name
    ∧ pls !! name = None
    ∧ (pls !! base = None → name = base)
    ∧ (name = base
       ∨ ∃ c, (2 <= c)%nat ∧ name = numbered_name base c
              ∧ is_Some (pls !! base)
              ∧ ∀ k, (2 <= k < c)%nat → is_Some (pls !! numbered_name base k)).
Proof. apply unique_name_found. Qed.

Lemma append_unseen_files (paths : list Path) (seen : gset string) (pl : list Path) :
  append_unseen paths seen pl = pl ++ unseen_files paths seen.
Proof.
  revert seen pl. induction paths as [|pp rest IH]; intros seen pl; cbn.
  - by rewrite app_nil_r.
  - case_match; [|apply IH]. by rewrite IH, <- app_assoc.
Qed.

Lemma add_folder_playlist (files : list Path) (a : App) :
  let files_in := unseen_files files (list_to_set (path_str <$> playlist a)) in
  match sort_natural (playlist a ++ files_in) with
  | Ok l => add_folder (Some files) a = (Ok tt, set_playlist l a)
  | Raise e =>
      add_folder (Some files) a = (Raise e, set_playlist (playlist a ++ files_in) a)
  end.
Proof.
  cbv zeta. rewrite add_folder_run, append_unseen_files.
  unfold sort_playlist. cbn [playlist set_playlist].
  by destruct (sort_natural _).
Qed.

Lemma add_folder_store_cases
    (folder_name : string) (files : list Path) (a : App)
    (pls : gmap string (list Path)) :
  let files_in := unseen_files files (list_to_set (path_str <$> playlist a)) in
  ∃ r a' pls' selected,
    add_folder_store folder_name files a pls = Some (r, a', pls', selected)
    ∧ add_folder (Some files) a = (r, a')
    ∧ (∀ k v, pls !! k = Some v → pls' !! k = Some v)
    ∧ match sort_natural (playlist a ++ files_in) with
      | Raise e =>
          r = Raise e ∧ playlist a' = playlist a ++ files_in
          ∧ pls' = pls ∧ selected = None
      | Ok l =>
          r = Ok tt ∧ playlist a' = l
          ∧ (files_in = [] → pls' = pls ∧ selected = None)
          ∧ (files_in ≠ [] →
             ∃ name, selected = Some name ∧ pls !! name = None
                     ∧ pls' = <[name := files_in]> pls
                     ∧ pls' !! name = Some files_in)
      end.
Proof.
  cbv zeta. pose proof (add_folder_playlist files a) as Hrun. cbv zeta in Hrun.
  unfold add_folder_store.
  destruct (sort_natural _) as [l|e]; rewrite Hrun.
  2: { eexists _, _, _, _. split_and!; done. }
  destruct (unseen_files files _) as [|f fs] eqn:E.
  { eexists _, _, _, _. split_and!; done. }
  destruct (unique_name_found pls (folder_base_name folder_name))
    as (name & -> & Hfree & _).
  eexists _, _, _, _. split_and!; try done.
  - intros k v Hk. rewrite lookup_insert_ne; [done|]. intros ->. congruence.
  - intros _. exists name. split_and!; [done..|]. apply lookup_insert_eq.
Qed.

(** X26. Adding a folder never overwrites a stored playlist, and it reaches
    the store only when the sort of the playlist returned.  Then, when the
    folder brought new files, exactly those files (the ones appended to the
    playlist, in the order met) are stored under a name that was free and
    the selector is set to it; when it brought none, the store is left as
    it was.  When the sort raises on a track without a key, the new files
    stay appended to the unsorted playlist, nothing is stored and the
    selector is not touched. *)
Theorem add_folder_store_keeps_playlists
    (folder_name : string) (files : list Path) (a : App)
    (pls : gmap string (list Path)) :
  let files_in := unseen_files files (list_to_set (path_str <$> playlist a)) in
  ∃ r a' pls' selected,
    add_folder_store folder_name files a pls = Some (r, a', pls', selected)
    ∧ add_folder (Some files) a = (r, a')
    ∧ (∀ k v, pls !! k = Some v → pls' !! k = Some v)
    ∧ match sort_natural (playlist a ++ files_in) with
      | Raise e =>
          r = Raise e ∧ playlist a' = playlist a ++ files_in
          ∧ pls' = pls ∧ selected = None
      | Ok l =>
          r = Ok tt ∧ playlist a' = l
          ∧ (files_in = [] → pls' = pls ∧ selected = None)
          ∧ (files_in ≠ [] →
             ∃ name, selected = Some name ∧ pls !! name = None
                     ∧ pls' = <[name := files_in]> pls
                     ∧ pls' !! name = Some files_in)
      end.
Proof. apply add_folder_store_cases. Qed.

(** X27. The Load button does nothing for an empty selection or the
    placeholder.  For any other name that is not stored it loads the empty
    list: playback is halted and the playlist is emptied. *)
Theorem load_selected_missing_name (env : Env) (pls : gmap string (list Path))
    (name : string) (a : App) :
  (name = ""%string ∨ name = "Choose a playlist"%string →
   _on_load_selected_playlist env pls name a = (Ok tt, a))
  ∧ (name ≠ ""%string → name ≠ "Choose a playlist"%string → pls !! name = None →
     playlist (snd (_on_load_selected_playlist env pls name a)) = []
     ∧ current_index (snd (_on_load_selected_playlist env pls name a)) = None
     ∧ user_stopped (snd (_on_load_selected_playlist env pls name a)) = true
     ∧ new_calls a (snd (_on_load_selected_playlist env pls name a)) = [MusicStop]).
Proof.
  unfold _on_load_selected_playlist. split.
  - intros [-> | ->]; done.
  - intros H1 H2 Hnone.
    apply String.eqb_neq in H1, H2. rewrite H1, H2, Hnone. cbn -[_load_playlist_paths].
    rewrite load_playlist_unfold. cbn. split_and!; try done. by apply new_calls_app.
Qed.

Lemma filter_all {A} (P : A → Prop) `{!∀ x, Decision (P x)} (l : list A) :
  (∀ x, x ∈ l → P x) → filter P l = l.
Proof.
  induction l as [|x l IH]; intros Hall; [done|].
  rewrite filter_cons, decide_True by (apply Hall; left).
  f_equal. apply IH. intros y Hy. apply Hall. by right.
Qed.

(** X28. A folder added to an empty playlist and stored can be loaded back:
    when adding it returned and stored the new files under a name other
    than the placeholder "Choose a playlist", then, as long as the files
    still exist, the Load button on that name returns and gives the
    playlist that adding the folder gave.  A folder that is itself named
    like the placeholder is stored under that name and cannot be loaded
    back: for it the Load button does nothing. *)
Theorem add_folder_then_load_selected
    (env : Env) (folder_name : string) (files : list Path) (a a' b : App)
    (pls pls' : gmap string (list Path)) (name : string) :
  playlist a = [] →
  add_folder_store folder_name files a pls = Some (Ok tt, a', pls', Some name) →
  (∀ p, p ∈ files → path_exists env (path_str p) = Ok true) →
  (name ≠ "Choose a playlist"%string →
   fst (_on_load_selected_playlist env pls' name b) = Ok tt
   ∧ playlist (snd (_on_load_selected_playlist env pls' name b)) = playlist a')
  ∧ (name = "Choose a playlist"%string →
     _on_load_selected_playlist env pls' name b = (Ok tt, b)).
Proof.
  intros Hpl Hstore Hexist.
  split; [|intros ->; done]. intros Hph.
  destruct (add_folder_store_cases folder_name files a pls)
    as (r & a2 & pls2 & sel & Hs & _ & _ & Hcases).
  rewrite Hstore in Hs. injection Hs as <- <- <- <-.
  rewrite Hpl in *. cbn [app fmap list_fmap] in *.
  set (files_in := unseen_files files (list_to_set [])) in *.
  destruct (sort_natural files_in) as [l|e] eqn:Hsort; [|by destruct Hcases].
  destruct Hcases as (_ & Hpl' & Hnil & Hsome).
  assert (Hne : files_in ≠ []) by (intros E; by destruct (Hnil E)).
  destruct (Hsome Hne) as (name' & [= <-] & Hfree & _ & Hlook).
  assert (Hname : name ≠ ""%string).
  { intros ->. unfold add_folder_store in Hstore.
    rewrite Hpl in Hstore. cbn [fmap list_fmap] in Hstore. fold files_in in Hstore.
    destruct (add_folder (Some files) a) as [[[]|?] ?]; [|done].
    destruct files_in as [|f fs]; [done|].
    destruct (unique_name_found pls (folder_base_name folder_name))
      as (r & Hr & _ & _ & Hshape).
    rewrite Hr in Hstore. injection Hstore as _ _ ->.
    destruct Hshape as [Hb | (c & _ & Hc & _)].
    - unfold folder_base_name in Hb. by destruct (String.eqb folder_name "") eqn:E;
        [|apply String.eqb_neq in E].
    - apply (f_equal String.length) in Hc. unfold numbered_name in Hc.
      rewrite !length_append in Hc. cbn in Hc. lia. }
  assert (Hin : ∀ p, p ∈ files_in → p ∈ files ∧ supported p = true).
  { intros p Hp.
    destruct (append_unseen_app files (list_to_set []) []) as (l0 & Hl0 & Hall).
    rewrite append_unseen_files, app_nil_l in Hl0.
    change ([] ++ l0) with l0 in Hl0. unfold files_in in Hp. rewrite Hl0 in Hp.
    rewrite Forall_forall in Hall. by destruct (Hall p Hp). }
  unfold _on_load_selected_playlist.
  apply String.eqb_neq in Hname, Hph. rewrite Hname, Hph, Hlook.
  cbn -[_load_playlist_paths].
  destruct (load_playlist_cases env files_in b) as (_ & _ & _ & Hok & _).
  assert (Hkept : kept env files_in = files_in).
  { apply filter_all. intros p Hp. destruct (Hin p Hp). split; [by apply Hexist|done]. }
  rewrite Hkept, Hsort in Hok.
  destruct Hok as (? & ? & _).
  { intros pp Hpp. exists true. apply Hexist. by destruct (Hin pp Hpp). }
  split; [done|]. congruence.
Qed.

(** ** Text shown in the window *)

Lemma substring_0_length (m : nat) (s : string) :
  String.length (substring 0 m s) = Nat.min m (String.length s).
Proof.
  revert m. induction s as [|c s IH]; intros [|m]; cbn; try done.
  by rewrite IH.
Qed.

Lemma substring_0_all (m : nat) (s : string) :
  (String.length s <= m)%nat → substring 0 m s = s.
Proof.
  revert m. induction s as [|c s IH]; intros [|m] Hle; cbn in *; try done; [lia|].
  f_equal. apply IH. lia.
Qed.

(** X29. With a limit of 3 or more, [truncate] (and so [display_name])
    never returns more than [n] characters: a text that fits is returned
    as it is, a longer one is cut to its first [n - 3] characters followed
    by three dots, [n] characters in all; truncating twice is truncating
    once. *)
Theorem truncate_fits (text : string) (n : Z) :
  3 <= n →
  Z.of_nat (String.length (truncate text n)) <= n
  ∧ (Z.of_nat (String.length text) <= n → truncate text n = text)
  ∧ (n < Z.of_nat (String.length text) →
     truncate text n = substring 0 (Z.to_nat (n - 3)) text +:+ "..."
     ∧ Z.of_nat (String.length (truncate text n)) = n)
  ∧ truncate (truncate text n) n = truncate text n.
Proof.
  intros Hn.
  assert (Hfit : Z.of_nat (String.length text) <= n → truncate text n = text).
  { intros Hle. unfold truncate. by rewrite bool_decide_eq_true_2. }
  assert (Hcut : n < Z.of_nat (String.length text) →
            truncate text n = substring 0 (Z.to_nat (n - 3)) text +:+ "..."
            ∧ Z.of_nat (String.length (truncate text n)) = n).
  { intros Hlt. unfold truncate, py_slice_to.
    rewrite bool_decide_eq_false_2, bool_decide_eq_true_2 by lia.
    split; [done|]. rewrite length_append, substring_0_length. cbn. lia. }
  assert (Hlen : Z.of_nat (String.length (truncate text n)) <= n).
  { destruct (decide (Z.of_nat (String.length text) <= n)) as [Hle|Hgt].
    - by rewrite Hfit.
    - destruct Hcut as [_ ->]; lia. }
  split_and!; try done.
  unfold truncate at 1. by rewrite bool_decide_eq_true_2.
Qed.

Lemma pad2_value (n : nat) :
  Nat.of_uint <$> NilEmpty.uint_of_string (pad2 n) = Some n.
Proof.
  unfold pad2, dec. case_bool_decide.
  - rewrite append_cons, append_nil_l. cbn [NilEmpty.uint_of_string].
    rewrite NilEmpty.usu. cbn. f_equal. apply Unsigned.of_to.
  - rewrite NilEmpty.usu. cbn. f_equal. apply Unsigned.of_to.
Qed.

Lemma pad2_inj (n m : nat) : pad2 n = pad2 m → n = m.
Proof.
  intros Heq. pose proof (pad2_value n) as Hn.
  rewrite Heq, pad2_value in Hn. congruence.
Qed.

Lemma pad2_length_seconds (r : nat) : (r < 60)%nat → String.length (pad2 r) = 2%nat.
Proof.
  intros Hr. do 60 (destruct r as [|r]; [reflexivity|]). lia.
Qed.

Lemma dec_value (n : nat) : Nat.of_uint <$> NilEmpty.uint_of_string (dec n) = Some n.
Proof. unfold dec. rewrite NilEmpty.usu. cbn. f_equal. apply Unsigned.of_to. Qed.

Lemma pad2_length_min (n : nat) : (2 <= String.length (pad2 n))%nat.
Proof.
  unfold pad2. pose proof (dec_value n) as Hv. case_bool_decide as Hn.
  - rewrite length_append. cbn.
    destruct (dec n) as [|c s] eqn:E; cbn; [|lia].
    cbn in Hv. injection Hv as <-. cbn in E. discriminate E.
  - destruct (dec n) as [|c [|c' s]] eqn:E; cbn; try lia.
    + cbn in Hv. injection Hv as <-. lia.
    + exfalso. cbn [NilEmpty.uint_of_string] in Hv.
      destruct (uint_of_char c (Some Decimal.Nil)) as [d|] eqn:Ec; [|done].
      cbn in Hv. injection Hv as Hv.
      unfold uint_of_char in Ec.
      destruct c as [[] [] [] [] [] [] [] []]; cbn in Ec; try done;
        injection Ec as <-; cbn in Hv; lia.
Qed.

Lemma fmt_time_whole (sec : option Q) :
  fmt_time sec
  = pad2 (whole_seconds sec / 60) +:+ ":" +:+ pad2 (whole_seconds sec mod 60).
Proof.
  destruct sec as [q|]; [|reflexivity]. unfold fmt_time, whole_seconds.
  destruct (Qeq_bool q 0 || negb (Qle_bool 0 q)) eqn:E; [|done].
  assert (Hz : Z.to_nat (Qfloor q) = 0%nat); [|by rewrite Hz].
  assert (Hle : (q <= 0)%Q).
  { apply orb_true_iff in E as [E|E].
    - apply Qeq_bool_iff in E. by rewrite E.
    - apply negb_true_iff in E. apply Qlt_le_weak, Qnot_le_lt.
      intros Hq%Qle_bool_iff. congruence. }
  pose proof (Qfloor_le q) as Hf.
  assert ((inject_Z (Qfloor q) <= inject_Z 0)%Q) as Hz
    by (apply (Qle_trans _ q); [exact Hf | exact Hle]).
  rewrite <- Zle_Qle in Hz. lia.
Qed.

(** X30. The time label shows minutes and seconds of the whole seconds of
    its argument, with a missing, zero or negative time shown as 00:00:
    the label is at least five characters long, and two times get the same
    label exactly when their whole seconds agree. *)
Theorem fmt_time_same_label_iff (a b : option Q) :
  (5 <= String.length (fmt_time a))%nat
  ∧ (fmt_time a = fmt_time b ↔ whole_seconds a = whole_seconds b).
Proof.
  rewrite !fmt_time_whole.
  pose proof (Nat.div_mod_eq (whole_seconds a) 60) as Ha.
  pose proof (Nat.div_mod_eq (whole_seconds b) 60) as Hb.
  assert (Hra : (whole_seconds a mod 60 < 60)%nat) by (apply Nat.mod_upper_bound; lia).
  assert (Hrb : (whole_seconds b mod 60 < 60)%nat) by (apply Nat.mod_upper_bound; lia).
  revert Ha Hb Hra Hrb.
  generalize (whole_seconds a / 60)%nat (whole_seconds a mod 60)%nat
             (whole_seconds b / 60)%nat (whole_seconds b mod 60)%nat.
  intros ma ra mb rb Ha Hb Hra Hrb. split.
  - rewrite !length_append, (pad2_length_seconds _ Hra).
    change (String.length ":") with 1%nat.
    pose proof (pad2_length_min ma). lia.
  - split.
    + intros Heq.
      assert (Hlen : String.length (pad2 ma) = String.length (pad2 mb)).
      { pose proof (f_equal String.length Heq) as Hl. rewrite !length_append in Hl.
        rewrite (pad2_length_seconds _ Hra), (pad2_length_seconds _ Hrb) in Hl.
        lia. }
      destruct (append_inj_same_length _ _ _ _ Hlen Heq) as [Hm Hs].
      apply pad2_inj in Hm.
      rewrite !append_cons, !append_nil_l in Hs. injection Hs as Hs%pad2_inj.
      lia.
    + intros Heq. assert (ma = mb ∧ ra = rb) as [-> ->] by lia. done.
Qed.

End Further.

(** * The properties on concrete runs *)

Example re_split_examples :
  (re_split_digits "Track12b", re_split_digits "007", re_split_digits "",
   re_split_digits "a1b22")
  = (["Track"; "12"; "b"], [""; "007"; ""], [""], ["a"; "1"; "b"; "22"; ""])%string.
Proof. reflexivity. Qed.

Example natural_key_mixed :
  _natural_key (mkPath "/music" "Track12b" ".mp3")
  = Ok [KStr "track"; KInt 12; KStr "b"].
Proof. vm_compute. reflexivity. Qed.

Example natural_key_digits_only :
  _natural_key (mkPath "/music" "007" ".mp3") = Ok [KStr ""; KInt 7; KStr ""].
Proof. vm_compute. reflexivity. Qed.

(** A name that ends in a superscript two has no key: the piece after the
    digit 1 passes [isdigit] and [int] refuses it. *)
Example natural_key_superscript :
  _natural_key song_squared
  = Raise ("invalid literal for int() with base 10: '" +:+ superscript_two +:+ "'").
Proof. vm_compute. reflexivity. Qed.

(** Letter case beyond ASCII: the two spellings share a key. *)
Example natural_key_accents :
  _natural_key ete_capital = _natural_key ete_small
  ∧ _natural_key ete_small = Ok [KStr (stem ete_small)].
Proof. split; vm_compute; reflexivity. Qed.

Example sort_natural_numbers_before_letters :
  sort_natural [talk; song_c; song_b; song_a] = Ok [song_a; song_b; song_c; talk].
Proof. vm_compute. reflexivity. Qed.

(** Tracks with the same key keep their order. *)
Example sort_natural_keeps_equal_keys :
  sort_natural [ete_capital; ete_small; song_b] = Ok [song_b; ete_capital; ete_small]
  ∧ sort_natural [ete_small; ete_capital; song_b] = Ok [song_b; ete_small; ete_capital].
Proof. split; vm_compute; reflexivity. Qed.

(** Adding a file without a key: the callback raises, and the playlist is
    left with the new files appended and unsorted. *)
Example add_files_without_key :
  add_files [song_b; song_squared; song_a] (set_playlist [song_c] init)
  = (Raise ("invalid literal for int() with base 10: '" +:+ superscript_two +:+ "'"),
     set_playlist [song_c; song_b; song_squared; song_a] init).
Proof. vm_compute. reflexivity. Qed.

(** A load cut short by an [exists()] that raises leaves an unsorted
    playlist of tracks that all have a key. *)
Example load_cut_short :
  _load_playlist_paths world_bad_disk [song_b; song_a; song_c; talk] init
  = (Raise "[Errno 36] File name too long",
     set_playlist [song_b; song_a] (after_halt init)).
Proof. vm_compute. reflexivity. Qed.

(** Five tracks, the third one current: the draws 0, 1, 2 pick 0, 1, 4. *)
Example shuffle_five_tracks :
  (λ d, _pick_shuffle_index (world_draw d)
          (set_current_index (Some 2) five_tracks)) <$> [0; 1; 2]%nat
  = [Some 0; Some 1; Some 4].
Proof. reflexivity. Qed.

(** Two tracks: the other one.  One track: nothing. *)
Example shuffle_two_tracks :
  _pick_shuffle_index world
    (set_current_index (Some 1) (set_playlist [song_a; song_b] init)) = Some 0.
Proof. reflexivity. Qed.

Example shuffle_one_track :
  _pick_shuffle_index world (set_current_index (Some 0) idle_one) = None.
Proof. reflexivity. Qed.

(** Five tracks, shuffle off, the third one started; when the device falls
    silent the next tick moves on to the fourth. *)
Example tick_advances_in_order :
  current_index
    (run_all sample_sha1 [(world, StartPlay 2); (world, Tick)] five_tracks)
  = Some 3.
Proof. reflexivity. Qed.

(** An [.m4a] the device cannot decode is converted, and the converted file
    is what gets loaded. *)
Example start_play_m4a_falls_back :
  calls (snd (_start_play sample_sha1 world_no_m4a 3 five_tracks))
  = [MusicLoad "/music/talk.m4a";
     FfmpegRun "/music/talk.m4a" "/tmp/mp3player_cache/talk_3f786850e387.wav";
     MusicLoad "/tmp/mp3player_cache/talk_3f786850e387.wav";
     MusicPlay].
Proof. reflexivity. Qed.

(** C1 on three tracks with the second one current: the pick is a track
    other than the second and the third. *)
Lemma pick_shuffle_witness :
  ∃ i, _pick_shuffle_index world three_tracks = Some i
       ∧ 0 <= i < len (playlist three_tracks)
       ∧ i ≠ 1
       ∧ i ≠ (1 + 1) mod len (playlist three_tracks).
Proof.
  apply (pick_shuffle_avoids_current_and_next world three_tracks 1).
  - unfold len. cbn. lia.
  - reflexivity.
  - unfold len. cbn. lia.
Defined.

(** C2, as the specification states it, fails: resolving the same [.m4a]
    twice starts the transcoder twice. *)
Lemma ensure_playable_twice_counterexample :
  let r1 := _ensure_playable_path sample_sha1 world_no_m4a talk init in
  let r2 := _ensure_playable_path sample_sha1 world_no_m4a talk (snd r1) in
  fst r1 = Ok (cache_path sample_sha1 world_no_m4a talk)
  ∧ fst r2 = fst r1
  ∧ ¬ (transcoder_runs (new_calls init (snd r2)) <= 1)%nat.
Proof.
  cbv zeta. split; [reflexivity|]. split; [reflexivity|].
  vm_compute. lia.
Defined.

(** C2 as amended, on the same run. *)
Lemma ensure_playable_twice_witness :
  let r1 := _ensure_playable_path sample_sha1 world_no_m4a talk init in
  let r2 := _ensure_playable_path sample_sha1 world_no_m4a talk (snd r1) in
  fst r2 = fst r1
  ∧ (fst r1 = Ok talk ∨ fst r1 = Ok (cache_path sample_sha1 world_no_m4a talk)
     ∨ ∃ e, fst r1 = Raise e)
  ∧ transcoder_runs (new_calls init (snd r1)) = 1%nat
  ∧ transcoder_runs (new_calls (snd r1) (snd r2)) = 1%nat
  ∧ transcoder_runs (new_calls init (snd r2)) = 2%nat.
Proof.
  apply (ensure_playable_twice sample_sha1 world_no_m4a talk init
           "Unrecognized audio format").
  reflexivity.
Defined.

(** C4, as the specification states it, fails: [_halt_playback] leaves the
    current index where it was. *)
Lemma halt_playback_counterexample :
  current_index (snd (_halt_playback world three_tracks)) = Some 1
  ∧ ¬ halt_postconditions three_tracks (snd (_halt_playback world three_tracks)).
Proof.
  split; [reflexivity|]. intros (_ & _ & Hcur & _). discriminate Hcur.
Defined.

(** C5 on three tracks with a device that rejects every file: starting the
    third track leaves the second one current. *)
Lemma start_play_failure_witness :
  fst (_start_play sample_sha1 world_broken 2 three_tracks) = Ok tt
  ∧ same_transport three_tracks
      (snd (_start_play sample_sha1 world_broken 2 three_tracks))
  ∧ playlist (snd (_start_play sample_sha1 world_broken 2 three_tracks))
    = playlist three_tracks
  ∧ last (calls (snd (_start_play sample_sha1 world_broken 2 three_tracks)))
    = Some (ShowError "Error"
              ("Cannot play:" +:+ nl +:+ path_str song_c +:+ nl +:+ nl
               +:+ error_message world_broken song_c "No such file or directory"))
  ∧ (current_index (snd (_start_play sample_sha1 world_broken 2 three_tracks))
     = Some 2
     ↔ current_index three_tracks = Some 2).
Proof.
  apply (start_play_failure_keeps_state sample_sha1 world_broken three_tracks 2
           song_c "No such file or directory").
  - unfold len. cbn. lia.
  - reflexivity.
  - reflexivity.
Defined.

Lemma playing_second_reachable : reachable sample_sha1 playing_second.
Proof.
  apply reachable_run_all; [constructor|].
  split; [done|]. split; [|done]. vm_compute. split; [discriminate|reflexivity].
Qed.

(** C5, as the specification states it, fails: with the second of three
    tracks playing, starting it again on a device that rejects it leaves
    the current index on the track that failed to load. *)
Lemma start_play_failure_counterexample :
  current_index playing_second = Some 1
  ∧ fst (start_attempt sample_sha1 world_broken 1 song_b playing_second)
    = Raise "No such file or directory"
  ∧ current_index (snd (_start_play sample_sha1 world_broken 1 playing_second))
    = Some 1
  ∧ ¬ failed_start_not_current sample_sha1.
Proof.
  split; [vm_compute; reflexivity|]. split; [vm_compute; reflexivity|].
  split; [vm_compute; reflexivity|]. intros H.
  apply (H world_broken playing_second 1 song_b "No such file or directory").
  - exact playing_second_reachable.
  - vm_compute. split; [discriminate|reflexivity].
  - vm_compute. reflexivity.
  - vm_compute. reflexivity.
  - vm_compute. reflexivity.
Defined.

Lemma paused_at_500_reachable : reachable sample_sha1 paused_at_500.
Proof.
  apply reachable_run_all; [constructor|]. cbn. done.
Qed.

(** C6, as the specification states it, fails: clearing the playlist takes
    the clock of a track paused at 500 ms back to 0, and clearing starts
    nothing. *)
Lemma reset_only_by_start_counterexample :
  elapsed_base_ms paused_at_500 = 500
  ∧ elapsed_base_ms (snd (run sample_sha1 world ClearPlaylist paused_at_500)) = 0
  ∧ ¬ reset_only_by_start sample_sha1.
Proof.
  split; [reflexivity|]. split; [reflexivity|].
  intros H.
  specialize (H world ClearPlaylist paused_at_500 paused_at_500_reachable I).
  assert (Hstarts : starts ClearPlaylist = true)
    by (apply H; [discriminate | reflexivity]).
  discriminate Hstarts.
Defined.

(** C6 as amended, at the state paused 500 ms into a track. *)
Lemma elapsed_clock_witness :
  0 <= elapsed_base_ms paused_at_500
  ∧ (∀ env index p,
       0 <= index < len (playlist paused_at_500) →
       py_getitem (playlist paused_at_500) index = Some p →
       fst (start_attempt sample_sha1 env index p paused_at_500) = Ok tt →
       elapsed_base_ms (snd (_start_play sample_sha1 env index paused_at_500)) = 0)
  ∧ (∀ env op,
       enabled op paused_at_500 →
       (halts op = true →
        elapsed_base_ms (snd (run sample_sha1 env op paused_at_500)) = 0)
       ∧ (halts op = false →
          elapsed_base_ms paused_at_500
          <= elapsed_base_ms (snd (run sample_sha1 env op paused_at_500))
          ∨ (starts op = true
             ∧ ∃ idx, started idx paused_at_500
                        (snd (run sample_sha1 env op paused_at_500))))).
Proof.
  apply (elapsed_clock_resets sample_sha1 paused_at_500).
  exact paused_at_500_reachable.
Defined.

(** C7 at the same state: the current index 0 is an index of the one-track
    playlist. *)
Lemma current_index_witness :
  match current_index paused_at_500 with
  | None => True
  | Some c => 0 <= c < len (playlist paused_at_500)
  end.
Proof.
  apply (current_index_always_valid sample_sha1 paused_at_500).
  exact paused_at_500_reachable.
Defined.

(** C8 on one loaded track with nothing started. *)
Lemma play_pause_idle_witness :
  play_pause sample_sha1 world idle_one = _start_play sample_sha1 world 0 idle_one.
Proof.
  apply (play_pause_idle_is_start_0 sample_sha1 world idle_one).
  - reflexivity.
  - discriminate.
Defined.

(** C9, as the specification states it, fails: level 150 reaches the
    device as 1.5, not as the clamped 1. *)
Lemma on_volume_counterexample :
  ∃ v, volume_sent (snd (_on_volume world (150 # 1) init)) = Some v
       ∧ (v == 3 # 2)%Q
       ∧ ¬ (v == clamp_level (150 # 1) / (100 # 1))%Q.
Proof.
  eexists. split; [reflexivity|]. split; [reflexivity|].
  vm_compute. discriminate.
Defined.

(** C9 as amended, at level 80. *)
Lemma on_volume_witness :
  volume_sent (snd (_on_volume world (80 # 1) init)) = Some (80 # 100)%Q
  ∧ ((80 # 1) / (100 # 1) == clamp_level (80 # 1) / (100 # 1))%Q
  ∧ (0 <= (80 # 1) / (100 # 1))%Q
  ∧ ((80 # 1) / (100 # 1) <= 1)%Q.
Proof.
  destruct (on_volume_forwards_level world (80 # 1) init)
    as (_ & _ & _ & _ & _ & Hin).
  split; [reflexivity|].
  apply Hin; vm_compute; discriminate.
Defined.

(** C10 on one loaded track with nothing started and shuffle off. *)
Lemma next_track_idle_witness :
  next_track sample_sha1 world idle_one
  = _start_play sample_sha1 world 0 (emit NextTrack idle_one)
  ∧ fst (next_track sample_sha1 world idle_one) = Ok tt
  ∧ started 0 idle_one (snd (next_track sample_sha1 world idle_one))
  ∧ calls (snd (next_track sample_sha1 world idle_one))
    = [NextTrack; MusicLoad "/music/01 intro.mp3"; MusicPlay].
Proof.
  destruct (next_track_idle_sequential_starts_0 sample_sha1 world idle_one)
    as [Heq Hall]; [discriminate | reflexivity | reflexivity |].
  split; [exact Heq|].
  destruct (Hall song_a eq_refl) as (_ & Hdev & _).
  destruct (Hdev eq_refl eq_refl) as (Hok & Hst & Hcalls).
  split; [exact Hok|]. split; [exact Hst|]. exact Hcalls.
Defined.

(** * Further properties on concrete runs *)

Lemma world_accepts : device_accepts world.
Proof. split; [intros f|]; reflexivity. Qed.

Lemma world_broken_rejects : device_rejects world_broken.
Proof. intros f. discriminate. Qed.

Example dec_examples : (dec 0, dec 7, dec 10, dec 2024) = ("0", "7", "10", "2024")%string.
Proof. reflexivity. Qed.

Example fmt_time_examples :
  (fmt_time (Some (3725 # 10)), fmt_time (Some (6000 # 1)), fmt_time (Some (1 # 2)),
   fmt_time (Some (-3 # 1)), fmt_time None)
  = ("06:12", "100:00", "00:00", "00:00", "00:00")%string.
Proof. reflexivity. Qed.

Example truncate_examples :
  (truncate "abcdefghij" 8, truncate "abc" 8, display_name song_a 5)
  = ("abcde...", "abc", "01...")%string.
Proof. reflexivity. Qed.

Example unique_name_example :
  _unique_playlist_name sample_store "Rock" = Some "Rock (3)"%string.
Proof. reflexivity. Qed.

Lemma pick_shuffle_never_current_witness :
  0 ≠ 1 ∧ 0 <= 0 < len (playlist three_tracks).
Proof.
  apply (pick_shuffle_never_current world three_tracks 1 0); reflexivity.
Defined.

Lemma pick_shuffle_none_iff_witness :
  _pick_shuffle_index world one_playing = None
  ↔ playlist one_playing = [] ∨ (len (playlist one_playing) = 1
                                  ∧ current_index one_playing = Some 0).
Proof. apply (pick_shuffle_none_iff world one_playing). Defined.

Lemma pick_shuffle_two_tracks_witness :
  _pick_shuffle_index world two_tracks = Some (1 - 1).
Proof.
  apply (pick_shuffle_two_tracks world two_tracks 1); [reflexivity..|lia].
Defined.

Lemma pick_shuffle_reaches_witness :
  ∃ d, _pick_shuffle_index (with_draw d world) five_playing = Some 4.
Proof.
  apply (pick_shuffle_reaches_every_choice world five_playing 2 4);
    first [reflexivity | unfold len; cbn; lia | discriminate].
Defined.

Lemma pause_then_resume_witness :
  let a1 := snd (play_pause sample_sha1 world_playing three_tracks) in
  let a2 := snd (play_pause sample_sha1 world a1) in
  paused a1 = true
  ∧ elapsed_base_ms a1 = elapsed_base_ms three_tracks + Z.max 0 500
  ∧ calls a1 = calls three_tracks ++ [MusicPause]
  ∧ paused a2 = false
  ∧ elapsed_base_ms a2 = elapsed_base_ms three_tracks + Z.max 0 500
  ∧ calls a2 = calls three_tracks ++ [MusicPause; MusicUnpause]
  ∧ current_index a2 = Some 1
  ∧ playlist a2 = playlist three_tracks
  ∧ user_stopped a2 = user_stopped three_tracks.
Proof.
  apply (pause_then_resume sample_sha1 world_playing world three_tracks 1);
    reflexivity.
Defined.

Lemma next_prev_cancel_witness :
  current_index (snd (prev_track sample_sha1 world
                        (snd (next_track sample_sha1 world five_playing)))) = Some 2
  ∧ current_index (snd (next_track sample_sha1 world
                          (snd (prev_track sample_sha1 world five_playing)))) = Some 2.
Proof.
  apply (next_prev_cancel sample_sha1 world world five_playing 2);
    first [exact world_accepts | reflexivity | unfold len; cbn; lia].
Defined.

Lemma next_k_times_witness :
  current_index (run_all sample_sha1 (replicate 7 (world, Next)) five_playing)
  = Some ((2 + Z.of_nat 7) mod len (playlist five_playing))
  ∧ current_index
      (run_all sample_sha1
         (replicate (length (playlist five_playing)) (world, Next)) five_playing)
    = Some 2.
Proof.
  apply (next_k_times sample_sha1 world 7 five_playing 2);
    first [exact world_accepts | reflexivity | unfold len; cbn; lia].
Defined.

Lemma tick_advances_witness :
  fst (_poll_playback sample_sha1 world five_playing) = Ok tt
  ∧ current_index (snd (_poll_playback sample_sha1 world five_playing))
    = Some ((2 + 1) mod len (playlist five_playing))
  ∧ elapsed_base_ms (snd (_poll_playback sample_sha1 world five_playing)) = 0
  ∧ paused (snd (_poll_playback sample_sha1 world five_playing)) = false
  ∧ playlist (snd (_poll_playback sample_sha1 world five_playing))
    = playlist five_playing.
Proof.
  apply (tick_advances_sequentially sample_sha1 world five_playing 2);
    first [exact world_accepts | reflexivity | unfold len; cbn; lia].
Defined.

Lemma single_track_next_witness :
  next_track sample_sha1 world one_shuffled = (Ok tt, emit NextTrack one_shuffled)
  ∧ (snd (_poll_playback sample_sha1 world one_shuffled) = one_shuffled
     ∨ snd (_poll_playback sample_sha1 world one_shuffled)
       = emit NextTrack one_shuffled)
  ∧ started 0 one_playing (snd (next_track sample_sha1 world one_playing))
  ∧ MusicPlay ∈ new_calls one_playing
                  (snd (next_track sample_sha1 world one_playing)).
Proof.
  destruct (single_track_next sample_sha1 world one_shuffled song_a)
    as (Hnext & Hpoll & Hoff); [reflexivity..|].
  split; [exact Hnext|]. split; [exact Hpoll|]. exact (Hoff world_accepts).
Defined.

Lemma start_play_index_error_witness :
  _start_play sample_sha1 world 5 five_tracks
  = (Raise "list index out of range", five_tracks).
Proof.
  apply (start_play_index_error sample_sha1 world five_tracks 5).
  - discriminate.
  - right. unfold len. cbn. lia.
Defined.

Lemma start_play_negative_index_witness :
  ∃ p, playlist five_tracks !! Z.to_nat (-1 + len (playlist five_tracks)) = Some p
       ∧ MusicLoad (path_str p)
         ∈ new_calls five_tracks (snd (_start_play sample_sha1 world (-1) five_tracks))
       ∧ current_index (snd (_start_play sample_sha1 world (-1) five_tracks))
         = Some (-1)
       ∧ ¬ index_in_range (snd (_start_play sample_sha1 world (-1) five_tracks)).
Proof.
  apply (start_play_negative_index sample_sha1 world five_tracks (-1)).
  - exact world_accepts.
  - unfold len. cbn. lia.
Defined.


Lemma start_play_m4a_without_ffmpeg_witness :
  fst (_start_play sample_sha1 world_broken 3 five_tracks) = Ok tt
  ∧ calls (snd (_start_play sample_sha1 world_broken 3 five_tracks))
    = calls five_tracks ++ [MusicLoad (path_str talk); MusicLoad (path_str talk);
                            ShowError "Error" (ffmpeg_hint talk)]
  ∧ same_transport five_tracks (snd (_start_play sample_sha1 world_broken 3 five_tracks))
  ∧ _temp_files (snd (_start_play sample_sha1 world_broken 3 five_tracks))
    = _temp_files five_tracks.
Proof.
  apply (start_play_m4a_without_ffmpeg sample_sha1 world_broken five_tracks 3 talk
           "No such file or directory"); reflexivity.
Defined.

Lemma rejected_track_retried_witness :
  same_transport five_playing
    (run_all sample_sha1 (ticks (replicate 3 world_broken)) five_playing)
  ∧ playlist (run_all sample_sha1 (ticks (replicate 3 world_broken)) five_playing)
    = playlist five_playing
  ∧ error_dialogs
      (new_calls five_playing
         (run_all sample_sha1 (ticks (replicate 3 world_broken)) five_playing))
    = 3%nat.
Proof.
  apply (rejected_track_retried_every_tick sample_sha1 world_broken 3 five_playing 2);
    first [exact world_broken_rejects | reflexivity | unfold len; cbn; lia].
Defined.

Lemma song_has_key (d s e : string) (k : list KeyTok) :
  _natural_key (mkPath d s e) = Ok k → has_key (mkPath d s e).
Proof. intros H. by exists k. Qed.

Lemma natural_keys_comparable_witness :
  has_key song_c
  ∧ alternating true [KStr ""; KInt 10; KStr " finale"] = true
  ∧ key_lt_checked [KStr ""; KInt 10; KStr " finale"] [KStr ""; KInt 2; KStr " theme"]
    = Some (key_lt [KStr ""; KInt 10; KStr " finale"] [KStr ""; KInt 2; KStr " theme"]).
Proof.
  destruct (natural_keys_comparable song_c song_b) as [Hkey Hcmp].
  split; [apply Hkey; vm_compute; [reflexivity|discriminate]|].
  apply Hcmp; vm_compute; reflexivity.
Defined.

Lemma sort_natural_sorted_perm_witness :
  sort_playlist (set_playlist [song_b; song_a] init)
  = (Ok tt, set_playlist [song_a; song_b] init)
  ∧ sort_playlist (set_playlist [song_b; song_squared; song_a] init)
    = (Raise ("invalid literal for int() with base 10: '" +:+ superscript_two +:+ "'"),
       set_playlist [song_b; song_squared; song_a] init).
Proof.
  split.
  - destruct (sort_natural_sorted_perm (set_playlist [song_b; song_a] init))
      as [_ Hcase].
    assert (Hs : sort_natural (playlist (set_playlist [song_b; song_a] init))
                 = Ok [song_a; song_b]) by (vm_compute; reflexivity).
    rewrite Hs in Hcase. destruct Hcase as [Hrun _]. exact Hrun.
  - destruct (sort_natural_sorted_perm
                (set_playlist [song_b; song_squared; song_a] init)) as [_ Hcase].
    assert (Hs : sort_natural
                   (playlist (set_playlist [song_b; song_squared; song_a] init))
                 = Raise ("invalid literal for int() with base 10: '"
                          +:+ superscript_two +:+ "'"))
      by (vm_compute; reflexivity).
    rewrite Hs in Hcase. destruct Hcase as [Hrun _]. exact Hrun.
Defined.

Lemma sort_natural_stable_witness :
  filter (λ p, _natural_key p = Ok [KStr (stem ete_small)])
    [song_b; ete_capital; ete_small]
  = filter (λ p, _natural_key p = Ok [KStr (stem ete_small)])
      [ete_capital; ete_small; song_b].
Proof.
  apply (sort_natural_stable [KStr (stem ete_small)]
           [ete_capital; ete_small; song_b] [song_b; ete_capital; ete_small]).
  vm_compute. reflexivity.
Defined.

Lemma sort_natural_idempotent_witness :
  sort_natural [song_a; song_b; song_c] = Ok [song_a; song_b; song_c]
  ∧ sort_natural [song_a; song_b; song_c; talk] = Ok [song_a; song_b; song_c; talk].
Proof.
  destruct (sort_natural_idempotent [song_a; song_b; song_c]) as [Hsorted _].
  destruct (sort_natural_idempotent [talk; song_c; song_b; song_a]) as [_ Hagain].
  split.
  - apply Hsorted.
    + repeat constructor; eapply song_has_key; vm_compute; reflexivity.
    + repeat constructor; eexists _, _; (split; [|split]); vm_compute; reflexivity.
  - apply Hagain. vm_compute. reflexivity.
Defined.


Lemma load_playlist_result_witness :
  (fst (_load_playlist_paths world [song_c; talk; song_a] three_tracks) = Ok tt
   ∧ playlist (snd (_load_playlist_paths world [song_c; talk; song_a] three_tracks))
     = [song_a; song_c; talk])
  ∧ (fst (_load_playlist_paths world [song_b; song_squared; song_a] three_tracks)
     = Raise ("invalid literal for int() with base 10: '" +:+ superscript_two +:+ "'")
     ∧ playlist (snd (_load_playlist_paths world [song_b; song_squared; song_a]
                        three_tracks))
       = [song_b; song_squared; song_a])
  ∧ (fst (_load_playlist_paths world_bad_disk [song_b; song_a; song_c; talk]
            three_tracks)
     = Raise "[Errno 36] File name too long"
     ∧ playlist (snd (_load_playlist_paths world_bad_disk
                        [song_b; song_a; song_c; talk] three_tracks))
       = [song_b; song_a]).
Proof.
  split; [|split].
  - destruct (load_playlist_result world [song_c; talk; song_a] three_tracks)
      as (_ & _ & _ & Hok & _).
    assert (Hs : sort_natural (kept world [song_c; talk; song_a])
                 = Ok [song_a; song_c; talk]) by (vm_compute; reflexivity).
    rewrite Hs in Hok.
    destruct Hok as (Hfst & Hpl & _); [intros pp _; by exists true|].
    split; [exact Hfst | exact Hpl].
  - destruct (load_playlist_result world [song_b; song_squared; song_a] three_tracks)
      as (_ & _ & _ & Hok & _).
    assert (Hs : sort_natural (kept world [song_b; song_squared; song_a])
                 = Raise ("invalid literal for int() with base 10: '"
                          +:+ superscript_two +:+ "'"))
      by (vm_compute; reflexivity).
    rewrite Hs in Hok.
    destruct Hok as (Hfst & Hpl); [intros pp _; by exists true|].
    split; [exact Hfst | exact Hpl].
  - destruct (load_playlist_result world_bad_disk [song_b; song_a; song_c; talk]
                three_tracks) as (_ & _ & _ & _ & Hraise).
    apply (Hraise [song_b; song_a] song_c [talk]); [reflexivity| |reflexivity].
    intros q Hq. exists true.
    apply elem_of_cons in Hq as [->|Hq]; [reflexivity|].
    apply elem_of_cons in Hq as [->|Hq]; [reflexivity|].
    by apply elem_of_nil in Hq.
Defined.

Lemma playlist_supported_and_sorted_witness :
  Forall (λ p, supported p = true) (playlist after_edits)
  ∧ StronglySorted key_le (playlist after_edits).
Proof.
  destruct (playlist_supported_and_sorted sample_sha1 edits) as [Hs Ho].
  split; [exact Hs|]. apply Ho.
  - repeat constructor. intros pp _. by exists true.
  - change (playlist (run_all sample_sha1 edits init)) with [song_a; song_b; song_c].
    repeat constructor; eapply song_has_key; vm_compute; reflexivity.
Defined.

Lemma add_files_no_duplicates_witness :
  NoDup (path_str <$> playlist (snd (add_files [song_a; song_b; song_b; talk] idle_one))).
Proof.
  apply (add_files_no_duplicates [song_a; song_b; song_b; talk] idle_one).
  cbn. apply NoDup_singleton.
Defined.

Lemma add_folder_store_witness :
  (∃ a' pls',
     add_folder_store "Rock" [song_b; song_c] idle_one sample_store
     = Some (Ok tt, a', pls', Some "Rock (3)"%string)
     ∧ playlist a' = [song_a; song_b; song_c]
     ∧ pls' !! "Rock (3)"%string = Some [song_b; song_c]
     ∧ pls' !! "Rock"%string = Some [song_a])
  ∧ ∃ a',
      add_folder_store "Rock" [song_b; song_squared] idle_one sample_store
      = Some (Raise ("invalid literal for int() with base 10: '"
                     +:+ superscript_two +:+ "'"), a', sample_store, None)
      ∧ playlist a' = [song_a; song_b; song_squared].
Proof.
  split.
  - destruct (add_folder_store_keeps_playlists "Rock" [song_b; song_c] idle_one
                sample_store) as (r & a' & pls' & selected & Hs & _ & Hkeep & Hcases).
    assert (Hname : selected = Some "Rock (3)"%string).
    { vm_compute in Hs. congruence. }
    assert (Hsort : sort_natural
                      (playlist idle_one
                       ++ unseen_files [song_b; song_c]
                            (list_to_set (path_str <$> playlist idle_one)))
                    = Ok [song_a; song_b; song_c]) by (vm_compute; reflexivity).
    rewrite Hsort in Hcases. destruct Hcases as (Hr & Hpl & _ & Hnew).
    destruct Hnew as (name & Hsel & _ & _ & Hlook); [discriminate|].
    exists a', pls'. rewrite Hs, Hr, Hname. split; [reflexivity|].
    split; [exact Hpl|]. split.
    + rewrite Hsel in Hname. injection Hname as <-. exact Hlook.
    + apply Hkeep. reflexivity.
  - destruct (add_folder_store_keeps_playlists "Rock" [song_b; song_squared] idle_one
                sample_store) as (r & a' & pls' & selected & Hs & _ & _ & Hcases).
    assert (Hsort : sort_natural
                      (playlist idle_one
                       ++ unseen_files [song_b; song_squared]
                            (list_to_set (path_str <$> playlist idle_one)))
                    = Raise ("invalid literal for int() with base 10: '"
                             +:+ superscript_two +:+ "'"))
      by (vm_compute; reflexivity).
    rewrite Hsort in Hcases. destruct Hcases as (Hr & Hpl & Hpls & Hsel).
    exists a'. rewrite Hs, Hr, Hpls, Hsel. split; [reflexivity | exact Hpl].
Defined.

Lemma load_selected_missing_name_witness :
  playlist (snd (_on_load_selected_playlist world sample_store "Jazz" three_tracks)) = []
  ∧ current_index
      (snd (_on_load_selected_playlist world sample_store "Jazz" three_tracks)) = None
  ∧ user_stopped
      (snd (_on_load_selected_playlist world sample_store "Jazz" three_tracks)) = true
  ∧ new_calls three_tracks
      (snd (_on_load_selected_playlist world sample_store "Jazz" three_tracks))
    = [MusicStop].
Proof.
  apply (load_selected_missing_name world sample_store "Jazz" three_tracks);
    first [discriminate | reflexivity].
Defined.

Lemma add_folder_then_load_selected_witness :
  fst (_on_load_selected_playlist world
         (<["Rock (3)" := [song_b; song_a]]> sample_store)
         "Rock (3)" three_tracks) = Ok tt
  ∧ playlist (snd (_on_load_selected_playlist world
                     (<["Rock (3)" := [song_b; song_a]]> sample_store)
                     "Rock (3)" three_tracks))
    = [song_a; song_b].
Proof.
  destruct (add_folder_then_load_selected world "Rock" [song_b; song_a] init
              (set_playlist [song_a; song_b] init) three_tracks
              sample_store (<["Rock (3)" := [song_b; song_a]]> sample_store)
              "Rock (3)") as [Hload _].
  - reflexivity.
  - vm_compute. reflexivity.
  - intros p _. reflexivity.
  - apply Hload. discriminate.
Defined.

(** A folder that is named like the placeholder of the selector is stored
    under that name, and the Load button does nothing for it. *)
Example placeholder_folder :
  (∃ a' pls',
     add_folder_store "Choose a playlist" [song_b; song_a] init ∅
     = Some (Ok tt, a', pls', Some "Choose a playlist"%string)
     ∧ playlist a' = [song_a; song_b]
     ∧ _on_load_selected_playlist world pls' "Choose a playlist" three_tracks
       = (Ok tt, three_tracks)).
Proof. eexists _, _. split; [vm_compute; reflexivity|]. split; reflexivity. Qed.

Lemma truncate_fits_witness :
  Z.of_nat (String.length (truncate "Nocturne in E flat" 10)) <= 10
  ∧ (Z.of_nat (String.length "Nocturne in E flat") <= 10 →
     truncate "Nocturne in E flat" 10 = "Nocturne in E flat"%string)
  ∧ (10 < Z.of_nat (String.length "Nocturne in E flat") →
     truncate "Nocturne in E flat" 10
     = substring 0 (Z.to_nat (10 - 3)) "Nocturne in E flat" +:+ "..."
     ∧ Z.of_nat (String.length (truncate "Nocturne in E flat" 10)) = 10)
  ∧ truncate (truncate "Nocturne in E flat" 10) 10
    = truncate "Nocturne in E flat" 10.
Proof. apply (truncate_fits "Nocturne in E flat" 10). lia. Defined.

Lemma unique_playlist_name_witness :
  ∃ name, _unique_playlist_name sample_store "Rock" = Some name
          ∧ sample_store !! name = None
          ∧ name = "Rock (3)"%string.
Proof.
  destruct (unique_playlist_name_fresh sample_store "Rock") as (name & Hn & Hfree & _).
  exists name. split; [exact Hn|]. split; [exact Hfree|].
  vm_compute in Hn. congruence.
Defined.
